(** * Parallel FP-Growth (PAMI/frequentPattern/pyspark/parallelFPGrowth.py)

    A shallow embedding of the prefix tree ([_Node], [_Tree]), of the
    transaction projection ([genCondTransaction]), of the conditional miner
    ([genFreqPatterns], [genAllFrequentPatterns]) and of the driver
    ([startMine], [_convert]), followed by the properties proved about them.

    Conventions.
    - A Python [dict] is an association list in insertion order with
      distinct keys ([dget], [dset], [dupdate]); iteration follows the list.
    - Python objects that are mutated through references (the nodes of a
      tree) live in a heap, a list addressed by allocation index; a reference
      is an index.  The root of a tree is the node at index 0.
    - Python integers are [Z]; ranks, being indices produced by [enumerate],
      are [nat].
    - A Python [float] is a binary64 number ([spec_float] at precision 53
      and exponent bound 1024); products are rounded to nearest even.
    - A Python [str] is a [string] read as a sequence of code points below
      256; inputs with other characters are outside the model.
    - What the program leaves to the engine, the order of items with equal
      counts after [sortBy], is a parameter of the run ([sorts_desc]). *)

From Stdlib Require Import ZArith QArith Lia Ascii String.
From Stdlib Require Import DecimalString DecimalZ DecimalPos SpecFloat.
From stdpp Require Import base decidable option list numbers strings sorting.

Local Open Scope Z_scope.
Local Open Scope list_scope.

(** ** Python dictionaries *)

Module PyDict.
Section dict.
Context {K : Type} `{EqDecision K} {V : Type}.

(** [d[k]] / [d.get(k)] *)
Fixpoint dget (k : K) (d : list (K * V)) : option V :=
  match d with
  | [] => None
  | (k', v) :: d' => if decide (k = k') then Some v else dget k d'
  end.

(** [d[k] = v]: in place when the key exists, appended otherwise. *)
Fixpoint dset (k : K) (v : V) (d : list (K * V)) : list (K * V) :=
  match d with
  | [] => [(k, v)]
  | (k', v') :: d' =>
      if decide (k = k') then (k', v) :: d' else (k', v') :: dset k v d'
  end.

(** [k in d] *)
Definition dmem (k : K) (d : list (K * V)) : bool :=
  match dget k d with Some _ => true | None => false end.

(** [d.keys()] *)
Definition dkeys (d : list (K * V)) : list K := fst <$> d.

(** [d.update(e)] for [e] iterated in order. *)
Definition dupdate (d e : list (K * V)) : list (K * V) :=
  foldl (fun acc kv => dset (fst kv) (snd kv) acc) d e.

(** [dict(l)] for a list of pairs. *)
Definition dict_of (l : list (K * V)) : list (K * V) := dupdate [] l.
End dict.
End PyDict.
Import PyDict.

Abbreviation dict K V := (list (K * V)).

(** ** Nodes and trees *)

(** [class _Node]: [item] is [None] for the root sentinel only; [children]
    maps a rank to the reference of the child node. *)
Record Node : Type := mkNode {
  item : option nat;
  count : Z;
  children : dict nat nat;
  prefix : list nat
}.

(** [_Node(item, prefix)] *)
Definition new_Node (it : option nat) (pre : list nat) : Node :=
  mkNode it 0 [] pre.

(** [class _Tree]: the heap of its nodes ([root] is reference 0), [nodeLink]
    (rank to list of node references) and [itemCount] (a [defaultdict(int)]). *)
Record Tree : Type := mkTree {
  heap : list Node;
  nodeLink : dict nat (list nat);
  itemCount : dict nat Z
}.

(** [_Tree()] *)
Definition new_Tree : Tree := mkTree [new_Node None []] [] [].

(** Dereference.  References handed out by the model always point into the
    heap; the default is never observed on well-formed trees. *)
Definition node_at (h : list Node) (r : nat) : Node :=
  default (new_Node None []) (h !! r).

Definition add_count (c : Z) (n : Node) : Node :=
  mkNode (item n) (count n + c) (children n) (prefix n).

Definition set_child (it child : nat) (n : Node) : Node :=
  mkNode (item n) (count n) (dset it child (children n)) (prefix n).

(** [transaction.index(item)]: position of the first occurrence. *)
Fixpoint index (x : nat) (l : list nat) : nat :=
  match l with
  | [] => 0%nat
  | y :: l' => if decide (x = y) then 0%nat else S (index x l')
  end.

(** [_Tree.addNodeToNodeLink(node)], [node] given by reference. *)
Definition addNodeToNodeLink (r : nat) (t : Tree) : Tree :=
  match item (node_at (heap t) r) with
  | None => t
  | Some it =>
      match dget it (nodeLink t) with
      | None => mkTree (heap t) (dset it [r] (nodeLink t)) (itemCount t)
      | Some refs => mkTree (heap t) (dset it (refs ++ [r]) (nodeLink t)) (itemCount t)
      end
  end.

(** [self.itemCount[item] += count] on a [defaultdict(int)]. *)
Definition bump (it : nat) (c : Z) (ic : dict nat Z) : dict nat Z :=
  dset it (default 0 (dget it ic) + c) ic.

(** One iteration of the loop of [addTransaction]: from node [current],
    handle [it]; returns the new [current] and the updated tree. *)
Definition addTransaction_step (transaction : list nat) (c : Z)
    (it : nat) (current : nat) (t : Tree) : nat * Tree :=
  let cur := node_at (heap t) current in
  let '(child, t1) :=
    match dget it (children cur) with
    | None =>
        let child := length (heap t) in
        let n := new_Node (Some it) (take (index it transaction) transaction) in
        let h1 := <[current := set_child it child cur]> (heap t) ++ [n] in
        let h2 := <[child := add_count c n]> h1 in
        (child, addNodeToNodeLink child (mkTree h2 (nodeLink t) (itemCount t)))
    | Some child =>
        let h1 := <[child := add_count c (node_at (heap t) child)]> (heap t) in
        (child, mkTree h1 (nodeLink t) (itemCount t))
    end in
  (child, mkTree (heap t1) (nodeLink t1) (bump it c (itemCount t1))).

Fixpoint addTransaction_loop (transaction : list nat) (c : Z)
    (items : list nat) (current : nat) (t : Tree) : Tree :=
  match items with
  | [] => t
  | it :: items' =>
      let '(child, t') := addTransaction_step transaction c it current t in
      addTransaction_loop transaction c items' child t'
  end.

(** [_Tree.addTransaction(transaction, count)] *)
Definition addTransaction (transaction : list nat) (c : Z) (t : Tree) : Tree :=
  addTransaction_loop transaction c transaction 0%nat t.

(** [buildTree(tree, data)] *)
Definition buildTree (t : Tree) (data : list (list nat)) : Tree :=
  foldl (fun t trans => addTransaction trans 1 t) t data.

(** ** Exceptions and fuel *)

Inductive exn : Type :=
  | KeyError | IndexError | ZeroDivisionError | ValueError | TypeError
  | OverflowError
  | Py4JJavaError.

(** Result of running a Python function: a value, a raised exception, or
    the model's recursion budget exhausted. *)
Inductive res (A : Type) : Type :=
  | Ok (a : A)
  | Raise (e : exn)
  | OutOfFuel.
Arguments Ok {A} a.
Arguments Raise {A} e.
Arguments OutOfFuel {A}.

Definition bind {A B} (m : res A) (f : A -> res B) : res B :=
  match m with
  | Ok a => f a
  | Raise e => Raise e
  | OutOfFuel => OutOfFuel
  end.

Notation "'let*' x ':=' m 'in' k" := (bind m (fun x => k))
  (at level 10, x name, m at level 100, k at level 200).

(** A [for] loop whose body may raise. *)
Fixpoint for_each {A S} (body : S -> A -> res S) (s : S) (l : list A) : res S :=
  match l with
  | [] => Ok s
  | a :: l' => let* s' := body s a in for_each body s' l'
  end.

(** [sorted(l, key=key)]: a stable sort, ascending in [key]. *)
Section sorted.
Context {A : Type} (key : A -> Z).

Fixpoint insert_by (x : A) (l : list A) : list A :=
  match l with
  | [] => [x]
  | y :: l' => if (key x <=? key y)%Z then x :: l else y :: insert_by x l'
  end.

Definition sorted_by (l : list A) : list A := foldr insert_by [] l.
End sorted.

(** ** Conditional trees *)

(** [_Tree.generateConditionalTree(item)] *)
Definition generateConditionalTree (it : nat) (t : Tree) : res Tree :=
  match dget it (nodeLink t) with
  | None => Raise KeyError
  | Some refs =>
      Ok (foldl (fun tree r =>
                   let node := node_at (heap t) r in
                   addTransaction (prefix node) (count node) tree)
                new_Tree refs)
  end.

(** ** The miner: methods of [class parallelFPGrowth]

    The methods read [self._minSup] (already resolved by [_convert]) and
    [self._numPartitions]. A Python [float] threshold is modelled by the
    rational it denotes. *)

(** The first loop of [genFreqPatterns]: for every key [i] of
    [condTree.nodeLink], [freqItems[i]] is the sum of [node.count] over
    [condTree.nodeLink[i]]. *)
Definition link_totals (condTree : Tree) : dict nat Z :=
  foldl (fun (freqItems : dict nat Z) (kv : nat * list nat) =>
           dset (fst kv)
                (foldl (fun s r => s + count (node_at (heap condTree) r)) 0 (snd kv))
                freqItems)
        [] (nodeLink condTree).

(** The first two statements of [genCondTransaction]:
    [sorted([rank[item] for item in transaction if item in rank.keys()])]. *)
Definition newTrans_of (transaction : list string) (rank : dict string nat)
    : list nat :=
  sorted_by Z.of_nat (omap (fun it => dget it rank) transaction).

Section parallelFPGrowth.
Variable minSup : Q.
Variable numPartitions : Z.

(** [getPartitionId(value)]: Python's [%] takes the sign of the divisor,
    as [Z.modulo] does, and raises on a zero divisor. *)
Definition getPartitionId (value : nat) : res Z :=
  if decide (numPartitions = 0) then Raise ZeroDivisionError
  else Ok (Z.of_nat value mod numPartitions).

(** [genCondTransaction(transaction, rank)] *)
Definition genCondTransaction (transaction : list string)
    (rank : dict string nat) : res (dict Z (list nat)) :=
  let newTrans := newTrans_of transaction rank in
  for_each
    (fun condTrans i =>
       let* partition := getPartitionId i in
       if dmem partition condTrans then Ok condTrans
       else Ok (dset partition (take (index i newTrans + 1) newTrans) condTrans))
    [] (reverse newTrans).

(** [value >= self._minSup] *)
Definition meets_minSup (value : Z) : bool := Qle_bool minSup (inject_Z value).

(** [genFreqPatterns(item, prefix, tree)]; [fuel] bounds the recursion depth. *)
Fixpoint genFreqPatterns (fuel : nat) (it : nat) (pre : list nat) (tree : Tree)
    : res (dict (list nat) Z) :=
  match fuel with
  | O => OutOfFuel
  | S fuel' =>
      let* condTree := generateConditionalTree it tree in
      let freqItems := link_totals condTree in
      let freqItems := filter (fun kv => meets_minSup (snd kv) = true) freqItems in
      for_each
        (fun (freqPatterns : dict (list nat) Z) (kv : nat * Z) =>
           let pattern := pre ++ [fst kv] in
           let freqPatterns := dset pattern (snd kv) freqPatterns in
           let* sub := genFreqPatterns fuel' (fst kv) pattern condTree in
           Ok (dupdate freqPatterns sub))
        [] freqItems
  end.

(** [genAllFrequentPatterns(tree_tuple)].  The recursion of
    [genFreqPatterns] started at rank [item] is given depth [item + 1]. *)
Definition genAllFrequentPatterns (tree_tuple : Z * Tree)
    : res (dict (list nat) Z) :=
  let itemList := sorted_by snd (itemCount (snd tree_tuple)) in
  let itemList := fst <$> itemList in
  for_each
    (fun (freqPatterns : dict (list nat) Z) (it : nat) =>
       let* partition := getPartitionId it in
       if decide (partition = fst tree_tuple) then
         let* sub := genFreqPatterns (S it) it [it] (snd tree_tuple) in
         Ok (dupdate freqPatterns sub)
       else Ok freqPatterns)
    [] itemList.
End parallelFPGrowth.

(** ** Reading the input *)

Definition tab : ascii := ascii_of_nat 9.

(** A string of the model is a sequence of code points below 256, one
    [ascii] each.  [str.isspace] on them: the characters that [rstrip()]
    and [strip()] remove are U+0009 to U+000D, U+001C to U+0020, U+0085 and
    U+00A0. *)
Definition is_space (c : ascii) : bool :=
  let n := nat_of_ascii c in
  ((9 <=? n)%nat && (n <=? 13)%nat) || ((28 <=? n)%nat && (n <=? 32)%nat)
  || (n =? 133)%nat || (n =? 160)%nat.

(** [x.rstrip()] *)
Fixpoint rstrip (s : string) : string :=
  match s with
  | EmptyString => EmptyString
  | String c s' =>
      match rstrip s' with
      | EmptyString => if is_space c then EmptyString else String c EmptyString
      | r => String c r
      end
  end.

(** [x.split(sep)] for a one-character separator. *)
Fixpoint split (sep : ascii) (s : string) : list string :=
  match s with
  | EmptyString => [EmptyString]
  | String c s' =>
      if decide (c = sep) then EmptyString :: split sep s'
      else match split sep s' with
           | [] => [String c EmptyString]
           | w :: ws => String c w :: ws
           end
  end.

(** [c in value] *)
Fixpoint contains (c : ascii) (s : string) : bool :=
  match s with
  | EmptyString => false
  | String c' s' => if decide (c = c') then true else contains c s'
  end.

(** ** Resolving the threshold *)

(** A Python [float] is an IEEE 754 binary64 number: [spec_float] with 53
    bits of precision and exponent bound 1024, results rounded to the
    nearest float, ties to even. *)

(** [float(z)] for an [int], as [z * f] computes it first: the nearest
    float, [OverflowError] when there is none. *)
Definition float_of_int (z : Z) : res spec_float :=
  match binary_normalize 53 1024 z 0 false with
  | S754_infinity _ => Raise OverflowError
  | f => Ok f
  end.

(** [z * f] for an [int] [z] and a [float] [f]. *)
Definition int_mul_float (z : Z) (f : spec_float) : res spec_float :=
  let* l := float_of_int z in Ok (SFmul 53 1024 l f).

(** The rational a finite float denotes (0 for the others). *)
Definition float_Q (f : spec_float) : Q :=
  match f with
  | S754_finite s m e => inject_Z (cond_Zopp s (Zpos m)) * Qpower (inject_Z 2) e
  | _ => 0%Q
  end.

(** [x >= f] for an [int] [x] and a [float] [f]: Python compares the two
    numbers exactly; nothing is above or equal to [nan]. *)
Definition int_ge_float (x : Z) (f : spec_float) : bool :=
  match f with
  | S754_nan => false
  | S754_infinity s => s
  | _ => Qle_bool (float_Q f) (inject_Z x)
  end.

(** The values [minSup] may hold: [int], [float], [str], and two
    representatives of every other type. *)
Inductive pyval : Type :=
  | PInt (z : Z)
  | PFloat (f : spec_float)
  | PStr (s : string)
  | PBool (b : bool)
  | PNone.

Section convert.
(** Python's [int(str)] and [float(str)]; [None] stands for [ValueError]. *)
Variable int_of_str : string -> option Z.
Variable float_of_str : string -> option spec_float.

(** [_convert(value)] with [self._lno = lno]: the result and the lines
    printed. *)
Definition _convert (lno : Z) (value : pyval) : res pyval * list string :=
  match value with
  | PInt z => (Ok (PInt z), [])
  | PFloat f => (let* value := int_mul_float lno f in Ok (PFloat value), [])
  | PStr s =>
      if contains "." s then
        match float_of_str s with
        | Some f => (let* value := int_mul_float lno f in Ok (PFloat value), [])
        | None => (Raise ValueError, [])
        end
      else
        match int_of_str s with
        | Some z => (Ok (PInt z), [])
        | None => (Raise ValueError, [])
        end
  | _ => (Ok value, ["minSup is not correct"%string])
  end.
End convert.

(** [x >= v] for an [int] [x]: [bool] compares as 0 or 1, [str] and [None]
    raise [TypeError]. *)
Definition ge_pyval (x : Z) (v : pyval) : res bool :=
  match v with
  | PInt z => Ok (Qle_bool (inject_Z z) (inject_Z x))
  | PFloat f => Ok (int_ge_float x f)
  | PBool b => Ok (Qle_bool (inject_Z (if b then 1 else 0)) (inject_Z x))
  | PStr _ | PNone => Raise TypeError
  end.

(** The number a numeric threshold denotes.  The miner compares it with
    sums of node counts, which are at least 1: for the float [-inf], which
    every count meets, 0 stands. *)
Definition as_Q (v : pyval) : Q :=
  match v with
  | PInt z => inject_Z z
  | PFloat f => float_Q f
  | PBool b => inject_Z (if b then 1 else 0)
  | PStr _ | PNone => 0%Q
  end.

(** ** The driver *)

(** Keys of [self._finalPatterns] before the final rewriting: an item
    ([str]) or a tuple of items. *)
Inductive pattern : Type :=
  | PatStr (s : string)
  | PatTuple (l : list string).

#[global] Instance pattern_eq_dec : EqDecision pattern.
Proof. solve_decision. Defined.

(** [rdd]: one transaction per line. *)
Definition rdd_of (lines : list string) : list (list string) :=
  (fun x => split tab (rstrip x)) <$> lines.

(** [flatMap(lambda trans: [(item, 1) ...]).reduceByKey(add)], keys in
    first-seen order. *)
Definition itemCounts (rdd : list (list string)) : dict string Z :=
  foldl (fun d it => dset it (default 0 (dget it d) + 1) d) [] (concat rdd).

(** [.filter(lambda x: x[1] >= self._minSup)]; the comparison raises for a
    threshold that is not a number. *)
Definition filter_minSup (v : pyval) (l : dict string Z) : res (dict string Z) :=
  for_each (fun acc x =>
              let* b := ge_pyval (snd x) v in
              Ok (if b : bool then acc ++ [x] else acc))
           [] l.

(** One order [.sortBy(lambda x: x[1], ascending=False)] may deliver: equal
    counts in first-seen order. *)
Definition sortBy_desc (l : dict string Z) : dict string Z :=
  sorted_by (fun x => - snd x) l.

(** [dict([(item, index) for (index, item) in enumerate(FPList)])] *)
Definition rank_of (FPList : list string) : dict string nat :=
  dict_of (imap (fun index it => (it, index)) FPList).

(** [.groupByKey()]: keys in first-seen order, values in input order. *)
Definition groupByKey (l : list (Z * list nat)) : dict Z (list (list nat)) :=
  foldl (fun g kv => dset (fst kv) (default [] (dget (fst kv) g) ++ [snd kv]) g) [] l.

(** [tuple([self._FPList[z] for z in ranks])] *)
Fixpoint labels_of (FPList : list string) (ranks : list nat) : res (list string) :=
  match ranks with
  | [] => Ok []
  | z :: ranks' =>
      match FPList !! z with
      | None => Raise IndexError
      | Some lbl => let* rest := labels_of FPList ranks' in Ok (lbl :: rest)
      end
  end.

(** The key written to [temp] for a pattern. *)
Definition key_of (p : pattern) : string :=
  match p with
  | PatStr s => (s ++ String tab EmptyString)%string
  | PatTuple l => foldl (fun s it => (s ++ (it ++ String tab EmptyString))%string) EmptyString l
  end.

Section startMine.
Variable int_of_str : string -> option Z.
Variable float_of_str : string -> option spec_float.

(** [.sortBy(lambda x: x[1], ascending=False).collect()] as the engine runs
    it.  The program asks for non-increasing counts; the order of equal
    counts is the engine's, fixed by the partitioning of the data, which
    changes with [numPartitions]. *)
Variable sortBy : dict string Z -> dict string Z.

(** [startMine()] on an object built by
    [parallelFPGrowth(iFile, minSup, numWorkers, sep)], where [lines] are
    the lines of [iFile]; returns [self._finalPatterns].  The timing and
    memory fields are left out.  [sc.textFile(iFile, numPartitions)] fails
    in the engine, when the lines are first read by [rdd.count()], for a
    negative [numPartitions].  An exception raised inside a task of the
    engine (in a lambda, in [genCondTransaction], in the miner) reaches the
    caller wrapped by the engine; the model names the exception raised in
    the task. *)
Definition startMine (lines : list string) (minSup : pyval)
    (numPartitions : Z) (sep : string) : res (dict string Z) :=
  let rdd := rdd_of lines in
  let* lno :=
    if decide (numPartitions < 0) then Raise Py4JJavaError
    else Ok (Z.of_nat (length rdd)) in
  let* minSup := fst (_convert int_of_str float_of_str lno minSup) in
  let* freqItems := filter_minSup minSup (itemCounts rdd) in
  let freqItems := sortBy freqItems in
  let finalPatterns : dict pattern Z :=
    dict_of ((fun x => (PatStr (fst x), snd x)) <$> freqItems) in
  let FPList := fst <$> freqItems in
  let rank := rank_of FPList in
  let* pairs :=
    for_each (fun acc x =>
                let* ct := genCondTransaction numPartitions x rank in
                Ok (acc ++ ct)) [] rdd in
  let workByPartition := groupByKey pairs in
  let trees := (fun kv => (fst kv, buildTree new_Tree (snd kv))) <$> workByPartition in
  let* freqPatterns :=
    for_each (fun acc tree_tuple =>
                let* fp := genAllFrequentPatterns (as_Q minSup) numPartitions tree_tuple in
                Ok (acc ++ fp)) [] trees in
  let* result :=
    for_each (fun acc ranks_count =>
                let* lbls := labels_of FPList (fst ranks_count) in
                Ok (acc ++ [(PatTuple lbls, snd ranks_count)])) [] freqPatterns in
  let finalPatterns := dupdate finalPatterns (dict_of result) in
  Ok (foldl (fun temp pv => dset (key_of (fst pv)) (snd pv) temp) [] finalPatterns).
End startMine.

(** ** Reporting the patterns *)

(** [s.replace(old, new)] for one-character [old] and [new]. *)
Fixpoint replace (old new : ascii) (s : string) : string :=
  match s with
  | EmptyString => EmptyString
  | String c s' =>
      String (if decide (c = old) then new else c) (replace old new s')
  end.

(** [x.lstrip()] *)
Fixpoint lstrip (s : string) : string :=
  match s with
  | EmptyString => EmptyString
  | String c s' => if is_space c then lstrip s' else s
  end.

(** [x.strip()] *)
Definition strip (s : string) : string := lstrip (rstrip s).

(** [str(y)] for an [int]: the decimal digits, after a minus sign for
    a negative number. *)
Definition str (y : Z) : string := NilZero.string_of_int (Z.to_int y).

(** What [getPatternsAsDataFrame] returns: the initial [{}], or
    [DataFrame(data, columns=...)]. *)
Inductive frame : Type :=
  | EmptyDict
  | DataFrame (data : list (string * Z)) (columns : list string).

(** [getPatternsAsDataFrame()]: the frame is rebuilt from [data] at every
    turn of the loop. *)
Definition getPatternsAsDataFrame (finalPatterns : dict string Z) : frame :=
  fst (foldl (fun (st : frame * list (string * Z)) (ab : string * Z) =>
                let data := snd st ++ [(replace tab " " (fst ab), snd ab)] in
                (DataFrame data ["Patterns"%string; "Support"%string], data))
             (EmptyDict, []) finalPatterns).

(** [save(outFile)]: the content of the file, opened with mode ['w+'],
    after the loop. *)
Definition save (finalPatterns : dict string Z) : string :=
  foldl (fun (written : string) (xy : string * Z) =>
           let s1 := (strip (fst xy) ++ ":" ++ str (snd xy))%string in
           (written ++ (s1 ++ String " " (String (ascii_of_nat 10) EmptyString)))%string)
        EmptyString finalPatterns.

(** * Vocabulary of the statements *)

(** [owner(rank) = rank mod numPartitions] *)
Definition owner (numPartitions : Z) (r : nat) : Z := Z.of_nat r mod numPartitions.

(** The first rank of [l] owned by partition [p]. *)
Fixpoint first_owned (numPartitions : Z) (p : Z) (l : list nat) : option nat :=
  match l with
  | [] => None
  | r :: l' =>
      if decide (owner numPartitions r = p) then Some r
      else first_owned numPartitions p l'
  end.

(** Sum of a list of integers. *)
Definition Zsum (l : list Z) : Z := foldr Z.add 0 l.

(** The node reached from node [cur] by following [path] through
    [children]. *)
Fixpoint walk (h : list Node) (cur : nat) (path : list nat) : option nat :=
  match path with
  | [] => Some cur
  | r :: path' =>
      match dget r (children (node_at h cur)) with
      | None => None
      | Some c => walk h c path'
      end
  end.

(** The prefix [_Node] stores for a node created while inserting a
    transaction that starts with [path] (the ranks from the root to the
    node, the node's own rank last). *)
Definition stored_prefix (path : list nat) : list nat :=
  match last path with
  | None => []
  | Some r => take (index r path) path
  end.

(** The references held by [nodeLink] for rank [r]. *)
Definition refs_of (t : Tree) (r : nat) : list nat :=
  default [] (dget r (nodeLink t)).

(** [sum(f(node.prefix) * node.count for node in nodeLink[r])] *)
Definition link_sum (f : list nat -> Z) (t : Tree) (r : nat) : Z :=
  Zsum ((fun id => f (prefix (node_at (heap t) id)) * count (node_at (heap t) id))
          <$> refs_of t r).

(** Representation invariant of a tree.  [paths] is ghost state: the ranks
    from the root to each node, by reference. *)
Record wf (t : Tree) (paths : list (list nat)) : Prop := {
  wf_len : length paths = length (heap t);
  wf_root : paths !! 0%nat = Some [];
  wf_nodup : NoDup paths;
  wf_child : forall id q r c,
    paths !! id = Some q ->
    dget r (children (node_at (heap t) id)) = Some c ->
    paths !! c = Some (q ++ [r]);
  wf_parent : forall c q r,
    paths !! c = Some (q ++ [r]) ->
    exists id, paths !! id = Some q /\
               dget r (children (node_at (heap t) id)) = Some c;
  wf_item : forall id q r,
    paths !! id = Some (q ++ [r]) ->
    item (node_at (heap t) id) = Some r /\
    prefix (node_at (heap t) id) = stored_prefix (q ++ [r]);
  wf_link_keys : NoDup (dkeys (nodeLink t));
  wf_link : forall r refs,
    dget r (nodeLink t) = Some refs ->
    NoDup refs /\
    forall id, id ∈ refs <->
               (id < length (heap t))%nat /\ item (node_at (heap t) id) = Some r;
  wf_link_dom : forall id r,
    (id < length (heap t))%nat ->
    item (node_at (heap t) id) = Some r -> r ∈ dkeys (nodeLink t);
  wf_count :
    itemCount t =
    (fun kv => (fst kv, Zsum ((fun id => count (node_at (heap t) id)) <$> snd kv)))
      <$> nodeLink t
}.

(** The two outcomes of a step of [addTransaction]: the count of an
    existing child is raised, or a child of [current] is allocated. *)
Definition raise_child (c : Z) (it child : nat) (t : Tree) : Tree :=
  mkTree (<[child := add_count c (node_at (heap t) child)]> (heap t))
         (nodeLink t) (bump it c (itemCount t)).

Definition alloc_child (tx : list nat) (c : Z) (it current : nat) (t : Tree) : Tree :=
  mkTree (<[current := set_child it (length (heap t)) (node_at (heap t) current)]>
            (heap t)
          ++ [mkNode (Some it) (0 + c) [] (take (index it tx) tx)])
         (dset it (refs_of t it ++ [length (heap t)]) (nodeLink t))
         (bump it c (itemCount t)).

(** A sequence of [addTransaction] calls. *)
Definition insert_all (l : list (list nat * Z)) (t : Tree) : Tree :=
  foldl (fun t txc => addTransaction (fst txc) (snd txc) t) t l.

(** [path] is the beginning of [tx] and holds at least one rank. *)
Definition on_path (tx path : list nat) : Prop :=
  path <> [] /\ take (length path) tx = path.

#[global] Instance on_path_dec tx path : Decision (on_path tx path).
Proof. unfold on_path. apply _. Defined.

(** Total count of the insertions of [l] that pass through [path]. *)
Definition path_count (l : list (list nat * Z)) (path : list nat) : Z :=
  Zsum ((fun txc => if decide (on_path (fst txc) path) then snd txc else 0) <$> l).

(** What the first [k] steps of [addTransaction tx c] have done to the
    nodes of [t0] (ghost paths [paths0]), giving [t'] (ghost paths [paths']). *)
Definition path_effect (tx : list nat) (c : Z) (t0 : Tree)
    (paths0 : list (list nat)) (k : nat) (t' : Tree)
    (paths' : list (list nat)) : Prop :=
  (exists ext, paths' = paths0 ++ ext)
  /\ (forall p, p ∈ paths' <->
                p ∈ paths0 \/ (on_path tx p /\ (length p <= k)%nat))
  /\ (forall id p, paths' !! id = Some p ->
        count (node_at (heap t') id) =
        count (node_at (heap t0) id)
        + if decide (on_path tx p /\ (length p <= k)%nat) then c else 0)
  /\ (forall id, (id < length (heap t0))%nat ->
        item (node_at (heap t') id) = item (node_at (heap t0) id)
        /\ prefix (node_at (heap t') id) = prefix (node_at (heap t0) id)).

(** Number of occurrences of [r] in [l]. *)
Definition occ (r : nat) (l : list nat) : Z :=
  Z.of_nat (length (filter (fun x => x = r) l)).

(** The conditional pattern base of rank [it]: what
    [generateConditionalTree] inserts into the fresh tree. *)
Definition cond_base (t : Tree) (it : nat) : list (list nat * Z) :=
  (fun r => (prefix (node_at (heap t) r), count (node_at (heap t) r)))
    <$> refs_of t it.

(** What can be observed of the node at the end of [path]: its item, count
    and stored prefix; [None] when the tree has no such node. *)
Definition node_view (t : Tree) (path : list nat)
    : option (option nat * Z * list nat) :=
  (fun id => let n := node_at (heap t) id in (item n, count n, prefix n))
    <$> walk (heap t) 0 path.

(** Two trees with the same nodes along the same paths, holding the same
    counts, and with the same [itemCount] entries. *)
Definition tree_equiv (t1 t2 : Tree) : Prop :=
  (forall path, node_view t1 path = node_view t2 path)
  /\ (forall r, dget r (itemCount t1) = dget r (itemCount t2)).

(** Total of [count * occurrences of r] over the insertions [l]. *)
Definition item_total (l : list (list nat * Z)) (r : nat) : Z :=
  Zsum ((fun txc => snd txc * occ r (fst txc)) <$> l).

(** Ascending in [key]. *)
Definition key_le {A : Type} (key : A -> Z) (a b : A) : Prop := key a <= key b.

(** The ranks for which [genAllFrequentPatterns] calls [genFreqPatterns] on
    the tree of partition [p], in calling order. *)
Definition mined_ranks (numPartitions p : Z) (tree : Tree) : list nat :=
  filter (fun it => owner numPartitions it = p)
         (fst <$> sorted_by snd (itemCount tree)).

(** Weighted support of the itemset [S] in a list of transactions with
    multiplicities: the total multiplicity of the transactions holding
    every item of [S]. *)
Definition wsupp {A : Type} `{EqDecision A} (l : list (list A * Z)) (S : list A) : Z :=
  Zsum ((fun txc => if decide (S ⊆ fst txc) then snd txc else 0) <$> l).

(** Support of the itemset [S] in the transactions [rdd]: the number of
    transactions that hold every item of [S]. *)
Definition support {A : Type} `{EqDecision A} (rdd : list (list A)) (S : list A) : Z :=
  wsupp ((fun t => (t, 1)) <$> rdd) S.

(** The itemset [r :: ext], ranks in descending order, is frequent in [l]
    with support [v]. *)
Definition mined (minSup : Q) (l : list (list nat * Z)) (r : nat)
    (ext : list nat) (v : Z) : Prop :=
  StronglySorted gt (r :: ext)
  /\ v = wsupp l (r :: ext)
  /\ 0 < v
  /\ meets_minSup minSup v = true.

(** A resolved threshold that is a number: an [int], a [bool], or a
    [float] other than [nan] and the infinities. *)
Definition numeric (v : pyval) : Prop :=
  match v with
  | PInt _ | PBool _ => True
  | PFloat (S754_finite _ _ _) | PFloat (S754_zero _) => True
  | PFloat _ | PStr _ | PNone => False
  end.

(** What the program may rely on of [sortBy]: the same elements, by
    non-increasing count. *)
Definition sorts_desc (sortBy : dict string Z -> dict string Z) : Prop :=
  forall d, sortBy d ≡ₚ d /\ StronglySorted (fun x y => snd y <= snd x) (sortBy d).

(** [freqItems] and [self._FPList] of [startMine], for the order [sortBy]
    of the run and the resolved threshold [thr]. *)
Definition freqItems_of (sortBy : dict string Z -> dict string Z) (thr : Q)
    (rdd : list (list string)) : dict string Z :=
  sortBy (filter (fun x => meets_minSup thr (snd x) = true) (itemCounts rdd)).

Definition FPList_of (sortBy : dict string Z -> dict string Z) (thr : Q)
    (rdd : list (list string)) : list string :=
  fst <$> freqItems_of sortBy thr rdd.

(** The value of a result, [d] when there is none. *)
Definition unres {A : Type} (d : A) (r : res A) : A :=
  match r with Ok a => a | _ => d end.

(** The transactions of [rdd] in rank space, as [genCondTransaction]
    computes them. *)
Definition ranked (sortBy : dict string Z -> dict string Z) (thr : Q)
    (rdd : list (list string)) : list (list nat) :=
  (fun t => newTrans_of t (rank_of (FPList_of sortBy thr rdd))) <$> rdd.

(** The key written for the itemset [p], items in the given order. *)
Definition items_key (p : list string) : string := key_of (PatTuple p).

(** [self._FPList[z]] for every rank of [k], skipping invalid ranks. *)
Definition lbls_of (FPList : list string) (k : list nat) : list string :=
  omap (fun i => FPList !! i) k.

(** [k] is a non-empty list of valid ranks in descending order whose
    labels form an itemset of support [v], positive and meeting the
    threshold. *)
Definition frequent_ranks (sortBy : dict string Z -> dict string Z) (thr : Q)
    (rdd : list (list string)) (k : list nat) (v : Z) : Prop :=
  k <> []
  /\ StronglySorted gt k
  /\ Forall (fun i => (i < length (FPList_of sortBy thr rdd))%nat) k
  /\ v = support rdd (lbls_of (FPList_of sortBy thr rdd) k)
  /\ 0 < v
  /\ meets_minSup thr v = true.

(** Every entry of [d] is the key of an itemset that [d'] reports with
    the same count, its items listed in the same or in another order. *)
Definition covers (d d' : dict string Z) : Prop :=
  forall s c, (s, c) ∈ d ->
    exists p p', s = items_key p /\ p' ≡ₚ p /\ (items_key p', c) ∈ d'.

(** Two runs end alike: with the same exception, or with mappings, each
    under distinct keys, that report the same itemsets with the same
    counts; the order in which a key lists the items of its itemset is
    left to each run. *)
Definition same_result (r r' : res (dict string Z)) : Prop :=
  match r, r' with
  | Ok d, Ok d' =>
      NoDup (dkeys d) /\ NoDup (dkeys d') /\ covers d d' /\ covers d' d
  | Raise e, Raise e' => e = e'
  | _, _ => False
  end.

(** Number of occurrences of [a] among the items of all transactions. *)
Definition occurrences {A : Type} `{EqDecision A} (a : A) (rdd : list (list A)) : Z :=
  Z.of_nat (length (filter (fun x => x = a) (concat rdd))).

(** [s] starts with a character that [strip] removes. *)
Definition begins_with_space (s : string) : bool :=
  match s with
  | EmptyString => false
  | String c _ => is_space c
  end.

(** [s] ends with a character that [strip] removes. *)
Fixpoint ends_with_space (s : string) : bool :=
  match s with
  | EmptyString => false
  | String c s' =>
      match s' with
      | EmptyString => is_space c
      | String _ _ => ends_with_space s'
      end
  end.

(** A resolved threshold that a count can be compared with: every value
    but a [str] and [None]. *)
Definition comparable (v : pyval) : Prop :=
  match v with
  | PStr _ | PNone => False
  | PInt _ | PFloat _ | PBool _ => True
  end.

(** * Properties *)

(** ** Dictionaries *)

Section dict_facts.
Context {K : Type} `{EqDecision K} {V : Type}.
Implicit Types (d e : list (K * V)) (k : K) (v : V).

Lemma dget_dset d k k' v :
  dget k' (dset k v d) = if decide (k' = k) then Some v else dget k' d.
Proof.
  induction d as [|[k0 v0] d IH]; simpl.
  - repeat case_decide; congruence.
  - destruct (decide (k = k0)) as [->|Hne]; simpl.
    + repeat case_decide; congruence.
    + rewrite IH. repeat case_decide; congruence.
Qed.

Lemma dget_dset_eq d k v : dget k (dset k v d) = Some v.
Proof. rewrite dget_dset. by rewrite decide_True. Qed.

Lemma dget_dset_ne d k k' v : k' <> k -> dget k' (dset k v d) = dget k' d.
Proof. intros. rewrite dget_dset. by rewrite decide_False. Qed.

Lemma dget_None d k : dget k d = None <-> k ∉ dkeys d.
Proof.
  induction d as [|[k0 v0] d IH]; simpl.
  - split; [intros _; apply not_elem_of_nil | done].
  - rewrite not_elem_of_cons. case_decide; [|tauto].
    split; [done | intros [? _]; done].
Qed.

Lemma dget_Some_elem d k v : dget k d = Some v -> (k, v) ∈ d.
Proof.
  induction d as [|[k0 v0] d IH]; simpl; [done|].
  case_decide; intros Hg.
  - injection Hg as ->. subst. apply list_elem_of_here.
  - apply list_elem_of_further; auto.
Qed.

Lemma dget_is_Some d k : is_Some (dget k d) <-> k ∈ dkeys d.
Proof.
  rewrite <- not_eq_None_Some, dget_None.
  destruct (decide (k ∈ dkeys d)); tauto.
Qed.

Lemma elem_dget d k v : NoDup (dkeys d) -> (k, v) ∈ d -> dget k d = Some v.
Proof.
  induction d as [|[k0 v0] d IH]; simpl; intros Hnd Hin.
  - by apply elem_of_nil in Hin.
  - apply NoDup_cons in Hnd as [Hk0 Hnd].
    apply elem_of_cons in Hin as [Heq|Hin].
    + injection Heq as -> ->. by rewrite decide_True.
    + rewrite decide_False; [auto|].
      intros ->. apply Hk0. unfold dkeys.
      apply list_elem_of_fmap. by exists (k0, v).
Qed.

Lemma dkeys_dset d k v :
  dkeys (dset k v d) = if dmem k d then dkeys d else dkeys d ++ [k].
Proof.
  unfold dmem. induction d as [|[k0 v0] d IH]; simpl; [done|].
  destruct (decide (k = k0)) as [->|Hne]; simpl; [done|].
  rewrite IH. by destruct (dget k d).
Qed.

Lemma NoDup_dkeys_dset d k v : NoDup (dkeys d) -> NoDup (dkeys (dset k v d)).
Proof.
  intros Hnd. rewrite dkeys_dset. unfold dmem.
  destruct (dget k d) eqn:Hg; [done|].
  apply NoDup_app. split; [done|]. split; [|apply NoDup_singleton].
  intros x Hx Hx'. apply list_elem_of_singleton in Hx' as ->.
  by apply dget_None in Hg.
Qed.

Lemma NoDup_dkeys_dupdate d e : NoDup (dkeys d) -> NoDup (dkeys (dupdate d e)).
Proof.
  unfold dupdate. revert d. induction e as [|[k v] e IH]; simpl; [done|].
  intros d Hd. apply IH. by apply NoDup_dkeys_dset.
Qed.

Lemma NoDup_dkeys_dict_of (l : list (K * V)) : NoDup (dkeys (dict_of l)).
Proof. apply NoDup_dkeys_dupdate. apply NoDup_nil_2. Qed.

(** After [d.update(e)] a key holds its last binding in [e], if any. *)
Lemma dget_dupdate d e k :
  dget k (dupdate d e) =
  match dget k (reverse e) with Some v => Some v | None => dget k d end.
Proof.
  unfold dupdate. revert d. induction e as [|[k0 v0] e IH] using rev_ind; intros d.
  - done.
  - rewrite foldl_app, reverse_app. simpl.
    rewrite dget_dset. case_decide; [done|]. apply IH.
Qed.

Lemma dget_reverse d k : NoDup (dkeys d) -> dget k (reverse d) = dget k d.
Proof.
  intros Hnd. destruct (dget k d) as [v|] eqn:Hg.
  - apply elem_dget.
    + unfold dkeys. rewrite fmap_reverse. by rewrite reverse_Permutation.
    + apply elem_of_reverse. by apply dget_Some_elem.
  - apply dget_None. apply dget_None in Hg.
    unfold dkeys in *. rewrite fmap_reverse. by rewrite elem_of_reverse.
Qed.
End dict_facts.

(** ** Input separator *)

Lemma startMine_sep_unused i2z s2q sortBy lines minSup numPartitions sep sep' :
  startMine i2z s2q sortBy lines minSup numPartitions sep =
  startMine i2z s2q sortBy lines minSup numPartitions sep'.
Proof. reflexivity. Qed.

(** C5: [startMine] splits every line at tabs whatever separator was
    configured.  With [sep = ","] the two lines ["a,b"] are read as two
    transactions holding the single item ["a,b"]; the items [a] and [b] are
    never seen. *)
Theorem startMine_comma_separated :
  startMine (fun _ => None) (fun _ => None) sortBy_desc
            ["a,b"%string; "a,b"%string] (PInt 2) 1 ","%string
  = Ok [(key_of (PatStr "a,b"), 2)].
Proof. vm_compute. reflexivity. Qed.

(** ** Threshold resolution *)

Lemma Qle_bool_inject_Z (z x : Z) :
  Qle_bool (inject_Z z) (inject_Z x) = bool_decide (z <= x).
Proof.
  destruct (Qle_bool _ _) eqn:E; symmetry.
  - apply bool_decide_eq_true. rewrite Zle_Qle. by apply Qle_bool_iff.
  - apply bool_decide_eq_false. rewrite Zle_Qle.
    intros H%Qle_bool_iff. congruence.
Qed.

(** C4, the claim as stated fails: a [bool] is not a recognised numeric
    form, yet [_convert] returns it after printing a message and the run
    goes on to produce patterns. *)
Lemma convert_bool_proceeds :
  _convert (fun _ => None) (fun _ => None) 1 (PBool true)
    = (Ok (PBool true), ["minSup is not correct"%string])
  /\ startMine (fun _ => None) (fun _ => None) sortBy_desc ["a"%string] (PBool true) 1
               (String tab EmptyString)
     = Ok [(key_of (PatStr "a"), 1)].
Proof. split; vm_compute; reflexivity. Qed.

(** C4, amended: [_convert] keeps an [int] as the absolute count;
    multiplies a [float] by the transaction count in double precision
    (the count converted to a float, the product rounded to the nearest
    float: with 10 lines 0.1 resolves to the float 1.0, which a count of 1
    meets, and with 100 lines 0.07 resolves to 7.000000000000001, which a
    count of 7 does not meet); parses a [str] as a float (then multiplied)
    when it holds a dot and as an int otherwise, raising [ValueError] when
    it does not parse; any other value is returned unchanged after
    printing "minSup is not correct", without an error.  Counts are
    compared exactly with the resolved number; no count meets [nan]. *)
Theorem convert_resolves (int_of_str : string -> option Z)
    (float_of_str : string -> option spec_float) (lno : Z) :
  (forall z, _convert int_of_str float_of_str lno (PInt z) = (Ok (PInt z), [])
             /\ forall x, ge_pyval x (PInt z) = Ok (bool_decide (z <= x)))
  /\ (forall f,
        _convert int_of_str float_of_str lno (PFloat f)
        = (match float_of_int lno with
           | Ok l => Ok (PFloat (SFmul 53 1024 l f))
           | Raise e => Raise e
           | OutOfFuel => OutOfFuel
           end, []))
  /\ (forall s,
        _convert int_of_str float_of_str lno (PStr s)
          = if contains "." s
            then match float_of_str s with
                 | Some f => _convert int_of_str float_of_str lno (PFloat f)
                 | None => (Raise ValueError, [])
                 end
            else match int_of_str s with
                 | Some z => (Ok (PInt z), [])
                 | None => (Raise ValueError, [])
                 end)
  /\ (forall b, _convert int_of_str float_of_str lno (PBool b)
                = (Ok (PBool b), ["minSup is not correct"%string]))
  /\ _convert int_of_str float_of_str lno PNone
     = (Ok PNone, ["minSup is not correct"%string])
  /\ (forall x s m e, exists b,
        ge_pyval x (PFloat (S754_finite s m e)) = Ok b
        /\ (b = true <->
            (inject_Z (cond_Zopp s (Zpos m)) * Qpower (inject_Z 2) e
             <= inject_Z x)%Q))
  /\ (forall x s, ge_pyval x (PFloat (S754_zero s)) = Ok (bool_decide (0 <= x)))
  /\ (forall x, ge_pyval x (PFloat S754_nan) = Ok false
                /\ ge_pyval x (PFloat (S754_infinity false)) = Ok false
                /\ ge_pyval x (PFloat (S754_infinity true)) = Ok true)
  /\ (_convert int_of_str float_of_str 10
               (PFloat (S754_finite false 7205759403792794 (-56)))
      = (Ok (PFloat (S754_finite false 4503599627370496 (-52))), [])
      /\ ge_pyval 1 (PFloat (S754_finite false 4503599627370496 (-52))) = Ok true)
  /\ (_convert int_of_str float_of_str 100
               (PFloat (S754_finite false 5044031582654956 (-56)))
      = (Ok (PFloat (S754_finite false 7881299347898369 (-50))), [])
      /\ ge_pyval 7 (PFloat (S754_finite false 7881299347898369 (-50))) = Ok false).
Proof.
  split; [|split; [|split; [|split; [|split; [|split; [|split; [|split; [|split]]]]]]]].
  - intros z. split; [done|]. intros x. unfold ge_pyval.
    by rewrite Qle_bool_inject_Z.
  - intros f. cbn [_convert]. unfold int_mul_float.
    by destruct (float_of_int lno).
  - intros s. cbn [_convert]. by destruct (contains "." s), (float_of_str s).
  - done.
  - done.
  - intros x s m e. eexists. split; [reflexivity|]. apply Qle_bool_iff.
  - intros x s. cbn [ge_pyval int_ge_float float_Q].
    change 0%Q with (inject_Z 0). by rewrite Qle_bool_inject_Z.
  - done.
  - split; vm_compute; reflexivity.
  - split; vm_compute; reflexivity.
Qed.

(** ** Sorting *)

Section sorted_facts.
Context {A : Type} (key : A -> Z).

Lemma insert_by_perm x l : insert_by key x l ≡ₚ x :: l.
Proof.
  induction l as [|y l IH]; simpl; [done|].
  destruct (key x <=? key y); [done|].
  rewrite IH. apply Permutation_swap.
Qed.

Lemma sorted_by_perm l : sorted_by key l ≡ₚ l.
Proof.
  induction l as [|x l IH]; simpl; [done|].
  rewrite insert_by_perm. by rewrite IH.
Qed.

Lemma insert_by_sorted x l :
  StronglySorted (key_le key) l -> StronglySorted (key_le key) (insert_by key x l).
Proof.
  induction l as [|y l IH]; simpl; intros Hs.
  - by repeat constructor.
  - apply StronglySorted_cons in Hs as [Hy Hs].
    destruct (key x <=? key y) eqn:E.
    + apply Z.leb_le in E. apply StronglySorted_cons. split.
      * constructor; [done|].
        eapply Forall_impl; [exact Hy|]. unfold key_le. intros; lia.
      * by apply StronglySorted_cons.
    + apply Z.leb_gt in E. apply StronglySorted_cons. split; [|auto].
      rewrite insert_by_perm. constructor; [|done]. unfold key_le. lia.
Qed.

Lemma sorted_by_sorted l : StronglySorted (key_le key) (sorted_by key l).
Proof.
  induction l as [|x l IH]; simpl; [constructor|].
  by apply insert_by_sorted.
Qed.
End sorted_facts.

Lemma StronglySorted_mono {A} (R R' : A -> A -> Prop) l :
  (forall a b, R a b -> R' a b) -> StronglySorted R l -> StronglySorted R' l.
Proof.
  intros HR. induction 1 as [|a l Hs IH Hall]; constructor; [done|].
  eapply Forall_impl; [exact Hall|]. auto.
Qed.

Lemma newTrans_of_sorted transaction rank :
  StronglySorted le (newTrans_of transaction rank).
Proof.
  unfold newTrans_of.
  eapply StronglySorted_mono; [|apply (sorted_by_sorted Z.of_nat)].
  unfold key_le. intros; lia.
Qed.

(** ** Projection of a transaction *)

Section projection.
Variable numPartitions : Z.
Hypothesis numPartitions_nonzero : numPartitions <> 0.

Lemma getPartitionId_owner r :
  getPartitionId numPartitions r = Ok (owner numPartitions r).
Proof. unfold getPartitionId. by rewrite decide_False. Qed.

Lemma first_owned_None p l :
  first_owned numPartitions p l = None <->
  forall r, r ∈ l -> owner numPartitions r <> p.
Proof.
  induction l as [|x l IH]; simpl.
  - split; [intros _ r Hr; by apply elem_of_nil in Hr | done].
  - case_decide as Hx.
    + split; [done|]. intros H. exfalso. apply (H x); [left | done].
    + rewrite IH. split.
      * intros H r [->|Hr]%elem_of_cons; auto.
      * intros H r Hr. apply H. by right.
Qed.

Lemma first_owned_reverse_max p l r :
  StronglySorted le l ->
  first_owned numPartitions p (reverse l) = Some r ->
  r ∈ l /\ owner numPartitions r = p /\
  forall r', r' ∈ l -> owner numPartitions r' = p -> (r' <= r)%nat.
Proof.
  induction l as [|x l IH] using rev_ind; [done|].
  rewrite reverse_snoc. simpl. intros Hs.
  apply StronglySorted_app in Hs as (Hle & Hs & _).
  case_decide as Hx.
  - intros [= ->]. split; [apply elem_of_app; right; left|]. split; [done|].
    intros r' [Hr'|Hr']%elem_of_app _.
    + apply Hle; [done | left].
    + apply list_elem_of_singleton in Hr' as ->. done.
  - intros Hf. destruct (IH Hs Hf) as (Hin & Hp & Hmax).
    split; [apply elem_of_app; by left|]. split; [done|].
    intros r' [Hr'|Hr']%elem_of_app Hown; [auto|].
    apply list_elem_of_singleton in Hr' as ->. done.
Qed.

(** The loop of [genCondTransaction] over any list [l] of ranks. *)
Lemma project_loop (T l : list nat) (ct : dict Z (list nat)) :
  exists ct',
    for_each
      (fun condTrans i =>
         let* partition := getPartitionId numPartitions i in
         if dmem partition condTrans then Ok condTrans
         else Ok (dset partition (take (index i T + 1) T) condTrans))
      ct l = Ok ct'
    /\ (NoDup (dkeys ct) -> NoDup (dkeys ct'))
    /\ forall p,
         dget p ct' =
         match dget p ct with
         | Some v => Some v
         | None => (fun r => take (index r T + 1) T)
                     <$> first_owned numPartitions p l
         end.
Proof.
  revert ct. induction l as [|i l IH]; intros ct; simpl.
  - exists ct. split; [done|]. split; [done|]. intros p. by destruct (dget p ct).
  - rewrite getPartitionId_owner. simpl. unfold dmem.
    destruct (dget (owner numPartitions i) ct) as [v|] eqn:Hg.
    + destruct (IH ct) as (ct' & Hrun & Hnd & Hget).
      exists ct'. split; [done|]. split; [done|].
      intros p. rewrite Hget. destruct (dget p ct) eqn:Hp; [done|].
      case_decide; [congruence | done].
    + destruct (IH (dset (owner numPartitions i) (take (index i T + 1) T) ct))
        as (ct' & Hrun & Hnd & Hget).
      exists ct'. split; [done|].
      split; [intros; by apply Hnd, NoDup_dkeys_dset|].
      intros p. rewrite Hget, dget_dset.
      case_decide as Hp.
      * subst p. rewrite Hg. by rewrite decide_True.
      * destruct (dget p ct); [done|]. by rewrite decide_False.
Qed.
End projection.

Lemma take_index_snoc (r : nat) (T : list nat) :
  r ∈ T -> take (index r T + 1) T = take (index r T) T ++ [r].
Proof.
  induction T as [|x T IH]; simpl; [by intros ?%elem_of_nil|].
  intros Hin. destruct (decide (r = x)) as [->|Hne]; simpl; [by rewrite take_0|].
  f_equal. apply IH. apply elem_of_cons in Hin as [?|?]; [done | done].
Qed.

(** C2: with [T] the ranked, filtered and sorted transaction,
    [genCondTransaction] returns a dictionary with one entry per partition
    that owns a rank of [T] and no other entry; the entry of partition [p]
    is the prefix of [T] that ends with the highest rank of [T] owned by [p]. *)
Theorem genCondTransaction_spec (numPartitions : Z)
    (transaction : list string) (rank : dict string nat) :
  numPartitions <> 0 ->
  let T := newTrans_of transaction rank in
  exists ct,
    genCondTransaction numPartitions transaction rank = Ok ct
    /\ StronglySorted le T
    /\ NoDup (dkeys ct)
    /\ (forall p, p ∈ dkeys ct <-> exists r, r ∈ T /\ owner numPartitions r = p)
    /\ (forall p proj, (p, proj) ∈ ct ->
          exists r rest,
            r ∈ T /\ owner numPartitions r = p
            /\ (forall r', r' ∈ T -> owner numPartitions r' = p -> (r' <= r)%nat)
            /\ proj = take (index r T) T ++ [r]
            /\ T = proj ++ rest).
Proof.
  intros Hnp T.
  destruct (project_loop numPartitions Hnp T (reverse T) []) as (ct & Hrun & Hnd & Hget).
  specialize (Hnd (NoDup_nil_2)).
  assert (Hs : StronglySorted le T) by apply newTrans_of_sorted.
  exists ct. split; [exact Hrun|]. split; [done|]. split; [done|]. split.
  - intros p. rewrite <- dget_is_Some, Hget. simpl.
    destruct (first_owned numPartitions p (reverse T)) as [r|] eqn:Hf; simpl.
    + split; [intros _ | by eauto].
      destruct (first_owned_reverse_max _ _ _ _ Hs Hf) as (? & ? & _). eauto.
    + split; [by intros [? ?]|]. intros (r & Hr & Hown).
      exfalso. apply (proj1 (first_owned_None _ _ _) Hf r); [|done].
      by apply elem_of_reverse.
  - intros p proj Hin. apply (elem_dget _ _ _ Hnd) in Hin.
    rewrite Hget in Hin. simpl in Hin.
    destruct (first_owned numPartitions p (reverse T)) as [r|] eqn:Hf; [|done].
    injection Hin as <-.
    destruct (first_owned_reverse_max _ _ _ _ Hs Hf) as (Hr & Hown & Hmax).
    exists r, (drop (index r T + 1) T).
    split; [done|]. split; [done|]. split; [done|].
    split; [by apply take_index_snoc|]. by rewrite take_drop.
Qed.

Lemma genCondTransaction_spec_witness :
  exists ct,
    genCondTransaction 2 ["b"%string; "x"%string; "a"%string; "c"%string]
      [("a"%string, 0%nat); ("b"%string, 1%nat); ("c"%string, 2%nat)] = Ok ct
    /\ (0, [0%nat; 1%nat; 2%nat]) ∈ ct /\ (1, [0%nat; 1%nat]) ∈ ct.
Proof.
  destruct (genCondTransaction_spec 2 ["b"%string; "x"%string; "a"%string; "c"%string]
      [("a"%string, 0%nat); ("b"%string, 1%nat); ("c"%string, 2%nat)])
    as (ct & Hrun & _); [lia|].
  exists ct. split; [exact Hrun|].
  vm_compute in Hrun. injection Hrun as <-.
  split; [left | right; left].
Defined.

(** ** One step of [addTransaction] *)

Lemma step_found tx c it current t child :
  dget it (children (node_at (heap t) current)) = Some child ->
  addTransaction_step tx c it current t =
  (child,
   mkTree (<[child := add_count c (node_at (heap t) child)]> (heap t))
          (nodeLink t) (bump it c (itemCount t))).
Proof. intros H. unfold addTransaction_step. by rewrite H. Qed.

Lemma step_fresh tx c it current t :
  dget it (children (node_at (heap t) current)) = None ->
  addTransaction_step tx c it current t =
  (length (heap t),
   mkTree (<[current := set_child it (length (heap t)) (node_at (heap t) current)]>
             (heap t)
           ++ [mkNode (Some it) (0 + c) [] (take (index it tx) tx)])
          (dset it (refs_of t it ++ [length (heap t)]) (nodeLink t))
          (bump it c (itemCount t))).
Proof.
  intros H. unfold addTransaction_step. rewrite H.
  set (h1 := <[current := _]> (heap t)).
  assert (Hlen : length h1 = length (heap t)) by apply length_insert.
  assert (Hh2 : <[length (heap t) := add_count c (new_Node (Some it) (take (index it tx) tx))]>
                  (h1 ++ [new_Node (Some it) (take (index it tx) tx)])
                = h1 ++ [mkNode (Some it) (0 + c) [] (take (index it tx) tx)]).
  { rewrite <- Hlen. rewrite insert_app_r_alt by lia.
    by rewrite Nat.sub_diag. }
  rewrite Hh2. unfold addNodeToNodeLink. simpl.
  set (n := mkNode (Some it) (0 + c) [] (take (index it tx) tx)).
  assert (Hn : node_at (h1 ++ [n]) (length (heap t)) = n).
  { unfold node_at. rewrite <- Hlen, lookup_app_r by lia.
    by rewrite Nat.sub_diag. }
  rewrite Hn. simpl. unfold refs_of. by destruct (dget it (nodeLink t)).
Qed.

(** ** Heap lookups *)

Lemma node_at_insert_eq h id n :
  (id < length h)%nat -> node_at (<[id := n]> h) id = n.
Proof. intros H. unfold node_at. by rewrite list_lookup_insert_eq. Qed.

Lemma node_at_insert_ne h id id' n :
  id <> id' -> node_at (<[id := n]> h) id' = node_at h id'.
Proof. intros H. unfold node_at. by rewrite list_lookup_insert_ne. Qed.

Lemma node_at_app_l h l id :
  (id < length h)%nat -> node_at (h ++ l) id = node_at h id.
Proof. intros H. unfold node_at. by rewrite lookup_app_l. Qed.

Lemma node_at_app_len h n : node_at (h ++ [n]) (length h) = n.
Proof. unfold node_at. rewrite lookup_app_r by lia. by rewrite Nat.sub_diag. Qed.

Lemma node_at_ge h id : (length h <= id)%nat -> node_at h id = new_Node None [].
Proof. intros H. unfold node_at. by rewrite lookup_ge_None_2. Qed.

(** Adding to the count of a node leaves every other field of every node. *)
Lemma node_at_add_count h child c id :
  let h' := <[child := add_count c (node_at h child)]> h in
  item (node_at h' id) = item (node_at h id)
  /\ children (node_at h' id) = children (node_at h id)
  /\ prefix (node_at h' id) = prefix (node_at h id)
  /\ count (node_at h' id) =
     count (node_at h id)
     + (if decide (id = child /\ (child < length h)%nat) then c else 0).
Proof.
  intros h'. subst h'. destruct (decide (id = child)) as [->|Hne].
  - destruct (decide (child < length h)%nat) as [Hlt|Hge].
    + rewrite node_at_insert_eq by done. simpl.
      rewrite decide_True by done. done.
    + rewrite list_insert_ge by lia. rewrite decide_False by tauto.
      repeat split; lia.
  - rewrite node_at_insert_ne by done. rewrite decide_False by tauto.
    repeat split; lia.
Qed.

Lemma Zsum_app l1 l2 : Zsum (l1 ++ l2) = Zsum l1 + Zsum l2.
Proof. induction l1 as [|x l1 IH]; simpl; [done|]. rewrite IH. lia. Qed.

Lemma Zsum_fmap_ext {A} (f g : A -> Z) l :
  (forall x, x ∈ l -> f x = g x) -> Zsum (f <$> l) = Zsum (g <$> l).
Proof.
  induction l as [|x l IH]; csimpl; [done|]. intros H.
  rewrite (H x) by left. rewrite IH; [done|]. intros; apply H. by right.
Qed.

(** Raising one summand that occurs once raises the sum by as much. *)
Lemma Zsum_fmap_bump_one {A} `{EqDecision A} (f g : A -> Z) l a c :
  NoDup l -> a ∈ l ->
  (forall x, g x = f x + if decide (x = a) then c else 0) ->
  Zsum (g <$> l) = Zsum (f <$> l) + c.
Proof.
  intros Hnd Hin Hg. induction l as [|x l IH]; [by apply elem_of_nil in Hin|].
  apply NoDup_cons in Hnd as [Hx Hnd]. csimpl. rewrite Hg.
  apply elem_of_cons in Hin as [->|Hin].
  - rewrite decide_True by done.
    rewrite (Zsum_fmap_ext g f); [lia|].
    intros y Hy. rewrite Hg. rewrite decide_False; [lia|]. by intros ->.
  - rewrite decide_False by (by intros ->). rewrite IH by done. lia.
Qed.

(** ** [itemCount] against the sums over [nodeLink] *)

Section bump_fmap.
Variables (S S' : list nat -> Z) (it : nat) (c : Z).

Lemma fmap_sum_ext (nl : dict nat (list nat)) :
  (forall k refs, (k, refs) ∈ nl -> S' refs = S refs) ->
  (fun kv => (fst kv, S kv.2)) <$> nl = (fun kv => (fst kv, S' kv.2)) <$> nl.
Proof.
  induction nl as [|[k refs] nl IH]; csimpl; [done|]. intros H.
  rewrite (H k refs) by left. f_equal. apply IH. intros k' refs' ?; apply (H k' refs'). by right.
Qed.

Lemma bump_fmap_found (nl : dict nat (list nat)) :
  NoDup (dkeys nl) -> it ∈ dkeys nl ->
  (forall k refs, (k, refs) ∈ nl ->
                  S' refs = S refs + if decide (k = it) then c else 0) ->
  bump it c ((fun kv => (fst kv, S kv.2)) <$> nl)
  = (fun kv => (fst kv, S' kv.2)) <$> nl.
Proof.
  unfold bump. induction nl as [|[k refs] nl IH]; csimpl.
  - by intros _ ?%elem_of_nil.
  - intros [Hk Hnd]%NoDup_cons Hin H.
    destruct (decide (it = k)) as [->|Hne]; simpl.
    + rewrite (H k refs) by left. rewrite decide_True by done. f_equal.
      apply fmap_sum_ext. intros k' refs' Hin'.
      rewrite (H k' refs') by (by right).
      rewrite decide_False; [lia|]. intros ->. apply Hk.
      unfold dkeys. apply list_elem_of_fmap. by exists (k, refs').
    + rewrite (H k refs) by left. rewrite decide_False by done.
      rewrite Z.add_0_r. f_equal. apply IH; [done | | ].
      * apply elem_of_cons in Hin as [?|?]; [done | done].
      * intros k' refs' ?; apply (H k' refs'). by right.
Qed.

Lemma bump_fmap_fresh (nl : dict nat (list nat)) (child : nat) :
  (forall k refs, (k, refs) ∈ nl -> S' refs = S refs) ->
  (forall refs, S' (refs ++ [child]) = S' refs + c) ->
  S' [] = 0 ->
  bump it c ((fun kv => (fst kv, S kv.2)) <$> nl)
  = (fun kv => (fst kv, S' kv.2))
      <$> dset it (default [] (dget it nl) ++ [child]) nl.
Proof.
  intros H Happ Hnil. unfold bump.
  induction nl as [|[k refs] nl IH]; csimpl.
  - pose proof (Happ []) as H0. simpl in H0. rewrite H0, Hnil. done.
  - destruct (decide (it = k)) as [->|Hne]; csimpl.
    + rewrite Happ, (H k refs) by left. f_equal.
      apply fmap_sum_ext. intros k' refs' ?; apply (H k' refs'). by right.
    + rewrite (H k refs) by left. f_equal. apply IH. intros k' refs' ?; apply (H k' refs'). by right.
Qed.
End bump_fmap.

(** ** The invariant is kept by a step *)

Lemma wf_lookup_lt t paths id q :
  wf t paths -> paths !! id = Some q -> (id < length (heap t))%nat.
Proof. intros Hwf Hq. rewrite <- (wf_len _ _ Hwf). by eapply lookup_lt_Some. Qed.

Lemma wf_step_found t paths c it current child q :
  wf t paths ->
  paths !! current = Some q ->
  dget it (children (node_at (heap t) current)) = Some child ->
  wf (mkTree (<[child := add_count c (node_at (heap t) child)]> (heap t))
             (nodeLink t) (bump it c (itemCount t))) paths.
Proof.
  intros Hwf Hcur Hchild.
  pose proof (wf_child _ _ Hwf _ _ _ _ Hcur Hchild) as Hpath.
  pose proof (wf_lookup_lt _ _ _ _ Hwf Hpath) as Hlt.
  destruct (wf_item _ _ Hwf _ _ _ Hpath) as [Hitem _].
  pose proof (node_at_add_count (heap t) child c) as Hf. simpl in Hf.
  set (h' := <[child := add_count c (node_at (heap t) child)]> (heap t)) in *.
  assert (Hlen : length h' = length (heap t)) by apply length_insert.
  constructor; simpl; try rewrite Hlen.
  - apply Hwf.
  - apply Hwf.
  - apply Hwf.
  - intros id q' r c' Hq' Hc'. destruct (Hf id) as (_ & Hch & _).
    rewrite Hch in Hc'. eapply wf_child; eauto.
  - intros c' q' r Hq'. destruct (wf_parent _ _ Hwf _ _ _ Hq') as (id & ? & ?).
    exists id. destruct (Hf id) as (_ & -> & _). done.
  - intros id q' r Hq'. destruct (Hf id) as (-> & _ & -> & _).
    eapply wf_item; eauto.
  - apply Hwf.
  - intros r refs Hr. destruct (wf_link _ _ Hwf _ _ Hr) as [Hnd Hmem].
    split; [done|]. intros id. destruct (Hf id) as (-> & _). apply Hmem.
  - intros id r Hid. destruct (Hf id) as (-> & _). by apply (wf_link_dom _ _ Hwf).
  - rewrite (wf_count _ _ Hwf).
    apply (bump_fmap_found
             (fun refs => Zsum ((fun id => count (node_at (heap t) id)) <$> refs))
             (fun refs => Zsum ((fun id => count (node_at h' id)) <$> refs))).
    + apply Hwf.
    + by apply (wf_link_dom _ _ Hwf child).
    + intros k refs Hin.
      apply (elem_dget _ _ _ (wf_link_keys _ _ Hwf)) in Hin.
      destruct (wf_link _ _ Hwf _ _ Hin) as [Hnd Hmem].
      destruct (decide (k = it)) as [->|Hk].
      * apply (Zsum_fmap_bump_one _ _ _ child); [done | by apply Hmem |].
        intros x. destruct (Hf x) as (_ & _ & _ & ->).
        repeat case_decide; try lia; tauto.
      * rewrite Z.add_0_r. apply Zsum_fmap_ext. intros x Hx.
        destruct (Hf x) as (_ & _ & _ & ->). rewrite decide_False; [lia|].
        intros [-> _]. apply Hmem in Hx as [_ Hx]. congruence.
Qed.

(** Fields of the old nodes after a child of [current] was allocated. *)
Lemma node_at_fresh h current it n id :
  let h' := <[current := set_child it (length h) (node_at h current)]> h ++ [n] in
  (id < length h)%nat ->
  item (node_at h' id) = item (node_at h id)
  /\ count (node_at h' id) = count (node_at h id)
  /\ prefix (node_at h' id) = prefix (node_at h id)
  /\ children (node_at h' id) =
     if decide (id = current) then dset it (length h) (children (node_at h id))
     else children (node_at h id).
Proof.
  intros h' Hid. subst h'.
  rewrite node_at_app_l by (by rewrite length_insert).
  destruct (decide (id = current)) as [->|Hne].
  - rewrite node_at_insert_eq by done. done.
  - rewrite node_at_insert_ne by done. done.
Qed.

Lemma node_at_fresh_new h current it n :
  node_at (<[current := set_child it (length h) (node_at h current)]> h ++ [n])
          (length h) = n.
Proof.
  rewrite <- (length_insert h current (set_child it (length h) (node_at h current))) at 2.
  apply node_at_app_len.
Qed.

Lemma fresh_path_new t paths it current q :
  wf t paths ->
  paths !! current = Some q ->
  dget it (children (node_at (heap t) current)) = None ->
  q ++ [it] ∉ paths.
Proof.
  intros Hwf Hcur Hnone Hin.
  apply list_elem_of_lookup in Hin as [c0 Hc0].
  destruct (wf_parent _ _ Hwf _ _ _ Hc0) as (id & Hid & Hch).
  assert (id = current) as ->.
  { eapply NoDup_lookup; [apply (wf_nodup _ _ Hwf) | exact Hid | exact Hcur]. }
  congruence.
Qed.

Lemma lookup_snoc_inv {A} (l : list A) (x y : A) (i : nat) :
  (l ++ [x]) !! i = Some y ->
  ((i < length l)%nat /\ l !! i = Some y) \/ (i = length l /\ y = x).
Proof.
  intros H. destruct (decide (i < length l)%nat) as [Hlt|Hge].
  - left. split; [done|]. by rewrite lookup_app_l in H.
  - right. rewrite lookup_app_r in H by lia.
    destruct (i - length l)%nat as [|k] eqn:E; simpl in H.
    + split; [lia | congruence].
    + by rewrite lookup_nil in H.
Qed.

Lemma wf_step_fresh t paths tx c it current q :
  wf t paths ->
  paths !! current = Some q ->
  dget it (children (node_at (heap t) current)) = None ->
  stored_prefix (q ++ [it]) = take (index it tx) tx ->
  wf (mkTree
        (<[current := set_child it (length (heap t)) (node_at (heap t) current)]>
           (heap t)
         ++ [mkNode (Some it) (0 + c) [] (take (index it tx) tx)])
        (dset it (refs_of t it ++ [length (heap t)]) (nodeLink t))
        (bump it c (itemCount t)))
     (paths ++ [q ++ [it]]).
Proof.
  intros Hwf Hcur Hnone Hpre.
  pose proof (wf_lookup_lt _ _ _ _ Hwf Hcur) as Hcur_lt.
  pose proof (wf_len _ _ Hwf) as Hlen.
  set (n := mkNode (Some it) (0 + c) [] (take (index it tx) tx)).
  pose proof (node_at_fresh (heap t) current it n) as Hold. simpl in Hold.
  pose proof (node_at_fresh_new (heap t) current it n) as Hnew.
  set (h' := <[current := _]> (heap t) ++ [n]) in *.
  assert (Hlen' : length h' = S (length (heap t))).
  { unfold h'. rewrite length_app, length_insert. simpl. lia. }
  constructor; simpl; try rewrite Hlen'.
  - rewrite length_app. simpl. lia.
  - rewrite lookup_app_l by lia. apply Hwf.
  - apply NoDup_app. split; [apply Hwf|]. split; [|apply NoDup_singleton].
    intros x Hx ->%list_elem_of_singleton.
    by eapply fresh_path_new.
  - intros id q' r c' Hq' Hc'.
    apply lookup_snoc_inv in Hq' as [[Hid Hq']|[-> ->]].
    + rewrite Hlen in Hid. destruct (Hold id Hid) as (_ & _ & _ & Hch).
      rewrite Hch in Hc'. destruct (decide (id = current)) as [->|Hne].
      * assert (q' = q) as -> by congruence.
        rewrite dget_dset in Hc'. case_decide as Hr.
        -- subst r. injection Hc' as <-. rewrite <- Hlen.
           rewrite lookup_app_r by lia. by rewrite Nat.sub_diag.
        -- pose proof (wf_child _ _ Hwf _ _ _ _ Hcur Hc') as Hp.
           rewrite lookup_app_l; [done|]. by eapply lookup_lt_Some.
      * pose proof (wf_child _ _ Hwf _ _ _ _ Hq' Hc') as Hp.
        rewrite lookup_app_l; [done|]. by eapply lookup_lt_Some.
    + rewrite Hlen, Hnew in Hc'. done.
  - intros c' q' r Hq'.
    apply lookup_snoc_inv in Hq' as [[Hid Hq']|[-> Heq]].
    + destruct (wf_parent _ _ Hwf _ _ _ Hq') as (id & Hidq & Hch).
      exists id. split.
      * rewrite lookup_app_l; [done|]. by eapply lookup_lt_Some.
      * destruct (Hold id (wf_lookup_lt _ _ _ _ Hwf Hidq)) as (_ & _ & _ & ->).
        case_decide as Hid'; [|done]. subst id.
        rewrite dget_dset_ne; [done|]. intros ->. congruence.
    + apply app_inj_tail in Heq as [-> ->]. exists current. split.
      * rewrite lookup_app_l; [done|]. lia.
      * destruct (Hold current Hcur_lt) as (_ & _ & _ & ->).
        rewrite decide_True by done. rewrite Hlen. apply dget_dset_eq.
  - intros id q' r Hq'.
    apply lookup_snoc_inv in Hq' as [[Hid Hq']|[-> Heq]].
    + rewrite Hlen in Hid. destruct (Hold id Hid) as (-> & _ & -> & _).
      eapply wf_item; eauto.
    + apply app_inj_tail in Heq as [-> ->]. rewrite Hlen, Hnew. simpl.
      split; [done|]. by rewrite Hpre.
  - apply NoDup_dkeys_dset, Hwf.
  - intros r refs Hr. rewrite dget_dset in Hr. unfold refs_of in Hr.
    destruct (decide (r = it)) as [->|Hne].
    + injection Hr as <-.
      assert (Hrefs : NoDup (default [] (dget it (nodeLink t))) /\
                (forall id, id ∈ default [] (dget it (nodeLink t)) ->
                   (id < length (heap t))%nat /\ item (node_at (heap t) id) = Some it) /\
                (forall id, (id < length (heap t))%nat ->
                   item (node_at (heap t) id) = Some it ->
                   id ∈ default [] (dget it (nodeLink t)))).
      { destruct (dget it (nodeLink t)) as [refs|] eqn:Hg; simpl.
        - destruct (wf_link _ _ Hwf _ _ Hg) as [Hnd Hmem].
          split; [done|]. split; intros id; [apply Hmem | intros; by apply Hmem].
        - split; [apply NoDup_nil_2|]. split; [by intros id ?%elem_of_nil|].
          intros id Hid Hit. apply (wf_link_dom _ _ Hwf) in Hit; [|done].
          apply dget_None in Hg. done. }
      destruct Hrefs as (Hnd & Hmem1 & Hmem2). split.
      * apply NoDup_app. split; [done|]. split; [|apply NoDup_singleton].
        intros x Hx ->%list_elem_of_singleton. apply Hmem1 in Hx. lia.
      * intros id. rewrite elem_of_app, list_elem_of_singleton. split.
        -- intros [Hid| ->].
           ++ apply Hmem1 in Hid as [Hid Hit].
              destruct (Hold id Hid) as (-> & _). split; [lia | done].
           ++ rewrite Hnew. split; [lia | done].
        -- intros [Hid Hit]. destruct (decide (id = length (heap t))) as [->|Hne]; [by right|].
           left. assert (Hid' : (id < length (heap t))%nat) by lia.
           destruct (Hold id Hid') as (Hi & _). rewrite Hi in Hit. by apply Hmem2.
    + destruct (wf_link _ _ Hwf _ _ Hr) as [Hnd Hmem]. split; [done|].
      intros id. rewrite Hmem. split.
      * intros [Hid Hit]. destruct (Hold id Hid) as (-> & _). split; [lia | done].
      * intros [Hid Hit]. destruct (decide (id = length (heap t))) as [->|Hne'].
        -- rewrite Hnew in Hit. simpl in Hit. congruence.
        -- assert (Hid' : (id < length (heap t))%nat) by lia.
           destruct (Hold id Hid') as (Hi & _). rewrite Hi in Hit. done.
  - intros id r Hid Hit. apply dget_is_Some. rewrite dget_dset.
    case_decide; [done|]. apply dget_is_Some.
    destruct (decide (id = length (heap t))) as [->|Hne'].
    + rewrite Hnew in Hit. simpl in Hit. congruence.
    + assert (Hid' : (id < length (heap t))%nat) by lia.
      destruct (Hold id Hid') as (Hi & _). rewrite Hi in Hit.
      by apply (wf_link_dom _ _ Hwf id).
  - rewrite (wf_count _ _ Hwf). unfold refs_of.
    apply (bump_fmap_fresh
             (fun refs => Zsum ((fun id => count (node_at (heap t) id)) <$> refs))
             (fun refs => Zsum ((fun id => count (node_at h' id)) <$> refs))).
    + intros k refs Hin.
      apply (elem_dget _ _ _ (wf_link_keys _ _ Hwf)) in Hin.
      destruct (wf_link _ _ Hwf _ _ Hin) as [_ Hmem].
      apply Zsum_fmap_ext. intros x [Hx _]%Hmem.
      by destruct (Hold x Hx) as (_ & -> & _).
    + intros refs. rewrite fmap_app, Zsum_app. simpl. rewrite Hnew. simpl. lia.
    + done.
Qed.

(** ** Induction over the loop of [addTransaction] *)

Lemma index_app_l (x : nat) l1 l2 : x ∈ l1 -> index x (l1 ++ l2) = index x l1.
Proof.
  induction l1 as [|y l1 IH]; simpl; [by intros ?%elem_of_nil|].
  intros Hin. case_decide; [done|]. f_equal. apply IH.
  apply elem_of_cons in Hin as [?|?]; [done | done].
Qed.

Lemma index_le_length (x : nat) l : (index x l <= length l)%nat.
Proof. induction l as [|y l IH]; simpl; [lia|]. case_decide; lia. Qed.

Lemma index_lt_length (x : nat) l : x ∈ l -> (index x l < length l)%nat.
Proof.
  induction l as [|y l IH]; simpl; [by intros ?%elem_of_nil|].
  intros Hin. case_decide; [lia|].
  apply elem_of_cons in Hin as [?|?]; [done|]. apply IH in H0. lia.
Qed.

Lemma lookup_index (x : nat) l : x ∈ l -> l !! index x l = Some x.
Proof.
  induction l as [|y l IH]; simpl; [by intros ?%elem_of_nil|].
  intros Hin. case_decide; [by subst|]. apply IH.
  apply elem_of_cons in Hin as [?|?]; [done | done].
Qed.

Lemma stored_prefix_take tx k it :
  tx !! k = Some it ->
  stored_prefix (take k tx ++ [it]) = take (index it tx) tx.
Proof.
  intros Hk. unfold stored_prefix. rewrite last_snoc.
  rewrite <- (take_S_r _ _ _ Hk).
  assert (Hin : it ∈ take (S k) tx).
  { rewrite (take_S_r _ _ _ Hk). apply elem_of_app. right. left. }
  rewrite <- (take_drop (S k) tx) at 3 4.
  rewrite (index_app_l _ _ _ Hin).
  rewrite take_app_le by apply index_le_length. done.
Qed.

Section loop_ind.
Variables (tx : list nat) (c : Z).
Variable P : nat -> nat -> Tree -> list (list nat) -> Prop.

Hypothesis P_found : forall k current t paths it child,
  P k current t paths -> wf t paths ->
  paths !! current = Some (take k tx) -> tx !! k = Some it ->
  dget it (children (node_at (heap t) current)) = Some child ->
  paths !! child = Some (take (S k) tx) ->
  P (S k) child (raise_child c it child t) paths.

Hypothesis P_fresh : forall k current t paths it,
  P k current t paths -> wf t paths ->
  paths !! current = Some (take k tx) -> tx !! k = Some it ->
  dget it (children (node_at (heap t) current)) = None ->
  take (S k) tx ∉ paths ->
  P (S k) (length (heap t)) (alloc_child tx c it current t)
    (paths ++ [take (S k) tx]).

Lemma addTransaction_loop_ind items k current t paths :
  (k <= length tx)%nat -> tx = take k tx ++ items ->
  wf t paths -> paths !! current = Some (take k tx) -> P k current t paths ->
  exists current' paths',
    wf (addTransaction_loop tx c items current t) paths'
    /\ paths' !! current' = Some tx
    /\ P (length tx) current' (addTransaction_loop tx c items current t) paths'.
Proof.
  revert k current t paths.
  induction items as [|it items IH]; intros k current t paths Hk Htx Hwf Hcur HP.
  - simpl. rewrite app_nil_r in Htx.
    assert (k = length tx) as ->.
    { apply (f_equal length) in Htx. rewrite length_take in Htx. lia. }
    exists current, paths. split; [done|]. split; [congruence | done].
  - assert (Hit : tx !! k = Some it).
    { rewrite Htx at 1. rewrite lookup_app_r by (rewrite length_take; lia).
      rewrite length_take. by replace (k - k `min` length tx)%nat with 0%nat by lia. }
    assert (HSk : (S k <= length tx)%nat) by (apply lookup_lt_Some in Hit; lia).
    assert (Htx' : tx = take (S k) tx ++ items).
    { rewrite (take_S_r _ _ _ Hit), <- app_assoc. exact Htx. }
    simpl.
    destruct (dget it (children (node_at (heap t) current))) as [child|] eqn:Hch.
    + rewrite (step_found _ _ _ _ _ _ Hch).
      pose proof (wf_child _ _ Hwf _ _ _ _ Hcur Hch) as Hp.
      rewrite <- (take_S_r _ _ _ Hit) in Hp.
      apply (IH (S k) child _ paths); [done | done | | done | ].
      * by apply (wf_step_found t paths c it current child (take k tx)).
      * by apply (P_found k current t paths it child).
    + rewrite (step_fresh _ _ _ _ _ Hch).
      pose proof (fresh_path_new _ _ _ _ _ Hwf Hcur Hch) as Hnew.
      rewrite <- (take_S_r _ _ _ Hit) in Hnew.
      apply (IH (S k) _ _ (paths ++ [take (S k) tx])); [done | done | | | ].
      * rewrite (take_S_r _ _ _ Hit).
        apply wf_step_fresh; [done | done | done |].
        by apply stored_prefix_take.
      * rewrite <- (wf_len _ _ Hwf), lookup_app_r by lia.
        by rewrite Nat.sub_diag.
      * by apply (P_fresh k current t paths it).
Qed.

Lemma addTransaction_ind t paths :
  wf t paths -> P 0 0 t paths ->
  exists current' paths',
    wf (addTransaction tx c t) paths'
    /\ paths' !! current' = Some tx
    /\ P (length tx) current' (addTransaction tx c t) paths'.
Proof.
  intros Hwf HP. apply (addTransaction_loop_ind tx 0 0%nat t paths); try done.
  - lia.
  - apply Hwf.
Qed.
End loop_ind.

(** ** Trees built by insertions *)

Lemma wf_new_Tree : wf new_Tree [[]].
Proof.
  constructor; simpl; try done.
  - apply NoDup_singleton.
  - intros [|id] q r c Hq Hc; [done|]. by rewrite node_at_ge in Hc by (simpl; lia).
  - intros [|c] q r Hq; simpl in Hq; [|done].
    injection Hq as Hq. by destruct q.
  - intros [|id] q r Hq; simpl in Hq; [|done].
    injection Hq as Hq. by destruct q.
  - apply NoDup_nil_2.
  - intros [|id] r Hid; [done | lia].
Qed.

Lemma walk_app h cur p1 p2 :
  walk h cur (p1 ++ p2) =
  match walk h cur p1 with Some c => walk h c p2 | None => None end.
Proof.
  revert cur. induction p1 as [|r p1 IH]; intros cur; simpl; [done|].
  destruct (dget r (children (node_at h cur))); [apply IH | done].
Qed.

Lemma walk_paths_1 t paths cur q p id :
  wf t paths -> paths !! cur = Some q ->
  walk (heap t) cur p = Some id -> paths !! id = Some (q ++ p).
Proof.
  intros Hwf. revert cur q. induction p as [|r p IH]; intros cur q Hq; simpl.
  - intros [= <-]. by rewrite app_nil_r.
  - destruct (dget r (children (node_at (heap t) cur))) as [c|] eqn:Hc; [|done].
    intros Hw. replace (q ++ r :: p) with ((q ++ [r]) ++ p)
      by (by rewrite <- app_assoc).
    apply (IH c); [|done]. eapply wf_child; eauto.
Qed.

Lemma walk_paths_2 t paths p id :
  wf t paths -> paths !! id = Some p -> walk (heap t) 0 p = Some id.
Proof.
  intros Hwf. revert id. induction p as [|r p IH] using rev_ind; intros id Hp.
  - simpl. f_equal.
    eapply NoDup_lookup; [apply (wf_nodup _ _ Hwf) | apply (wf_root _ _ Hwf) | done].
  - destruct (wf_parent _ _ Hwf _ _ _ Hp) as (par & Hpar & Hch).
    rewrite walk_app, (IH par Hpar). simpl. by rewrite Hch.
Qed.

(** Following children from the root reaches exactly the node whose ghost
    path is the one followed. *)
Lemma walk_paths t paths p id :
  wf t paths -> walk (heap t) 0 p = Some id <-> paths !! id = Some p.
Proof.
  intros Hwf. split.
  - intros Hw. apply (walk_paths_1 t paths 0%nat [] p id Hwf); [apply Hwf | done].
  - by apply walk_paths_2.
Qed.

(** ** Effect of [addTransaction] on the nodes *)

Lemma on_path_length tx p : on_path tx p -> (length p <= length tx)%nat.
Proof.
  intros [_ H]. apply (f_equal length) in H. rewrite length_take in H. lia.
Qed.

Lemma on_path_take tx k :
  (k < length tx)%nat -> on_path tx (take (S k) tx).
Proof.
  intros Hk. split.
  - destruct tx; [simpl in Hk; lia | done].
  - rewrite length_take. by replace (S k `min` length tx)%nat with (S k) by lia.
Qed.

Lemma on_path_S tx k p :
  (k < length tx)%nat ->
  on_path tx p /\ (length p <= S k)%nat <->
  (on_path tx p /\ (length p <= k)%nat) \/ p = take (S k) tx.
Proof.
  intros Hk. split.
  - intros [Hp Hlen]. destruct (decide (length p = S k)) as [E|NE].
    + right. destruct Hp as [_ Hp]. by rewrite <- E.
    + left. split; [done | lia].
  - intros [[Hp Hlen]| ->].
    + split; [done | lia].
    + split; [by apply on_path_take|]. rewrite length_take. lia.
Qed.

Lemma path_effect_0 tx c t0 paths0 :
  wf t0 paths0 -> path_effect tx c t0 paths0 0 t0 paths0.
Proof.
  intros Hwf. split; [by exists []; rewrite app_nil_r|]. split; [|split].
  - intros p. split; [by left|]. intros [?|[[Hne _] Hlen]]; [done|].
    destruct p; [done | simpl in Hlen; lia].
  - intros id p _. rewrite decide_False; [lia|].
    intros [[Hne _] Hlen]. destruct p; [done | simpl in Hlen; lia].
  - done.
Qed.

Section path_effect.
Variables (tx : list nat) (c : Z) (t0 : Tree) (paths0 : list (list nat)).
Hypothesis wf0 : wf t0 paths0.

Lemma path_effect_found k current t paths it child :
  path_effect tx c t0 paths0 k t paths -> wf t paths ->
  paths !! current = Some (take k tx) -> tx !! k = Some it ->
  dget it (children (node_at (heap t) current)) = Some child ->
  paths !! child = Some (take (S k) tx) ->
  path_effect tx c t0 paths0 (S k) (raise_child c it child t) paths.
Proof.
  intros (Hext & Hmem & Hcnt & Hfld) Hwf Hcur Hit Hch Hchild.
  assert (Hk : (k < length tx)%nat) by (by eapply lookup_lt_Some).
  pose proof (wf_lookup_lt _ _ _ _ Hwf Hchild) as Hlt.
  split; [done|]. split; [|split].
  - intros p. rewrite Hmem. split.
    + intros [?|[? ?]]; [by left | right; split; [done | lia]].
    + intros [?|HS]; [by left|].
      apply (proj1 (on_path_S tx k p Hk)) in HS as [?| ->]; [by right|].
      apply Hmem. by eapply list_elem_of_lookup_2.
  - intros id p Hp. simpl.
    destruct (node_at_add_count (heap t) child c id) as (_ & _ & _ & ->).
    rewrite (Hcnt id p Hp).
    destruct (decide (id = child)) as [->|Hne].
    + assert (p = take (S k) tx) as -> by congruence.
      rewrite (decide_False (P := _ /\ (_ <= k)%nat)).
      2:{ intros [_ Hl]. rewrite length_take in Hl. lia. }
      rewrite (decide_True (P := child = child /\ _)) by done.
      rewrite decide_True; [lia|].
      split; [by apply on_path_take | rewrite length_take; lia].
    + rewrite (decide_False (P := id = child /\ _)) by tauto.
      assert (Hp' : p <> take (S k) tx).
      { intros ->. apply Hne.
        eapply NoDup_lookup; [apply (wf_nodup _ _ Hwf) | done | done]. }
      destruct (decide (on_path tx p /\ (length p <= k)%nat)) as [H1|H1].
      * rewrite decide_True; [lia|]. apply on_path_S; [done | by left].
      * rewrite decide_False; [lia|].
        intros [?|?]%(proj1 (on_path_S tx k p Hk)); done.
  - intros id Hid. simpl.
    destruct (node_at_add_count (heap t) child c id) as (-> & _ & -> & _).
    by apply Hfld.
Qed.

Lemma path_effect_fresh k current t paths it :
  path_effect tx c t0 paths0 k t paths -> wf t paths ->
  paths !! current = Some (take k tx) -> tx !! k = Some it ->
  dget it (children (node_at (heap t) current)) = None ->
  take (S k) tx ∉ paths ->
  path_effect tx c t0 paths0 (S k) (alloc_child tx c it current t)
    (paths ++ [take (S k) tx]).
Proof.
  intros (Hext & Hmem & Hcnt & Hfld) Hwf Hcur Hit Hch Hnew.
  assert (Hk : (k < length tx)%nat) by (by eapply lookup_lt_Some).
  pose proof (wf_len _ _ Hwf) as Hlen. pose proof (wf_len _ _ wf0) as Hlen0.
  assert (Hle : (length (heap t0) <= length (heap t))%nat).
  { destruct Hext as [ext ->]. rewrite <- Hlen, <- Hlen0, length_app. lia. }
  set (n := mkNode (Some it) (0 + c) [] (take (index it tx) tx)).
  pose proof (node_at_fresh (heap t) current it n) as Hold. simpl in Hold.
  pose proof (node_at_fresh_new (heap t) current it n) as Hnode.
  split; [|split; [|split]].
  - destruct Hext as [ext ->]. exists (ext ++ [take (S k) tx]). by rewrite app_assoc.
  - intros p. rewrite elem_of_app, list_elem_of_singleton, Hmem.
    rewrite (on_path_S tx k p Hk). tauto.
  - intros id p Hp. unfold alloc_child. cbn [heap]. fold n.
    apply lookup_snoc_inv in Hp as [[Hid Hp]|[-> ->]].
    + rewrite Hlen in Hid. destruct (Hold id Hid) as (_ & -> & _).
      rewrite (Hcnt id p Hp).
      assert (Hp' : p <> take (S k) tx).
      { intros ->. apply Hnew. by eapply list_elem_of_lookup_2. }
      destruct (decide (on_path tx p /\ (length p <= k)%nat)) as [H1|H1].
      * rewrite decide_True; [lia|]. apply on_path_S; [done | by left].
      * rewrite decide_False; [lia|].
        intros [?|?]%(proj1 (on_path_S tx k p Hk)); done.
    + rewrite Hlen, Hnode. simpl.
      rewrite node_at_ge by lia. simpl.
      rewrite decide_True; [done|]. apply on_path_S; [done | by right].
  - intros id Hid. unfold alloc_child. cbn [heap]. fold n.
    assert (Hid' : (id < length (heap t))%nat) by lia.
    destruct (Hold id Hid') as (-> & _ & -> & _). by apply Hfld.
Qed.

Lemma addTransaction_path_effect :
  exists paths',
    wf (addTransaction tx c t0) paths'
    /\ path_effect tx c t0 paths0 (length tx) (addTransaction tx c t0) paths'.
Proof.
  destruct (addTransaction_ind tx c (fun k _ => path_effect tx c t0 paths0 k)
              path_effect_found path_effect_fresh t0 paths0 wf0
              (path_effect_0 tx c t0 paths0 wf0))
    as (cur & paths' & Hwf & _ & HP).
  by exists paths'.
Qed.
End path_effect.

(** ** Effect of [addTransaction] on [itemCount] *)

Lemma itemCount_step tx c it current t :
  itemCount (snd (addTransaction_step tx c it current t)) = bump it c (itemCount t).
Proof.
  destruct (dget it (children (node_at (heap t) current))) as [child|] eqn:Hch.
  - by rewrite (step_found _ _ _ _ _ _ Hch).
  - by rewrite (step_fresh _ _ _ _ _ Hch).
Qed.

Lemma itemCount_loop tx c items current t :
  itemCount (addTransaction_loop tx c items current t)
  = foldl (fun ic it => bump it c ic) (itemCount t) items.
Proof.
  revert current t. induction items as [|it items IH]; intros current t; simpl; [done|].
  pose proof (itemCount_step tx c it current t) as Hs.
  destruct (addTransaction_step tx c it current t) as [child t'].
  simpl in Hs. by rewrite IH, Hs.
Qed.

Lemma itemCount_addTransaction tx c t :
  itemCount (addTransaction tx c t)
  = foldl (fun ic it => bump it c ic) (itemCount t) tx.
Proof. apply itemCount_loop. Qed.

Lemma dget_bump (ic : dict nat Z) it c r :
  dget r (bump it c ic)
  = if decide (r = it) then Some (default 0 (dget r ic) + c) else dget r ic.
Proof. unfold bump. rewrite dget_dset. by case_decide; subst. Qed.

Lemma occ_nil r : occ r [] = 0.
Proof. done. Qed.

Lemma occ_cons r x l : occ r (x :: l) = (if decide (x = r) then 1 else 0) + occ r l.
Proof.
  unfold occ. rewrite filter_cons. case_decide; simpl; lia.
Qed.

Lemma occ_app r l1 l2 : occ r (l1 ++ l2) = occ r l1 + occ r l2.
Proof. unfold occ. rewrite filter_app, length_app. lia. Qed.

Lemma occ_nonneg r l : 0 <= occ r l.
Proof. unfold occ. lia. Qed.

Lemma occ_pos r l : r ∈ l <-> 0 < occ r l.
Proof.
  induction l as [|x l IH].
  - rewrite occ_nil. split; [by intros ?%elem_of_nil | lia].
  - rewrite occ_cons, elem_of_cons, IH. pose proof (occ_nonneg r l).
    case_decide as E.
    + split; [intros; lia | intros; by left].
    + split; [intros [->|?]; [done | lia] | intros; right; lia].
Qed.

Lemma occ_NoDup r l : NoDup l -> r ∈ l -> occ r l = 1.
Proof.
  induction 1 as [|x l Hx Hnd IH]; [by intros ?%elem_of_nil|].
  rewrite occ_cons. intros [->|Hin]%elem_of_cons.
  - rewrite decide_True by done.
    destruct (decide (0 < occ x l)) as [H|H]; [by apply occ_pos in H|].
    pose proof (occ_nonneg x l). lia.
  - rewrite decide_False by (by intros ->). rewrite IH by done. lia.
Qed.

Lemma dget_foldl_bump (ic : dict nat Z) c items r :
  dget r (foldl (fun ic it => bump it c ic) ic items)
  = if decide (r ∈ items) then Some (default 0 (dget r ic) + c * occ r items)
    else dget r ic.
Proof.
  revert ic. induction items as [|it items IH]; intros ic; cbn [foldl].
  - rewrite decide_False; [done | apply not_elem_of_nil].
  - rewrite IH, dget_bump, occ_cons.
    destruct (decide (r = it)) as [->|Hne].
    + rewrite (decide_True (P := it ∈ it :: items)) by left.
      rewrite (decide_True (P := it = it)) by done. simpl.
      case_decide as Hin; f_equal; [ring|].
      destruct (decide (0 < occ it items)) as [H|H]; [by apply occ_pos in H|].
      pose proof (occ_nonneg it items).
      replace (occ it items) with 0 by lia. ring.
    + rewrite (decide_False (P := it = r)) by done.
      case_decide as Hin.
      * rewrite decide_True by (by right). f_equal; ring.
      * rewrite decide_False; [done|]. by intros [?|?]%elem_of_cons.
Qed.

(** ** Effect of [addTransaction] on the sums over [nodeLink] *)

Lemma refs_of_lt t paths r id :
  wf t paths -> id ∈ refs_of t r ->
  (id < length (heap t))%nat /\ item (node_at (heap t) id) = Some r.
Proof.
  intros Hwf. unfold refs_of.
  destruct (dget r (nodeLink t)) as [refs|] eqn:Hr; simpl.
  - intros Hin. by apply (wf_link _ _ Hwf _ _ Hr).
  - by intros ?%elem_of_nil.
Qed.

Lemma refs_of_NoDup t paths r : wf t paths -> NoDup (refs_of t r).
Proof.
  intros Hwf. unfold refs_of.
  destruct (dget r (nodeLink t)) as [refs|] eqn:Hr; simpl.
  - by apply (wf_link _ _ Hwf _ _ Hr).
  - apply NoDup_nil_2.
Qed.

Lemma refs_of_elem t paths r id :
  wf t paths -> (id < length (heap t))%nat ->
  item (node_at (heap t) id) = Some r -> id ∈ refs_of t r.
Proof.
  intros Hwf Hid Hit. unfold refs_of.
  pose proof (wf_link_dom _ _ Hwf _ _ Hid Hit) as Hdom.
  apply dget_is_Some in Hdom as [refs Hr]. rewrite Hr. simpl.
  by apply (wf_link _ _ Hwf _ _ Hr).
Qed.

Lemma link_sum_raise t paths c it child q f r :
  wf t paths -> paths !! child = Some (q ++ [it]) ->
  link_sum f (raise_child c it child t) r
  = link_sum f t r
    + (if decide (r = it) then f (prefix (node_at (heap t) child)) * c else 0).
Proof.
  intros Hwf Hchild.
  pose proof (wf_lookup_lt _ _ _ _ Hwf Hchild) as Hlt.
  destruct (wf_item _ _ Hwf _ _ _ Hchild) as [Hitem _].
  pose proof (node_at_add_count (heap t) child c) as Hf. simpl in Hf.
  unfold link_sum. change (refs_of (raise_child c it child t) r) with (refs_of t r).
  unfold raise_child. cbn [heap].
  destruct (decide (r = it)) as [->|Hne].
  - apply (Zsum_fmap_bump_one _ _ _ child).
    + by eapply refs_of_NoDup.
    + by eapply refs_of_elem.
    + intros x. destruct (Hf x) as (_ & _ & -> & ->).
      destruct (decide (x = child)) as [->|Hx].
      * rewrite decide_True by done. ring.
      * rewrite decide_False by tauto. ring.
  - rewrite Z.add_0_r. apply Zsum_fmap_ext. intros x Hx.
    destruct (Hf x) as (_ & _ & -> & ->).
    rewrite decide_False; [ring|]. intros [-> _].
    apply (refs_of_lt _ _ _ _ Hwf) in Hx as [_ Hx]. congruence.
Qed.

Lemma refs_of_alloc t tx c it current r :
  refs_of (alloc_child tx c it current t) r
  = if decide (r = it) then refs_of t it ++ [length (heap t)] else refs_of t r.
Proof.
  unfold refs_of at 1. unfold alloc_child. cbn [nodeLink].
  rewrite dget_dset. by case_decide.
Qed.

Lemma link_sum_alloc t paths tx c it current f r :
  wf t paths -> (current < length (heap t))%nat ->
  link_sum f (alloc_child tx c it current t) r
  = link_sum f t r
    + (if decide (r = it) then f (take (index it tx) tx) * c else 0).
Proof.
  intros Hwf Hcur.
  set (n := mkNode (Some it) (0 + c) [] (take (index it tx) tx)).
  pose proof (node_at_fresh (heap t) current it n) as Hold. simpl in Hold.
  pose proof (node_at_fresh_new (heap t) current it n) as Hnew.
  unfold link_sum. rewrite refs_of_alloc.
  unfold alloc_child. cbn [heap]. fold n.
  assert (Hext : forall r',
    Zsum ((fun id =>
             f (prefix (node_at (<[current := set_child it (length (heap t))
                                            (node_at (heap t) current)]> (heap t) ++ [n]) id))
             * count (node_at (<[current := set_child it (length (heap t))
                                            (node_at (heap t) current)]> (heap t) ++ [n]) id))
            <$> refs_of t r')
    = Zsum ((fun id => f (prefix (node_at (heap t) id)) * count (node_at (heap t) id))
              <$> refs_of t r')).
  { intros r'. apply Zsum_fmap_ext. intros x Hx.
    apply (refs_of_lt _ _ _ _ Hwf) in Hx as [Hx _].
    by destruct (Hold x Hx) as (_ & -> & -> & _). }
  destruct (decide (r = it)) as [->|Hne].
  - rewrite fmap_app, Zsum_app, Hext. simpl. rewrite Hnew. simpl. ring.
  - rewrite Hext. ring.
Qed.

Section link_sum_effect.
Variables (tx : list nat) (c : Z) (t0 : Tree).

Let link_effect (k : nat) (_ : nat) (t' : Tree) (_ : list (list nat)) : Prop :=
  forall f r,
    link_sum f t' r
    = link_sum f t0 r + c * f (take (index r tx) tx) * occ r (take k tx).

Lemma occ_take_S k it r :
  tx !! k = Some it ->
  occ r (take (S k) tx) = occ r (take k tx) + if decide (r = it) then 1 else 0.
Proof.
  intros Hit. rewrite (take_S_r _ _ _ Hit), occ_app, occ_cons, occ_nil.
  repeat case_decide; subst; try done; lia.
Qed.

Lemma link_effect_found k current t paths it child :
  link_effect k current t paths -> wf t paths ->
  paths !! current = Some (take k tx) -> tx !! k = Some it ->
  dget it (children (node_at (heap t) current)) = Some child ->
  paths !! child = Some (take (S k) tx) ->
  link_effect (S k) child (raise_child c it child t) paths.
Proof.
  intros HP Hwf Hcur Hit Hch Hchild f r.
  rewrite (take_S_r _ _ _ Hit) in Hchild.
  rewrite (link_sum_raise t paths c it child (take k tx) f r Hwf Hchild).
  destruct (wf_item _ _ Hwf _ _ _ Hchild) as [_ ->].
  rewrite (stored_prefix_take _ _ _ Hit), HP, (occ_take_S k it r Hit).
  case_decide; subst; ring.
Qed.

Lemma link_effect_fresh k current t paths it :
  link_effect k current t paths -> wf t paths ->
  paths !! current = Some (take k tx) -> tx !! k = Some it ->
  dget it (children (node_at (heap t) current)) = None ->
  take (S k) tx ∉ paths ->
  link_effect (S k) (length (heap t)) (alloc_child tx c it current t)
    (paths ++ [take (S k) tx]).
Proof.
  intros HP Hwf Hcur Hit Hch Hnew f r.
  rewrite (link_sum_alloc t paths tx c it current f r Hwf
             (wf_lookup_lt _ _ _ _ Hwf Hcur)).
  rewrite HP, (occ_take_S k it r Hit).
  case_decide; subst; ring.
Qed.
End link_sum_effect.

Lemma link_sum_addTransaction t paths tx c f r :
  wf t paths ->
  link_sum f (addTransaction tx c t) r
  = link_sum f t r + c * f (take (index r tx) tx) * occ r tx.
Proof.
  intros Hwf.
  destruct (addTransaction_ind tx c _
              (link_effect_found tx c t) (link_effect_fresh tx c t) t paths Hwf)
    as (cur & paths' & _ & _ & HP).
  - intros f' r'. rewrite take_0, occ_nil. ring.
  - rewrite (HP f r), firstn_all. done.
Qed.

Lemma wf_addTransaction t paths tx c :
  wf t paths -> exists paths', wf (addTransaction tx c t) paths'.
Proof.
  intros Hwf. destruct (addTransaction_path_effect tx c t paths Hwf) as (p' & ? & _).
  by exists p'.
Qed.

Lemma wf_insert_all l t paths :
  wf t paths -> exists paths', wf (insert_all l t) paths'.
Proof.
  revert t paths. induction l as [|[tx c] l IH]; intros t paths Hwf; simpl.
  - by exists paths.
  - destruct (wf_addTransaction t paths tx c Hwf) as [p' Hwf']. by apply (IH _ p').
Qed.

(** ** [itemCount], [nodeLink] and the totals computed by the miner *)

Lemma dget_fmap_snd {A B} (g : A -> B) (d : dict nat A) r :
  dget r ((fun kv => (fst kv, g (snd kv))) <$> d) = g <$> dget r d.
Proof.
  induction d as [|[k v] d IH]; csimpl; [done|]. by case_decide.
Qed.

Lemma dkeys_fmap_snd {A B} (g : A -> B) (d : dict nat A) :
  dkeys ((fun kv => (fst kv, g (snd kv))) <$> d) = dkeys d.
Proof. unfold dkeys. rewrite <- list_fmap_compose. done. Qed.

Lemma dset_fresh {K V} `{EqDecision K} (d : dict K V) k v :
  k ∉ dkeys d -> dset k v d = d ++ [(k, v)].
Proof.
  induction d as [|[k0 v0] d IH]; csimpl; [done|].
  intros [Hne Hk]%not_elem_of_cons. rewrite decide_False by done.
  f_equal. by apply IH.
Qed.

Lemma foldl_dset_fresh {A B} (g : A -> B) (d : dict nat A) (acc : dict nat B) :
  NoDup (dkeys acc ++ dkeys d) ->
  foldl (fun fi kv => dset (fst kv) (g (snd kv)) fi) acc d
  = acc ++ ((fun kv => (fst kv, g (snd kv))) <$> d).
Proof.
  revert acc. induction d as [|[k v] d IH]; intros acc Hnd; csimpl.
  - by rewrite app_nil_r.
  - simpl in Hnd. apply NoDup_app in Hnd as (Hacc & Hdisj & [Hk Hd]%NoDup_cons).
    rewrite dset_fresh.
    2:{ intros Hin. apply (Hdisj _ Hin). left. }
    rewrite IH.
    + by rewrite <- app_assoc.
    + unfold dkeys. rewrite fmap_app. simpl. rewrite <- app_assoc. simpl.
      apply NoDup_app. split; [done|]. split; [|by apply NoDup_cons].
      done.
Qed.

Lemma foldl_Zsum {A} (g : A -> Z) (l : list A) (a : Z) :
  foldl (fun s r => s + g r) a l = a + Zsum (g <$> l).
Proof.
  revert a. induction l as [|x l IH]; intros a; csimpl; [lia|].
  rewrite IH. lia.
Qed.

(** On a well-formed tree the totals the miner computes from [nodeLink]
    are the dictionary [itemCount]. *)
Lemma link_totals_itemCount t paths : wf t paths -> link_totals t = itemCount t.
Proof.
  intros Hwf. unfold link_totals.
  rewrite (foldl_dset_fresh
             (fun refs => foldl (fun s r => s + count (node_at (heap t) r)) 0 refs)).
  - simpl. rewrite (wf_count _ _ Hwf).
    apply list_fmap_ext. intros i [k refs] _. simpl. f_equal.
    by rewrite foldl_Zsum.
  - simpl. apply Hwf.
Qed.

(** ** [generateConditionalTree] never misses a key during mining *)

Lemma generateConditionalTree_Ok t it :
  it ∈ dkeys (nodeLink t) ->
  generateConditionalTree it t = Ok (insert_all (cond_base t it) new_Tree).
Proof.
  intros [refs Hr]%dget_is_Some. unfold generateConditionalTree.
  rewrite Hr. f_equal. unfold insert_all, cond_base, refs_of.
  rewrite Hr. simpl. by rewrite foldl_fmap.
Qed.

Lemma generateConditionalTree_KeyError t it :
  it ∉ dkeys (nodeLink t) -> generateConditionalTree it t = Raise KeyError.
Proof.
  intros Hr%dget_None. unfold generateConditionalTree. by rewrite Hr.
Qed.

Lemma wf_cond_tree t it :
  exists paths, wf (insert_all (cond_base t it) new_Tree) paths.
Proof. apply (wf_insert_all _ _ _ wf_new_Tree). Qed.

Lemma for_each_not_raise {A S} (body : S -> A -> res S) l s e :
  (forall s a, a ∈ l -> body s a <> Raise e) -> for_each body s l <> Raise e.
Proof.
  revert s. induction l as [|a l IH]; intros s Hbody; simpl; [done|].
  destruct (body s a) eqn:Hb; simpl.
  - apply IH. intros s' a' Ha'. apply Hbody. by right.
  - intros [= ->]. by apply (Hbody s a); [left|].
  - done.
Qed.

Lemma link_totals_keys t paths kv :
  wf t paths -> kv ∈ link_totals t -> fst kv ∈ dkeys (nodeLink t).
Proof.
  intros Hwf Hin. rewrite (link_totals_itemCount _ _ Hwf) in Hin.
  rewrite (wf_count _ _ Hwf) in Hin.
  rewrite <- (dkeys_fmap_snd
                (fun refs => Zsum ((fun id => count (node_at (heap t) id)) <$> refs))).
  unfold dkeys at 1. apply list_elem_of_fmap. by exists kv.
Qed.

Lemma genFreqPatterns_not_raise minSup fuel it pre t e :
  it ∈ dkeys (nodeLink t) -> genFreqPatterns minSup fuel it pre t <> Raise e.
Proof.
  revert it pre t. induction fuel as [|fuel IH]; intros it pre t Hit; simpl; [done|].
  rewrite (generateConditionalTree_Ok _ _ Hit). simpl.
  destruct (wf_cond_tree t it) as [paths Hwf].
  apply for_each_not_raise. intros fp kv Hkv.
  apply list_elem_of_filter in Hkv as [_ Hkv].
  pose proof (IH (fst kv) (pre ++ [fst kv]) _ (link_totals_keys _ _ _ Hwf Hkv)) as Hsub.
  destruct (genFreqPatterns minSup fuel (fst kv) (pre ++ [fst kv]) _); simpl; congruence.
Qed.

(** ** Positive counts *)

Lemma itemCount_positive l t :
  Forall (fun txc : list nat * Z => 0 < snd txc) l ->
  (forall r v, dget r (itemCount t) = Some v -> 0 < v) ->
  forall r v, dget r (itemCount (insert_all l t)) = Some v -> 0 < v.
Proof.
  revert t. induction l as [|[tx c] l IH]; intros t Hpos Ht; simpl; [done|].
  apply Forall_cons in Hpos as [Hc Hpos]. simpl in Hc.
  apply IH; [done|]. intros r v.
  rewrite itemCount_addTransaction, dget_foldl_bump.
  case_decide as Hin; [|apply Ht].
  intros [= <-]. apply occ_pos in Hin.
  destruct (dget r (itemCount t)) as [v0|] eqn:Hv0; simpl.
  - apply Ht in Hv0. nia.
  - nia.
Qed.

(** C9: after any sequence of [addTransaction] calls with positive counts on
    a fresh tree, the keys of [nodeLink] are the keys of [itemCount], whose
    values are positive; [itemCount[r]] is the sum of the counts of the
    nodes of [nodeLink[r]]; the totals the miner computes from [nodeLink]
    are [itemCount]; and mining a key of [itemCount] never indexes
    [nodeLink] at a missing key. *)
Theorem itemCount_matches_nodeLink (l : list (list nat * Z)) :
  Forall (fun txc : list nat * Z => 0 < snd txc) l ->
  let t := insert_all l new_Tree in
  (forall r, r ∈ dkeys (nodeLink t) <->
             exists v, dget r (itemCount t) = Some v /\ 0 < v)
  /\ (forall r refs,
        dget r (nodeLink t) = Some refs ->
        dget r (itemCount t)
        = Some (Zsum ((fun id => count (node_at (heap t) id)) <$> refs)))
  /\ link_totals t = itemCount t
  /\ (forall r, r ∈ dkeys (itemCount t) ->
        exists condTree, generateConditionalTree r t = Ok condTree)
  /\ (forall minSup fuel r pre,
        r ∈ dkeys (itemCount t) ->
        genFreqPatterns minSup fuel r pre t <> Raise KeyError).
Proof.
  intros Hpos t.
  destruct (wf_insert_all l new_Tree _ wf_new_Tree) as [paths Hwf]. fold t in Hwf.
  assert (Hkeys : dkeys (itemCount t) = dkeys (nodeLink t)).
  { rewrite (wf_count _ _ Hwf).
    apply (dkeys_fmap_snd
             (fun refs => Zsum ((fun id => count (node_at (heap t) id)) <$> refs))). }
  assert (Hget : forall r,
    dget r (itemCount t)
    = (fun refs => Zsum ((fun id => count (node_at (heap t) id)) <$> refs))
        <$> dget r (nodeLink t)).
  { intros r. rewrite (wf_count _ _ Hwf) at 1.
    apply (dget_fmap_snd
             (fun refs => Zsum ((fun id => count (node_at (heap t) id)) <$> refs))). }
  split; [|split; [|split; [|split]]].
  - intros r. rewrite <- Hkeys, <- dget_is_Some. split.
    + intros [v Hv]. exists v. split; [done|].
      by apply (itemCount_positive l new_Tree Hpos) with (r := r).
    + intros (v & Hv & _). by exists v.
  - intros r refs Hr. by rewrite Hget, Hr.
  - by apply (link_totals_itemCount _ paths).
  - intros r Hr. rewrite Hkeys in Hr. eexists.
    by apply generateConditionalTree_Ok.
  - intros minSup fuel r pre Hr. rewrite Hkeys in Hr.
    by apply genFreqPatterns_not_raise.
Qed.

Lemma itemCount_matches_nodeLink_witness :
  let t := insert_all [([0%nat; 1%nat], 1); ([0%nat], 2)] new_Tree in
  dget 0%nat (itemCount t) = Some 3 /\ link_totals t = itemCount t.
Proof.
  assert (Hpos : Forall (fun txc : list nat * Z => 0 < snd txc)
                   [([0%nat; 1%nat], 1); ([0%nat], 2)]).
  { repeat constructor; simpl; lia. }
  destruct (itemCount_matches_nodeLink _ Hpos) as (_ & _ & Htot & _).
  split; [reflexivity | exact Htot].
Defined.

(** ** Closed form of a tree built by insertions *)

Lemma path_count_cons tx c l p :
  path_count ((tx, c) :: l) p
  = (if decide (on_path tx p) then c else 0) + path_count l p.
Proof. done. Qed.

Lemma insert_all_paths l t0 paths0 :
  wf t0 paths0 ->
  exists paths,
    wf (insert_all l t0) paths
    /\ (exists ext, paths = paths0 ++ ext)
    /\ (forall p, p ∈ paths <->
                  p ∈ paths0 \/ exists txc, txc ∈ l /\ on_path (fst txc) p)
    /\ (forall id p, paths !! id = Some p ->
          count (node_at (heap (insert_all l t0)) id)
          = count (node_at (heap t0) id) + path_count l p)
    /\ (forall id, (id < length (heap t0))%nat ->
          item (node_at (heap (insert_all l t0)) id) = item (node_at (heap t0) id)
          /\ prefix (node_at (heap (insert_all l t0)) id)
             = prefix (node_at (heap t0) id)).
Proof.
  revert t0 paths0. induction l as [|[tx c] l IH]; intros t0 paths0 Hwf0.
  - exists paths0. split; [done|]. split; [by exists []; rewrite app_nil_r|].
    split; [|split].
    + intros p. split; [by left|]. intros [?|(txc & Hin & _)]; [done|].
      by apply elem_of_nil in Hin.
    + intros id p _. unfold path_count. simpl. lia.
    + done.
  - destruct (addTransaction_path_effect tx c t0 paths0 Hwf0)
      as (paths1 & Hwf1 & (ext1 & Hext1) & Hmem1 & Hcnt1 & Hfld1).
    destruct (IH _ _ Hwf1) as (paths & Hwf & (ext & Hext) & Hmem & Hcnt & Hfld).
    pose proof (wf_len _ _ Hwf0) as Hlen0. pose proof (wf_len _ _ Hwf1) as Hlen1.
    assert (Hle : (length (heap t0) <= length (heap (addTransaction tx c t0)))%nat).
    { rewrite <- Hlen0, <- Hlen1, Hext1, length_app. lia. }
    exists paths. simpl. split; [done|]. split; [|split; [|split]].
    + exists (ext1 ++ ext). by rewrite Hext, Hext1, app_assoc.
    + intros p. rewrite Hmem, Hmem1. split.
      * intros [[?|[Hp _]]|(txc & Hin & Hp)].
        -- by left.
        -- right. exists (tx, c). split; [left | done].
        -- right. exists txc. split; [by right | done].
      * intros [?|(txc & Hin & Hp)]; [by left; left|].
        apply elem_of_cons in Hin as [->|Hin].
        -- left. right. split; [done|]. by apply on_path_length.
        -- right. by exists txc.
    + intros id p Hp. rewrite (Hcnt id p Hp), path_count_cons.
      destruct (decide (id < length paths1)%nat) as [Hid|Hid].
      * assert (Hp1 : paths1 !! id = Some p).
        { rewrite Hext, lookup_app_l in Hp by done. done. }
        rewrite (Hcnt1 id p Hp1).
        destruct (decide (on_path tx p)) as [Hon|Hon].
        -- rewrite decide_True; [lia|]. split; [done|]. by apply on_path_length.
        -- rewrite decide_False; [lia | tauto].
      * rewrite !node_at_ge by lia.
        rewrite decide_False; [simpl; lia|]. intros Hon.
        assert (Hin1 : p ∈ paths1).
        { apply Hmem1. right. split; [done|]. by apply on_path_length. }
        apply list_elem_of_lookup in Hin1 as [id1 Hid1].
        assert (Hid1' : paths !! id1 = Some p).
        { rewrite Hext, lookup_app_l; [done|]. by eapply lookup_lt_Some. }
        assert (id = id1) as ->.
        { eapply NoDup_lookup; [apply (wf_nodup _ _ Hwf) | done | done]. }
        apply lookup_lt_Some in Hid1. lia.
    + intros id Hid.
      assert (Hid1 : (id < length (heap (addTransaction tx c t0)))%nat) by lia.
      destruct (Hfld id Hid1) as [-> ->]. by apply Hfld1.
Qed.

Lemma path_count_nil_path l : path_count l [] = 0.
Proof.
  induction l as [|[tx c] l IH]; [done|].
  rewrite path_count_cons, IH. rewrite decide_False; [done|]. by intros [? _].
Qed.

Lemma count_new_Tree id : count (node_at (heap new_Tree) id) = 0.
Proof. destruct id as [|id]; [done|]. by rewrite node_at_ge by (simpl; lia). Qed.

(** The nodes of a tree built from [l], by path. *)
Lemma node_view_insert_all l p :
  node_view (insert_all l new_Tree) p =
  if decide (p = []) then Some (None, 0, [])
  else if decide (Exists (fun txc => on_path (fst txc) p) l)
       then Some (last p, path_count l p, stored_prefix p)
       else None.
Proof.
  destruct (insert_all_paths l new_Tree _ wf_new_Tree)
    as (paths & Hwf & _ & Hmem & Hcnt & Hfld).
  unfold node_view.
  destruct (walk (heap (insert_all l new_Tree)) 0 p) as [id|] eqn:Hw; simpl.
  - apply (walk_paths _ _ _ _ Hwf) in Hw.
    rewrite (Hcnt id p Hw), count_new_Tree.
    destruct (decide (p = [])) as [->|Hne].
    + assert (id = 0%nat) as ->.
      { eapply NoDup_lookup; [apply (wf_nodup _ _ Hwf) | done | apply Hwf]. }
      destruct (Hfld 0%nat) as [-> ->]; [simpl; lia|].
      by rewrite path_count_nil_path.
    + rewrite decide_True.
      * destruct (exists_last Hne) as (q & r & ->).
        destruct (wf_item _ _ Hwf _ _ _ Hw) as [-> ->].
        by rewrite last_snoc.
      * apply Exists_exists.
        assert (Hin : p ∈ paths) by (by eapply list_elem_of_lookup_2).
        apply Hmem in Hin as [Hin|Hin]; [|done].
        by apply list_elem_of_singleton in Hin.
  - assert (Hnot : p ∉ paths).
    { intros [id Hid]%list_elem_of_lookup.
      apply (walk_paths _ _ _ _ Hwf) in Hid. congruence. }
    rewrite decide_False.
    + rewrite decide_False; [done|]. intros Hex%Exists_exists.
      apply Hnot, Hmem. by right.
    + intros ->. apply Hnot, Hmem. left. left.
Qed.

Lemma occ_not_elem r l : r ∉ l -> occ r l = 0.
Proof.
  intros Hr. pose proof (occ_nonneg r l).
  destruct (decide (0 < occ r l)) as [H1|H1]; [by apply occ_pos in H1 | lia].
Qed.

Lemma item_total_cons tx c l r :
  item_total ((tx, c) :: l) r = c * occ r tx + item_total l r.
Proof. done. Qed.

(** The entries of [itemCount] after the insertions [l]. *)
Lemma dget_itemCount_insert_all l t r :
  dget r (itemCount (insert_all l t)) =
  if decide (Exists (fun txc => r ∈ fst txc) l)
  then Some (default 0 (dget r (itemCount t)) + item_total l r)
  else dget r (itemCount t).
Proof.
  revert t. induction l as [|[tx c] l IH]; intros t.
  - unfold insert_all. cbn [foldl].
    rewrite decide_False; [done|]. by intros ?%Exists_nil.
  - unfold insert_all. cbn [foldl fst snd].
    fold (insert_all l (addTransaction tx c t)).
    rewrite IH, itemCount_addTransaction, dget_foldl_bump, item_total_cons.
    destruct (decide (r ∈ tx)) as [Hin|Hin].
    + rewrite (decide_True (P := Exists _ (_ :: _))) by (by left).
      simpl. case_decide as Hex; f_equal; [lia|].
      assert (item_total l r = 0) as ->; [|lia].
      clear IH. induction l as [|[tx' c'] l IHl]; [done|].
      rewrite item_total_cons, IHl.
      * rewrite occ_not_elem; [lia|]. intros ?. apply Hex. by left.
      * intros ?. apply Hex. by right.
    + rewrite (occ_not_elem _ _ Hin).
      destruct (decide (Exists (fun txc => r ∈ fst txc) l)) as [Hex|Hex].
      * rewrite decide_True by (by right). f_equal. lia.
      * rewrite decide_False; [done|]. by intros [?|?]%Exists_cons.
Qed.

Lemma Zsum_Permutation l1 l2 : l1 ≡ₚ l2 -> Zsum l1 = Zsum l2.
Proof. induction 1; simpl; lia. Qed.

(** C7: two orders of the same insertions into an empty tree build trees
    with the same nodes along the same paths (same item, count and stored
    prefix) and the same [itemCount] entries. *)
Theorem insertion_order_irrelevant (l1 l2 : list (list nat * Z)) :
  l1 ≡ₚ l2 ->
  tree_equiv (insert_all l1 new_Tree) (insert_all l2 new_Tree).
Proof.
  intros Hperm. split.
  - intros p. rewrite !node_view_insert_all.
    case_decide; [done|].
    assert (Hex : Exists (fun txc => on_path (fst txc) p) l1
                  <-> Exists (fun txc => on_path (fst txc) p) l2).
    { rewrite !Exists_exists. by setoid_rewrite Hperm. }
    destruct (decide (Exists (fun txc => on_path (fst txc) p) l1)) as [H1|H1].
    + rewrite decide_True by tauto. do 3 f_equal.
      unfold path_count. apply Zsum_Permutation. by apply fmap_Permutation.
    + rewrite decide_False by tauto. done.
  - intros r. rewrite !dget_itemCount_insert_all.
    assert (Hex : Exists (fun txc => r ∈ fst txc) l1
                  <-> Exists (fun txc => r ∈ fst txc) l2).
    { rewrite !Exists_exists. by setoid_rewrite Hperm. }
    destruct (decide (Exists (fun txc => r ∈ fst txc) l1)) as [H1|H1].
    + rewrite decide_True by tauto. do 2 f_equal.
      unfold item_total. apply Zsum_Permutation. by apply fmap_Permutation.
    + rewrite decide_False by tauto. done.
Qed.

Lemma insertion_order_irrelevant_witness :
  tree_equiv
    (insert_all [([0%nat; 1%nat], 1); ([0%nat; 2%nat], 3)] new_Tree)
    (insert_all [([0%nat; 2%nat], 3); ([0%nat; 1%nat], 1)] new_Tree).
Proof. apply insertion_order_irrelevant. apply Permutation_swap. Defined.

(** ** [nodeLink] only grows, by the newly allocated nodes *)

Section refs_effect.
Variables (tx : list nat) (c : Z) (t0 : Tree).

Let refs_effect (_ _ : nat) (t' : Tree) (_ : list (list nat)) : Prop :=
  (length (heap t0) <= length (heap t'))%nat
  /\ forall r, exists news,
       refs_of t' r = refs_of t0 r ++ news
       /\ forall id, id ∈ news -> (length (heap t0) <= id)%nat.

Lemma refs_effect_found k current t paths it child :
  refs_effect k current t paths -> wf t paths ->
  paths !! current = Some (take k tx) -> tx !! k = Some it ->
  dget it (children (node_at (heap t) current)) = Some child ->
  paths !! child = Some (take (S k) tx) ->
  refs_effect (S k) child (raise_child c it child t) paths.
Proof.
  intros [Hlen HP] _ _ _ _ _. split.
  - unfold raise_child. cbn [heap]. by rewrite length_insert.
  - intros r. apply HP.
Qed.

Lemma refs_effect_fresh k current t paths it :
  refs_effect k current t paths -> wf t paths ->
  paths !! current = Some (take k tx) -> tx !! k = Some it ->
  dget it (children (node_at (heap t) current)) = None ->
  take (S k) tx ∉ paths ->
  refs_effect (S k) (length (heap t)) (alloc_child tx c it current t)
    (paths ++ [take (S k) tx]).
Proof.
  intros [Hlen HP] _ _ _ _ _. split.
  - unfold alloc_child. cbn [heap]. rewrite length_app, length_insert. lia.
  - intros r. rewrite refs_of_alloc. destruct (HP r) as (news & Hr & Hnews).
    destruct (decide (r = it)) as [->|Hne].
    + exists (news ++ [length (heap t)]). split.
      * by rewrite Hr, app_assoc.
      * intros id [?| ->%list_elem_of_singleton]%elem_of_app; [auto | done].
    + by exists news.
Qed.
End refs_effect.

Lemma refs_of_addTransaction t paths tx c :
  wf t paths ->
  (length (heap t) <= length (heap (addTransaction tx c t)))%nat
  /\ forall r, exists news,
       refs_of (addTransaction tx c t) r = refs_of t r ++ news
       /\ forall id, id ∈ news -> (length (heap t) <= id)%nat.
Proof.
  intros Hwf.
  destruct (addTransaction_ind tx c _
              (refs_effect_found tx c t) (refs_effect_fresh tx c t) t paths Hwf)
    as (cur & paths' & _ & _ & HP); [|done].
  split; [done|]. intros r. exists []. split; [by rewrite app_nil_r|].
  by intros id ?%elem_of_nil.
Qed.

(** ** One insertion, seen from the paths *)

Lemma insert_all_snoc l tx c t :
  insert_all (l ++ [(tx, c)]) t = addTransaction tx c (insert_all l t).
Proof. unfold insert_all. by rewrite foldl_app. Qed.

Lemma path_count_snoc l tx c p :
  path_count (l ++ [(tx, c)]) p
  = path_count l p + if decide (on_path tx p) then c else 0.
Proof.
  unfold path_count. rewrite fmap_app, Zsum_app. simpl. lia.
Qed.

Lemma path_count_not_Exists l p :
  ~ Exists (fun txc : list nat * Z => on_path (fst txc) p) l -> path_count l p = 0.
Proof.
  induction l as [|[tx c] l IH]; [done|]. intros Hex.
  rewrite path_count_cons, IH.
  - rewrite decide_False; [done|]. intros ?. apply Hex. by left.
  - intros ?. apply Hex. by right.
Qed.

Lemma index_snoc_fresh (r : nat) q : r ∉ q -> index r (q ++ [r]) = length q.
Proof.
  induction q as [|x q IH]; simpl.
  - intros _. by rewrite decide_True.
  - intros [Hne Hq]%not_elem_of_cons. rewrite decide_False by done.
    f_equal. by apply IH.
Qed.

(** In a transaction of distinct ranks the stored prefix of a node is the
    path walked before reaching it. *)
Lemma stored_prefix_NoDup tx p :
  NoDup tx -> on_path tx p -> stored_prefix p = removelast p.
Proof.
  intros Hnd [Hne Hp].
  assert (Hndp : NoDup p).
  { rewrite <- Hp. eapply sublist_NoDup; [exact Hnd | apply sublist_take]. }
  destruct (exists_last Hne) as (q & r & ->).
  apply NoDup_app in Hndp as (_ & Hdisj & _).
  unfold stored_prefix. rewrite last_snoc, removelast_last.
  rewrite index_snoc_fresh, take_app_length; [done|].
  intros Hin. apply (Hdisj _ Hin). left.
Qed.

Lemma node_view_addTransaction l tx c p :
  NoDup tx ->
  node_view (addTransaction tx c (insert_all l new_Tree)) p =
  match node_view (insert_all l new_Tree) p with
  | Some (it, n, pre) =>
      Some (it, if decide (on_path tx p) then n + c else n, pre)
  | None =>
      if decide (on_path tx p) then Some (last p, c, removelast p) else None
  end.
Proof.
  intros Hnd. rewrite <- insert_all_snoc, !node_view_insert_all.
  destruct (decide (p = [])) as [->|Hne].
  { rewrite decide_False; [done|]. by intros [? _]. }
  rewrite path_count_snoc.
  destruct (decide (Exists (fun txc => on_path (fst txc) p) l)) as [Hex|Hex].
  - rewrite decide_True by (apply Exists_app; by left).
    case_decide; [done|]. by rewrite Z.add_0_r.
  - rewrite (path_count_not_Exists _ _ Hex).
    destruct (decide (on_path tx p)) as [Hon|Hon].
    + rewrite decide_True by (apply Exists_app; right; by left).
      by rewrite (stored_prefix_NoDup tx p Hnd Hon).
    + rewrite decide_False; [done|].
      intros [?|[?|?%Exists_nil]%Exists_cons]%Exists_app; done.
Qed.

(** C8: [addTransaction] on a tree built by earlier insertions, for a
    transaction [tx] of distinct ranks.  Along every non-empty beginning
    [p] of [tx]: an existing node is kept (same reference, item and prefix)
    and its count grows by [c]; a missing node is created with the last
    rank of [p] as item, the ranks before it as prefix and count [c].  No
    other path gains a node or changes.  [nodeLink[r]] is extended by
    exactly the created nodes of rank [r], and [itemCount[r]] grows by [c]
    for the ranks of [tx] and by nothing for the others. *)
Theorem addTransaction_spec (l : list (list nat * Z)) (tx : list nat) (c : Z) :
  NoDup tx ->
  let t := insert_all l new_Tree in
  let t' := addTransaction tx c t in
  (forall p,
     node_view t' p =
     match node_view t p with
     | Some (it, n, pre) =>
         Some (it, if decide (on_path tx p) then n + c else n, pre)
     | None =>
         if decide (on_path tx p) then Some (last p, c, removelast p) else None
     end)
  /\ (forall p id, walk (heap t) 0 p = Some id -> walk (heap t') 0 p = Some id)
  /\ (forall r, exists news,
        refs_of t' r = refs_of t r ++ news
        /\ forall id, id ∈ news <->
             (length (heap t) <= id < length (heap t'))%nat
             /\ item (node_at (heap t') id) = Some r)
  /\ (forall r,
        dget r (itemCount t') =
        if decide (r ∈ tx) then Some (default 0 (dget r (itemCount t)) + c)
        else dget r (itemCount t)).
Proof.
  intros Hnd t t'.
  destruct (wf_insert_all l new_Tree _ wf_new_Tree) as [paths Hwf]. fold t in Hwf.
  destruct (addTransaction_path_effect tx c t paths Hwf)
    as (paths' & Hwf' & (ext & Hext) & _). fold t' in Hwf'.
  destruct (refs_of_addTransaction t paths tx c Hwf) as [Hlen Hrefs].
  fold t' in Hlen, Hrefs.
  split; [|split; [|split]].
  - intros p. by apply node_view_addTransaction.
  - intros p id Hw. apply (walk_paths _ _ _ _ Hwf) in Hw.
    apply (walk_paths _ _ _ _ Hwf'). rewrite Hext, lookup_app_l; [done|].
    by eapply lookup_lt_Some.
  - intros r. destruct (Hrefs r) as (news & Hr & Hnews). exists news.
    split; [done|]. intros id. split.
    + intros Hin. assert (Hin' : id ∈ refs_of t' r).
      { rewrite Hr. apply elem_of_app. by right. }
      apply (refs_of_lt _ _ _ _ Hwf') in Hin' as [? ?].
      split; [|done]. split; [by apply Hnews | done].
    + intros [[Hge Hlt] Hit].
      pose proof (refs_of_elem _ _ _ _ Hwf' Hlt Hit) as Hin.
      rewrite Hr in Hin. apply elem_of_app in Hin as [Hin|Hin]; [|done].
      apply (refs_of_lt _ _ _ _ Hwf) in Hin as [? _]. lia.
  - intros r. unfold t'. rewrite itemCount_addTransaction, dget_foldl_bump.
    case_decide as Hin; [|done]. rewrite (occ_NoDup _ _ Hnd Hin). f_equal. lia.
Qed.

Lemma addTransaction_spec_witness :
  let t := insert_all [([0%nat; 1%nat], 1)] new_Tree in
  let t' := addTransaction [0%nat; 2%nat] 5 t in
  node_view t' [0%nat] = Some (Some 0%nat, 6, [])
  /\ node_view t' [0%nat; 2%nat] = Some (Some 2%nat, 5, [0%nat])
  /\ node_view t' [0%nat; 1%nat] = Some (Some 1%nat, 1, [0%nat]).
Proof.
  assert (Hnd : NoDup [0%nat; 2%nat]).
  { apply NoDup_cons. split; [|apply NoDup_singleton].
    intros H%list_elem_of_singleton. discriminate. }
  destruct (addTransaction_spec [([0%nat; 1%nat], 1)] [0%nat; 2%nat] 5 Hnd)
    as (Hview & _).
  repeat split; rewrite Hview; reflexivity.
Defined.

(** ** Trees built from ascending transactions *)

Lemma sorted_on_path tx q r :
  StronglySorted lt tx -> on_path tx (q ++ [r]) ->
  stored_prefix (q ++ [r]) = q
  /\ Forall (fun x => (x < r)%nat) q
  /\ StronglySorted lt q.
Proof.
  intros Hs [_ Hp].
  rewrite <- (take_drop (length (q ++ [r])) tx), Hp in Hs.
  apply StronglySorted_app in Hs as (_ & Hs & _).
  apply StronglySorted_app in Hs as (Hlt & Hq & _).
  assert (Hall : Forall (fun x => (x < r)%nat) q).
  { apply Forall_forall. intros x Hx. apply Hlt; [done | left]. }
  split; [|done].
  unfold stored_prefix. rewrite last_snoc, index_snoc_fresh, take_app_length; [done|].
  intros Hin. rewrite Forall_forall in Hall. apply Hall in Hin. lia.
Qed.

(** Every node listed in [nodeLink[r]] of a built tree lies at the end of
    a beginning [q ++ [r]] of an inserted transaction, and stores the
    prefix computed from that path. *)
Lemma refs_of_insert_all l r id :
  id ∈ refs_of (insert_all l new_Tree) r ->
  exists tx c q,
    (tx, c) ∈ l /\ on_path tx (q ++ [r])
    /\ prefix (node_at (heap (insert_all l new_Tree)) id) = stored_prefix (q ++ [r])
    /\ count (node_at (heap (insert_all l new_Tree)) id) = path_count l (q ++ [r]).
Proof.
  destruct (insert_all_paths l new_Tree _ wf_new_Tree)
    as (paths & Hwf & _ & Hmem & Hcnt & Hfld).
  intros Hin. apply (refs_of_lt _ _ _ _ Hwf) in Hin as [Hlt Hit].
  rewrite <- (wf_len _ _ Hwf) in Hlt.
  apply lookup_lt_is_Some in Hlt as [p Hp].
  destruct (decide (p = [])) as [->|Hne].
  - assert (id = 0%nat) as ->.
    { eapply NoDup_lookup; [apply (wf_nodup _ _ Hwf) | done | apply Hwf]. }
    destruct (Hfld 0%nat) as [Hroot _]; [simpl; lia|].
    rewrite Hroot in Hit. done.
  - destruct (exists_last Hne) as (q & r' & ->).
    destruct (wf_item _ _ Hwf _ _ _ Hp) as [Hit' Hpre].
    assert (r' = r) as -> by congruence.
    assert (Hpin : q ++ [r] ∈ paths) by (by eapply list_elem_of_lookup_2).
    apply Hmem in Hpin as [Hpin|([tx c] & Htx & Hon)].
    + apply list_elem_of_singleton in Hpin. by destruct q.
    + exists tx, c, q. split; [done|]. split; [done|]. split; [done|].
      rewrite (Hcnt id _ Hp), count_new_Tree. lia.
Qed.

(** The keys of [nodeLink] of a built tree are the ranks inserted. *)
Lemma nodeLink_keys_insert_all l r :
  r ∈ dkeys (nodeLink (insert_all l new_Tree))
  <-> Exists (fun txc : list nat * Z => r ∈ fst txc) l.
Proof.
  destruct (wf_insert_all l new_Tree _ wf_new_Tree) as [paths Hwf].
  rewrite <- (dkeys_fmap_snd
     (fun refs => Zsum ((fun id => count (node_at (heap (insert_all l new_Tree)) id))
                          <$> refs)) (nodeLink _)).
  rewrite <- (wf_count _ _ Hwf), <- dget_is_Some, dget_itemCount_insert_all.
  case_decide; [by split|]. simpl. split; [by intros [? ?] | done].
Qed.

Lemma cond_base_sorted l r p c :
  Forall (fun txc : list nat * Z => StronglySorted lt (fst txc)) l ->
  (p, c) ∈ cond_base (insert_all l new_Tree) r ->
  StronglySorted lt p /\ Forall (fun x => (x < r)%nat) p.
Proof.
  intros Hl Hin. unfold cond_base in Hin.
  apply list_elem_of_fmap in Hin as (id & Heq & Hid). injection Heq as -> ->.
  destruct (refs_of_insert_all l r id Hid) as (tx & c' & q & Htx & Hon & -> & _).
  rewrite Forall_forall in Hl. specialize (Hl _ Htx). simpl in Hl.
  destruct (sorted_on_path tx q r Hl Hon) as (-> & ? & ?). done.
Qed.

Lemma cond_base_Forall_sorted l r :
  Forall (fun txc : list nat * Z => StronglySorted lt (fst txc)) l ->
  Forall (fun txc : list nat * Z => StronglySorted lt (fst txc))
         (cond_base (insert_all l new_Tree) r).
Proof.
  intros Hl. apply Forall_forall. intros [p c] Hin.
  by apply (cond_base_sorted l r p c Hl).
Qed.

Lemma cond_tree_keys_lt l r x :
  Forall (fun txc : list nat * Z => StronglySorted lt (fst txc)) l ->
  x ∈ dkeys (nodeLink (insert_all (cond_base (insert_all l new_Tree) r) new_Tree)) ->
  (x < r)%nat.
Proof.
  intros Hl Hx. apply nodeLink_keys_insert_all in Hx.
  apply Exists_exists in Hx as ([p c] & Hin & Hxp). simpl in Hxp.
  destruct (cond_base_sorted l r p c Hl Hin) as [_ Hall].
  rewrite Forall_forall in Hall. by apply Hall.
Qed.

Lemma for_each_ok {A S} (body : S -> A -> res S) l s :
  (forall s a, a ∈ l -> exists s', body s a = Ok s') ->
  exists s', for_each body s l = Ok s'.
Proof.
  revert s. induction l as [|a l IH]; intros s Hbody; simpl; [by exists s|].
  destruct (Hbody s a) as [s1 ->]; [left|]. simpl.
  apply IH. intros s' a' Ha'. apply Hbody. by right.
Qed.

Lemma genFreqPatterns_ok minSup fuel l r pre :
  Forall (fun txc : list nat * Z => StronglySorted lt (fst txc)) l ->
  r ∈ dkeys (nodeLink (insert_all l new_Tree)) ->
  (r < fuel)%nat ->
  exists d, genFreqPatterns minSup fuel r pre (insert_all l new_Tree) = Ok d.
Proof.
  revert l r pre. induction fuel as [|fuel IH]; intros l r pre Hl Hr Hlt; [lia|].
  simpl. rewrite (generateConditionalTree_Ok _ _ Hr). simpl.
  destruct (wf_cond_tree (insert_all l new_Tree) r) as [paths Hwf].
  apply for_each_ok. intros fp kv Hkv.
  apply list_elem_of_filter in Hkv as [_ Hkv].
  pose proof (link_totals_keys _ _ _ Hwf Hkv) as Hkey.
  pose proof (cond_tree_keys_lt l r _ Hl Hkey) as Hlt'.
  destruct (IH _ (fst kv) (pre ++ [fst kv]) (cond_base_Forall_sorted l r Hl) Hkey)
    as [d ->]; [lia|].
  simpl. by eexists.
Qed.

(** C10: in a tree built from ascending transactions of distinct ranks,
    the stored prefix of every node holds only ranks below the node's own;
    every rank of the conditional tree of [r] is below [r]; and
    [genFreqPatterns] started at a rank [r] of the tree returns within
    recursion depth [r + 1] (any larger budget does as well). *)
Theorem genFreqPatterns_terminates (l : list (list nat * Z)) :
  Forall (fun txc : list nat * Z => StronglySorted lt (fst txc)) l ->
  let t := insert_all l new_Tree in
  (forall id n r,
     heap t !! id = Some n -> item n = Some r ->
     Forall (fun x => (x < r)%nat) (prefix n))
  /\ (forall r condTree,
        generateConditionalTree r t = Ok condTree ->
        forall x, x ∈ dkeys (nodeLink condTree) -> (x < r)%nat)
  /\ (forall minSup fuel r pre,
        r ∈ dkeys (nodeLink t) -> (r < fuel)%nat ->
        exists d, genFreqPatterns minSup fuel r pre t = Ok d).
Proof.
  intros Hl t. split; [|split].
  - intros id n r Hid Hit.
    destruct (wf_insert_all l new_Tree _ wf_new_Tree) as [paths Hwf]. fold t in Hwf.
    assert (Hn : node_at (heap t) id = n) by (unfold node_at; by rewrite Hid).
    assert (Hin : id ∈ refs_of t r).
    { apply (refs_of_elem _ _ _ _ Hwf); [by eapply lookup_lt_Some | by rewrite Hn]. }
    destruct (refs_of_insert_all l r id Hin) as (tx & c & q & Htx & Hon & Hpre & _).
    fold t in Hpre. rewrite Hn in Hpre. rewrite Hpre.
    rewrite Forall_forall in Hl. specialize (Hl _ Htx). simpl in Hl.
    by destruct (sorted_on_path tx q r Hl Hon) as (-> & ? & _).
  - intros r condTree Hgen x Hx.
    destruct (decide (r ∈ dkeys (nodeLink t))) as [Hr|Hr].
    + rewrite (generateConditionalTree_Ok _ _ Hr) in Hgen. injection Hgen as <-.
      by apply (cond_tree_keys_lt l r x Hl).
    + by rewrite (generateConditionalTree_KeyError _ _ Hr) in Hgen.
  - intros minSup fuel r pre Hr Hlt. by apply genFreqPatterns_ok.
Qed.

Lemma genFreqPatterns_terminates_witness :
  exists d,
    genFreqPatterns 1 3 2%nat [2%nat]
      (insert_all [([0%nat; 1%nat; 2%nat], 1); ([0%nat; 2%nat], 1)] new_Tree) = Ok d.
Proof.
  assert (Hl : Forall (fun txc : list nat * Z => StronglySorted lt (fst txc))
                 [([0%nat; 1%nat; 2%nat], 1); ([0%nat; 2%nat], 1)]).
  { repeat constructor. }
  destruct (genFreqPatterns_terminates _ Hl) as (_ & _ & Hterm).
  apply Hterm; [|lia]. vm_compute. right. right. left.
Defined.

(** ** The driving loop of a partition *)

Lemma for_each_filter {A S} (body : S -> A -> res S) (P : A -> Prop)
    `{forall a, Decision (P a)} l s :
  (forall s a, ~ P a -> body s a = Ok s) ->
  for_each body s l = for_each body s (filter P l).
Proof.
  intros Hskip. revert s. induction l as [|a l IH]; intros s; [done|].
  rewrite filter_cons. case_decide as Ha; simpl.
  - destruct (body s a); simpl; [apply IH | done | done].
  - rewrite (Hskip s a Ha). simpl. apply IH.
Qed.

Lemma for_each_ext {A S} (body body' : S -> A -> res S) l s :
  (forall s a, a ∈ l -> body s a = body' s a) ->
  for_each body s l = for_each body' s l.
Proof.
  revert s. induction l as [|a l IH]; intros s Hext; simpl; [done|].
  rewrite (Hext s a) by left. destruct (body' s a); simpl; try done.
  apply IH. intros s' a' Ha'. apply Hext. by right.
Qed.

Lemma mined_ranks_elem numPartitions p tree r :
  r ∈ mined_ranks numPartitions p tree <->
  r ∈ dkeys (itemCount tree) /\ owner numPartitions r = p.
Proof.
  unfold mined_ranks. rewrite list_elem_of_filter.
  unfold dkeys. rewrite (sorted_by_perm snd (itemCount tree)). tauto.
Qed.

Lemma genAllFrequentPatterns_mined_ranks minSup numPartitions p tree :
  numPartitions <> 0 ->
  genAllFrequentPatterns minSup numPartitions (p, tree)
  = for_each
      (fun freqPatterns it =>
         let* sub := genFreqPatterns minSup (S it) it [it] tree in
         Ok (dupdate freqPatterns sub))
      [] (mined_ranks numPartitions p tree).
Proof.
  intros Hnp. unfold genAllFrequentPatterns, mined_ranks. cbn [fst snd].
  rewrite (for_each_filter _ (fun it => owner numPartitions it = p)).
  - apply for_each_ext. intros fp it [Hown _]%list_elem_of_filter.
    rewrite (getPartitionId_owner _ Hnp). simpl.
    by rewrite decide_True.
  - intros fp it Hown. rewrite (getPartitionId_owner _ Hnp). simpl.
    by rewrite decide_False.
Qed.



(** ** Weighted support *)

Section wsupp_facts.
Context {A : Type} `{EqDecision A}.
Implicit Types (l : list (list A * Z)) (S : list A).

Lemma wsupp_nil S : wsupp (@nil (list A * Z)) S = 0.
Proof. done. Qed.

Lemma wsupp_cons tx c l S :
  wsupp ((tx, c) :: l) S = (if decide (S ⊆ tx) then c else 0) + wsupp l S.
Proof. done. Qed.

Lemma wsupp_app l1 l2 S : wsupp (l1 ++ l2) S = wsupp l1 S + wsupp l2 S.
Proof. unfold wsupp. by rewrite fmap_app, Zsum_app. Qed.

Lemma wsupp_nonneg l S :
  Forall (fun txc : list A * Z => 0 < snd txc) l -> 0 <= wsupp l S.
Proof.
  induction 1 as [|[tx c] l Hc Hl IH]; [done|].
  rewrite wsupp_cons. simpl in Hc. case_decide; lia.
Qed.

(** With positive multiplicities the support is positive exactly when some
    transaction holds the itemset. *)
Lemma wsupp_pos l S :
  Forall (fun txc : list A * Z => 0 < snd txc) l ->
  0 < wsupp l S <-> Exists (fun txc : list A * Z => S ⊆ fst txc) l.
Proof.
  induction 1 as [|[tx c] l Hc Hl IH].
  - rewrite wsupp_nil. split; [lia | by intros ?%Exists_nil].
  - rewrite wsupp_cons, Exists_cons. simpl in *.
    pose proof (wsupp_nonneg l S Hl). case_decide as Hsub.
    + split; [by left | lia].
    + rewrite <- IH. split; [intros; right; lia | intros [?|?]; [done | lia]].
Qed.

(** Anti-monotonicity: a larger itemset has a smaller support. *)
Lemma wsupp_anti l S S' :
  Forall (fun txc : list A * Z => 0 < snd txc) l ->
  S ⊆ S' -> wsupp l S' <= wsupp l S.
Proof.
  intros Hl Hsub. induction Hl as [|[tx c] l Hc Hl IH]; [done|].
  rewrite !wsupp_cons. simpl in Hc.
  destruct (decide (S' ⊆ tx)) as [H1|H1].
  - rewrite decide_True; [lia|]. by etrans.
  - case_decide; lia.
Qed.

Lemma wsupp_ext l S S' :
  (forall txc, txc ∈ l -> S ⊆ fst txc <-> S' ⊆ fst txc) ->
  wsupp l S = wsupp l S'.
Proof.
  intros Hext. unfold wsupp. apply Zsum_fmap_ext. intros txc Hin.
  specialize (Hext txc Hin). repeat case_decide; tauto || done.
Qed.
End wsupp_facts.

(** ** The conditional pattern base of a built tree *)

Lemma link_sum_new_Tree f r : link_sum f new_Tree r = 0.
Proof. done. Qed.

Lemma link_sum_insert_all l t paths f r :
  wf t paths ->
  link_sum f (insert_all l t) r
  = link_sum f t r
    + Zsum ((fun txc : list nat * Z =>
               snd txc * f (take (index r (fst txc)) (fst txc)) * occ r (fst txc))
              <$> l).
Proof.
  revert t paths. induction l as [|[tx c] l IH]; intros t paths Hwf.
  - simpl. lia.
  - unfold insert_all. cbn [foldl fst snd]. fold (insert_all l (addTransaction tx c t)).
    destruct (wf_addTransaction t paths tx c Hwf) as [paths' Hwf'].
    rewrite (IH _ _ Hwf'), (link_sum_addTransaction _ _ _ _ _ _ Hwf).
    csimpl. lia.
Qed.

Lemma wsupp_cond_base t r S :
  wsupp (cond_base t r) S
  = link_sum (fun p => if decide (S ⊆ p) then 1 else 0) t r.
Proof.
  unfold wsupp, cond_base, link_sum. rewrite <- list_fmap_compose.
  apply Zsum_fmap_ext. intros id _. simpl. case_decide; lia.
Qed.

Lemma StronglySorted_lt_NoDup (l : list nat) : StronglySorted lt l -> NoDup l.
Proof.
  induction 1 as [|x l Hs IH Hall]; [apply NoDup_nil_2|].
  apply NoDup_cons. split; [|done].
  intros Hin. rewrite Forall_forall in Hall. apply Hall in Hin. lia.
Qed.

Lemma sorted_before (tx : list nat) r x :
  StronglySorted lt tx -> r ∈ tx -> x ∈ tx -> (x < r)%nat ->
  x ∈ take (index r tx) tx.
Proof.
  intros Hs Hr Hx Hlt.
  pose proof (lookup_index r tx Hr) as Hi.
  rewrite <- (take_drop (index r tx) tx) in Hx, Hs.
  rewrite (drop_S _ _ _ Hi) in Hx, Hs.
  apply elem_of_app in Hx as [Hx|Hx]; [done|].
  apply StronglySorted_app in Hs as (_ & _ & Hs).
  apply StronglySorted_cons in Hs as [Hall _]. rewrite Forall_forall in Hall.
  apply elem_of_cons in Hx as [->|Hx]; [lia|]. apply Hall in Hx. lia.
Qed.

(** The support of [S] in the conditional pattern base of [r] is the
    support of [r :: S] in the transactions the tree was built from, when
    these are ascending and [S] lies below [r]. *)
Lemma wsupp_cond_base_insert_all l r S :
  Forall (fun txc : list nat * Z => StronglySorted lt (fst txc)) l ->
  Forall (fun x => (x < r)%nat) S ->
  wsupp (cond_base (insert_all l new_Tree) r) S = wsupp l (r :: S).
Proof.
  intros Hl HS.
  rewrite wsupp_cond_base, (link_sum_insert_all _ _ _ _ _ wf_new_Tree).
  rewrite link_sum_new_Tree, Z.add_0_l. unfold wsupp.
  apply Zsum_fmap_ext. intros [tx c] Hin. cbn [fst snd].
  rewrite Forall_forall in Hl. specialize (Hl _ Hin). cbn [fst] in Hl.
  destruct (decide (r ∈ tx)) as [Hr|Hr].
  - rewrite (occ_NoDup _ _ (StronglySorted_lt_NoDup _ Hl) Hr).
    assert (Hiff : S ⊆ take (index r tx) tx <-> r :: S ⊆ tx).
    { split.
      - intros Hsub x [->|Hx]%elem_of_cons; [done|].
        apply Hsub in Hx. rewrite <- (take_drop (index r tx) tx).
        apply elem_of_app. by left.
      - intros Hsub x Hx. apply (sorted_before tx r x Hl Hr).
        + apply Hsub. by right.
        + rewrite Forall_forall in HS. by apply HS. }
    destruct (decide (S ⊆ take (index r tx) tx)) as [H1|H1].
    + rewrite decide_True by tauto. lia.
    + rewrite decide_False by tauto. lia.
  - rewrite (occ_not_elem _ _ Hr), Z.mul_0_r. rewrite decide_False; [done|].
    intros Hsub. apply Hr, Hsub. left.
Qed.

Lemma path_count_nonneg l p :
  Forall (fun txc : list nat * Z => 0 < snd txc) l -> 0 <= path_count l p.
Proof.
  induction 1 as [|[tx c] l Hc Hl IH]; [done|].
  rewrite path_count_cons. simpl in Hc. case_decide; lia.
Qed.

Lemma path_count_pos l tx c p :
  Forall (fun txc : list nat * Z => 0 < snd txc) l ->
  (tx, c) ∈ l -> on_path tx p -> 0 < path_count l p.
Proof.
  induction 1 as [|[tx' c'] l Hc Hl IH]; [by intros ?%elem_of_nil|].
  rewrite path_count_cons. simpl in Hc.
  pose proof (path_count_nonneg l p Hl).
  intros [[= -> ->]|Hin]%elem_of_cons Hon.
  - rewrite decide_True by done. lia.
  - specialize (IH Hin Hon). case_decide; lia.
Qed.

Lemma cond_base_positive l r :
  Forall (fun txc : list nat * Z => 0 < snd txc) l ->
  Forall (fun txc : list nat * Z => 0 < snd txc)
         (cond_base (insert_all l new_Tree) r).
Proof.
  intros Hl. apply Forall_forall. intros [p c] Hin. simpl.
  unfold cond_base in Hin.
  apply list_elem_of_fmap in Hin as (id & Heq & Hid). injection Heq as -> ->.
  destruct (refs_of_insert_all l r id Hid) as (tx & c' & q & Htx & Hon & _ & ->).
  by eapply path_count_pos.
Qed.

Lemma item_total_wsupp l i :
  Forall (fun txc : list nat * Z => StronglySorted lt (fst txc)) l ->
  item_total l i = wsupp l [i].
Proof.
  intros Hl. unfold item_total, wsupp. apply Zsum_fmap_ext.
  intros [tx c] Hin. cbn [fst snd].
  rewrite Forall_forall in Hl. specialize (Hl _ Hin). cbn [fst] in Hl.
  destruct (decide (i ∈ tx)) as [Hi|Hi].
  - rewrite (occ_NoDup _ _ (StronglySorted_lt_NoDup _ Hl) Hi).
    rewrite decide_True; [lia|]. by intros x ->%list_elem_of_singleton.
  - rewrite (occ_not_elem _ _ Hi), Z.mul_0_r.
    rewrite decide_False; [done|]. intros Hsub. apply Hi, Hsub. left.
Qed.

(** The totals the miner computes on a built tree: one entry per rank
    inserted, holding the support of the rank. *)
Lemma link_totals_insert_all l :
  Forall (fun txc : list nat * Z => StronglySorted lt (fst txc)) l ->
  NoDup (dkeys (link_totals (insert_all l new_Tree)))
  /\ forall i v,
       (i, v) ∈ link_totals (insert_all l new_Tree)
       <-> Exists (fun txc : list nat * Z => i ∈ fst txc) l /\ v = wsupp l [i].
Proof.
  intros Hl.
  destruct (wf_insert_all l new_Tree _ wf_new_Tree) as [paths Hwf].
  rewrite (link_totals_itemCount _ _ Hwf).
  assert (Hnd : NoDup (dkeys (itemCount (insert_all l new_Tree)))).
  { rewrite (wf_count _ _ Hwf).
    rewrite (dkeys_fmap_snd
      (fun refs => Zsum ((fun id => count (node_at (heap (insert_all l new_Tree)) id))
                           <$> refs))).
    apply Hwf. }
  split; [done|]. intros i v.
  assert (Hget : (i, v) ∈ itemCount (insert_all l new_Tree)
                 <-> dget i (itemCount (insert_all l new_Tree)) = Some v).
  { split; [by apply elem_dget | apply dget_Some_elem]. }
  rewrite Hget, dget_itemCount_insert_all, (item_total_wsupp _ _ Hl).
  case_decide as Hex; simpl.
  - split; [intros [= <-]; split; [done | lia] | intros [_ ->]; f_equal; lia].
  - split; [done | tauto].
Qed.

(** ** Specification of the recursive miner *)

Lemma dupdate_cons {K V} `{EqDecision K} (d E : dict K V) k v :
  dupdate d ((k, v) :: E) = dupdate (dset k v d) E.
Proof. done. Qed.

Lemma dupdate_app {K V} `{EqDecision K} (d E1 E2 : dict K V) :
  dupdate d (E1 ++ E2) = dupdate (dupdate d E1) E2.
Proof. unfold dupdate. by rewrite foldl_app. Qed.

Lemma dupdate_NoDup {K V} `{EqDecision K} (d E : dict K V) :
  NoDup (dkeys (d ++ E)) -> dupdate d E = d ++ E.
Proof.
  revert d. induction E as [|[k v] E IH]; intros d Hnd.
  - by rewrite app_nil_r.
  - rewrite dupdate_cons, dset_fresh.
    + rewrite IH; rewrite <- app_assoc; done.
    + unfold dkeys in Hnd. rewrite fmap_app in Hnd.
      apply NoDup_app in Hnd as (_ & Hdisj & _).
      intros Hin. apply (Hdisj _ Hin). left.
Qed.

Lemma dict_of_NoDup {K V} `{EqDecision K} (E : dict K V) :
  NoDup (dkeys E) -> dict_of E = E.
Proof. intros Hnd. unfold dict_of. by rewrite dupdate_NoDup. Qed.

Lemma meets_minSup_mono minSup v v' :
  v <= v' -> meets_minSup minSup v = true -> meets_minSup minSup v' = true.
Proof.
  unfold meets_minSup. rewrite !Qle_bool_iff. intros Hle Hv.
  eapply Qle_trans; [exact Hv|]. by rewrite <- Zle_Qle.
Qed.

Lemma mined_step minSup l r ext v :
  Forall (fun txc : list nat * Z => StronglySorted lt (fst txc)) l ->
  Forall (fun txc : list nat * Z => 0 < snd txc) l ->
  let l' := cond_base (insert_all l new_Tree) r in
  (exists i vi ext',
     (Exists (fun txc : list nat * Z => i ∈ fst txc) l'
      /\ vi = wsupp l' [i] /\ meets_minSup minSup vi = true)
     /\ ext = i :: ext'
     /\ ((ext' = [] /\ v = vi) \/ (ext' <> [] /\ mined minSup l' i ext' v)))
  <-> (ext <> [] /\ mined minSup l r ext v).
Proof.
  intros Hl Hpos l'.
  pose proof (cond_base_positive l r Hpos) as Hpos'. fold l' in Hpos'.
  split.
  - intros (i & vi & ext' & (Hex & Hvi & Hmeet) & -> & Hcase).
    split; [done|].
    assert (Hir : (i < r)%nat).
    { apply Exists_exists in Hex as ([p c] & Hin & Hip). simpl in Hip.
      destruct (cond_base_sorted l r p c Hl Hin) as [_ Hall].
      rewrite Forall_forall in Hall. by apply Hall. }
    destruct Hcase as [[-> ->]|[Hne (Hs & Hv & Hv0 & Hm)]].
    + split; [|split; [|split]].
      * repeat constructor. lia.
      * subst vi. apply wsupp_cond_base_insert_all; [done|]. by constructor.
      * subst vi. apply (wsupp_pos _ _ Hpos').
        eapply Exists_impl; [exact Hex|]. simpl.
        by intros txc Hi x ->%list_elem_of_singleton.
      * done.
    + assert (Hall : Forall (fun x => (x < r)%nat) (i :: ext')).
      { constructor; [done|]. apply StronglySorted_cons in Hs as [Hall _].
        eapply Forall_impl; [exact Hall|]. simpl. intros; lia. }
      split; [|split; [|split]]; [| |done|done].
      * apply StronglySorted_cons. split; [|done].
        eapply Forall_impl; [exact Hall|]. simpl. intros; lia.
      * rewrite Hv. by apply wsupp_cond_base_insert_all.
  - intros [Hne (Hs & Hv & Hv0 & Hm)].
    destruct ext as [|i ext']; [done|].
    apply StronglySorted_cons in Hs as [Hall Hs].
    assert (Hall' : Forall (fun x => (x < r)%nat) (i :: ext')).
    { eapply Forall_impl; [exact Hall|]. simpl. intros; lia. }
    assert (Hv' : v = wsupp l' (i :: ext')).
    { rewrite Hv. symmetry. by apply wsupp_cond_base_insert_all. }
    assert (Hle : v <= wsupp l' [i]).
    { rewrite Hv'. apply wsupp_anti; [done|].
      intros x ->%list_elem_of_singleton. left. }
    exists i, (wsupp l' [i]), ext'. split; [split; [|split; [done|]]|split; [done|]].
    + assert (H0 : 0 < wsupp l' [i]) by lia.
      apply (wsupp_pos _ _ Hpos') in H0.
      eapply Exists_impl; [exact H0|]. simpl. intros txc Hsub. apply Hsub. left.
    + by eapply meets_minSup_mono.
    + destruct ext' as [|j ext'']; [left; by rewrite Hv'|].
      right. split; [done|]. by split; [|split; [|split]].
Qed.

Section miner_loop.
Variables (minSup : Q) (fuel : nat) (pre : list nat) (condTree : Tree).
Variable spec : nat -> list nat -> Z -> Prop.

Let body (freqPatterns : dict (list nat) Z) (kv : nat * Z) : res (dict (list nat) Z) :=
  let pattern := pre ++ [fst kv] in
  let freqPatterns := dset pattern (snd kv) freqPatterns in
  let* sub := genFreqPatterns minSup fuel (fst kv) pattern condTree in
  Ok (dupdate freqPatterns sub).

Let branch_ok (fl : list (nat * Z)) : Prop :=
  forall i vi, (i, vi) ∈ fl ->
    exists d,
      genFreqPatterns minSup fuel i (pre ++ [i]) condTree = Ok d
      /\ NoDup (dkeys d)
      /\ forall k v, (k, v) ∈ d <->
           exists ext', ext' <> [] /\ k = (pre ++ [i]) ++ ext' /\ spec i ext' v.

Let entries_of (fl : list (nat * Z)) (k : list nat) (v : Z) : Prop :=
  exists i vi ext',
    (i, vi) ∈ fl /\ k = pre ++ i :: ext'
    /\ ((ext' = [] /\ v = vi) \/ (ext' <> [] /\ spec i ext' v)).

Lemma genFreqPatterns_loop fl fp :
  NoDup (fst <$> fl) -> branch_ok fl ->
  exists E,
    for_each body fp fl = Ok (dupdate fp E)
    /\ NoDup (dkeys E)
    /\ forall k v, (k, v) ∈ E <-> entries_of fl k v.
Proof.
  revert fp. induction fl as [|[i vi] fl IH]; intros fp Hnd Hok.
  - exists []. split; [done|]. split; [apply NoDup_nil_2|].
    intros k v. split; [by intros ?%elem_of_nil|].
    intros (i & vi & ext' & Hin & _). by apply elem_of_nil in Hin.
  - rewrite fmap_cons in Hnd. apply NoDup_cons in Hnd as [Hi Hnd]. simpl in Hi.
    destruct (Hok i vi) as (d & Hgen & Hndd & Hd); [left|].
    assert (Hok' : branch_ok fl).
    { intros i' vi' Hin. apply (Hok i' vi'). by right. }
    destruct (IH (dupdate (dset (pre ++ [i]) vi fp) d) Hnd Hok')
      as (E' & Hrun & HndE' & HE').
    exists (((pre ++ [i], vi) :: d) ++ E').
    assert (Hkey_d : forall k, k ∈ dkeys d ->
              exists ext', ext' <> [] /\ k = pre ++ i :: ext').
    { intros k ([k' v] & -> & Hin)%list_elem_of_fmap. simpl.
      apply Hd in Hin as (ext' & Hne & -> & _). exists ext'.
      split; [done|]. by rewrite <- app_assoc. }
    assert (Hkey_E' : forall k, k ∈ dkeys E' ->
              exists i' ext', i' ∈ fst <$> fl /\ k = pre ++ i' :: ext').
    { intros k ([k' v] & -> & Hin)%list_elem_of_fmap. simpl.
      apply HE' in Hin as (i' & vi' & ext' & Hin & -> & _). exists i', ext'.
      split; [|done]. apply list_elem_of_fmap. by exists (i', vi'). }
    split; [|split].
    + cbn [for_each]. unfold body at 1. cbn [fst snd]. rewrite Hgen. simpl.
      rewrite Hrun. by rewrite dupdate_app.
    + unfold dkeys. rewrite fmap_app, fmap_cons. cbn [fst].
      apply NoDup_cons. split.
      * intros [Hin|Hin]%elem_of_app.
        -- apply Hkey_d in Hin as (ext' & Hne & Heq).
           apply app_inv_head in Heq. by injection Heq as <-.
        -- apply Hkey_E' in Hin as (i' & ext' & Hi' & Heq).
           apply app_inv_head in Heq. injection Heq as <- _. done.
      * apply NoDup_app. split; [done|]. split; [|done].
        intros k Hk1 Hk2.
        apply Hkey_d in Hk1 as (ext1 & _ & ->).
        apply Hkey_E' in Hk2 as (i' & ext2 & Hi' & Heq).
        apply app_inv_head in Heq. injection Heq as <- _. done.
    + intros k v. rewrite elem_of_app, elem_of_cons, Hd, HE'. split.
      * intros [[[= -> ->]|(ext' & Hne & -> & Hs)]|(i' & vi' & ext' & Hin & ? & ?)].
        -- exists i, vi, []. split; [left|]. split; [done|]. by left.
        -- exists i, vi, ext'. split; [left|].
           split; [by rewrite <- app_assoc|]. by right.
        -- exists i', vi', ext'. split; [by right | done].
      * intros (i' & vi' & ext' & [[= -> ->]|Hin]%elem_of_cons & -> & Hcase).
        -- left. destruct Hcase as [[-> ->]|[Hne Hs]]; [by left|].
           right. exists ext'. split; [done|]. split; [|done].
           by rewrite <- app_assoc.
        -- right. by exists i', vi', ext'.
Qed.
End miner_loop.

Lemma NoDup_dkeys_filter {K V} (P : K * V -> Prop) `{forall x, Decision (P x)}
    (d : dict K V) :
  NoDup (dkeys d) -> NoDup (dkeys (filter P d)).
Proof.
  intros Hnd. eapply sublist_NoDup; [exact Hnd|].
  unfold dkeys. apply fmap_sublist, sublist_filter.
Qed.

(** What [genFreqPatterns] returns on a tree built from ascending
    transactions with positive counts: one entry per frequent itemset that
    has [r] as its highest rank and at least one more rank, keyed by
    [pre] followed by the other ranks in descending order, holding the
    support of the itemset. *)
Lemma genFreqPatterns_spec minSup fuel l r pre :
  Forall (fun txc : list nat * Z => StronglySorted lt (fst txc)) l ->
  Forall (fun txc : list nat * Z => 0 < snd txc) l ->
  r ∈ dkeys (nodeLink (insert_all l new_Tree)) ->
  (r < fuel)%nat ->
  exists d,
    genFreqPatterns minSup fuel r pre (insert_all l new_Tree) = Ok d
    /\ NoDup (dkeys d)
    /\ forall k v, (k, v) ∈ d <->
         exists ext, ext <> [] /\ k = pre ++ ext /\ mined minSup l r ext v.
Proof.
  revert l r pre. induction fuel as [|fuel IH]; intros l r pre Hl Hpos Hr Hlt; [lia|].
  cbn [genFreqPatterns]. rewrite (generateConditionalTree_Ok _ _ Hr). cbn [bind].
  set (l' := cond_base (insert_all l new_Tree) r).
  pose proof (cond_base_Forall_sorted l r Hl) as Hl'. fold l' in Hl'.
  pose proof (cond_base_positive l r Hpos) as Hpos'. fold l' in Hpos'.
  destruct (link_totals_insert_all l' Hl') as [Hndt Htot].
  set (fi := filter (fun kv : nat * Z => meets_minSup minSup (snd kv) = true)
                    (link_totals (insert_all l' new_Tree))).
  assert (Hfi : forall i vi, (i, vi) ∈ fi <->
            (Exists (fun txc : list nat * Z => i ∈ fst txc) l'
             /\ vi = wsupp l' [i] /\ meets_minSup minSup vi = true)).
  { intros i vi. unfold fi. rewrite list_elem_of_filter, Htot. simpl. tauto. }
  destruct (genFreqPatterns_loop minSup fuel pre (insert_all l' new_Tree)
              (fun i ext' v => mined minSup l' i ext' v) fi [])
    as (E & Hrun & HndE & HE).
  - apply (NoDup_dkeys_filter _ _ Hndt).
  - intros i vi Hin. apply Hfi in Hin as (Hex & _ & _).
    apply IH; [done | done | by apply nodeLink_keys_insert_all |].
    assert ((i < r)%nat); [|lia].
    apply (cond_tree_keys_lt l r i Hl). by apply nodeLink_keys_insert_all.
  - exists E. split; [|split; [done|]].
    + etrans; [exact Hrun|]. f_equal. by apply dict_of_NoDup.
    + intros k v. rewrite HE. split.
      * intros (i & vi & ext' & Hin & -> & Hcase). exists (i :: ext').
        split; [done|]. split; [done|].
        apply (mined_step minSup l r (i :: ext') v Hl Hpos).
        exists i, vi, ext'. split; [by apply Hfi | done].
      * intros (ext & Hne & -> & Hm).
        destruct (proj2 (mined_step minSup l r ext v Hl Hpos) (conj Hne Hm))
          as (i & vi & ext' & Hin & -> & Hcase).
        exists i, vi, ext'. split; [by apply Hfi | done].
Qed.

(** A loop that merges the dictionaries of independent branches whose keys
    tell the branches apart. *)
Lemma for_each_dupdate_blocks {A K V} `{EqDecision K}
    (gen : A -> res (dict K V)) (belongs : K -> A -> Prop) (rl : list A)
    (fp : dict K V) :
  (forall k a a', belongs k a -> belongs k a' -> a = a') ->
  NoDup rl ->
  (forall a, a ∈ rl ->
     exists d, gen a = Ok d /\ NoDup (dkeys d)
               /\ forall k, k ∈ dkeys d -> belongs k a) ->
  exists E,
    for_each (fun fp a => let* sub := gen a in Ok (dupdate fp sub)) fp rl
    = Ok (dupdate fp E)
    /\ NoDup (dkeys E)
    /\ (forall kv, kv ∈ E <-> exists a d, a ∈ rl /\ gen a = Ok d /\ kv ∈ d).
Proof.
  intros Hfun. revert fp. induction rl as [|a rl IH]; intros fp Hnd Hgen.
  - exists []. split; [done|]. split; [apply NoDup_nil_2|].
    intros kv. split; [by intros ?%elem_of_nil|].
    intros (a & d & Hin & _). by apply elem_of_nil in Hin.
  - apply NoDup_cons in Hnd as [Ha Hnd].
    destruct (Hgen a) as (d & Hd & Hndd & Hbel); [left|].
    destruct (IH (dupdate fp d) Hnd) as (E & Hrun & HndE & HE).
    { intros a' Ha'. apply Hgen. by right. }
    exists (d ++ E). split; [|split].
    + cbn [for_each]. rewrite Hd. cbn [bind]. rewrite Hrun.
      by rewrite dupdate_app.
    + unfold dkeys. rewrite fmap_app. apply NoDup_app. split; [done|].
      split; [|done]. intros k Hk1 Hk2. apply Hbel in Hk1.
      apply list_elem_of_fmap in Hk2 as (kv & -> & Hkv).
      apply HE in Hkv as (a' & d' & Ha' & Hd' & Hkv).
      destruct (Hgen a') as (d'' & Hd'' & _ & Hbel'); [by right|].
      assert (d'' = d') as -> by congruence.
      assert (a = a'); [|by subst].
      apply (Hfun (fst kv)); [done|]. apply Hbel'.
      apply list_elem_of_fmap. by exists kv.
    + intros kv. rewrite elem_of_app, HE. split.
      * intros [Hkv|(a' & d' & Ha' & Hd' & Hkv)].
        -- exists a, d. split; [left | done].
        -- exists a', d'. split; [by right | done].
      * intros (a' & d' & [->|Ha']%elem_of_cons & Hd' & Hkv).
        -- left. congruence.
        -- right. by exists a', d'.
Qed.

Lemma itemCount_keys_insert_all l r :
  r ∈ dkeys (itemCount (insert_all l new_Tree))
  <-> Exists (fun txc : list nat * Z => r ∈ fst txc) l.
Proof.
  rewrite <- dget_is_Some, dget_itemCount_insert_all.
  case_decide; [by split|]. simpl. split; [by intros [? ?] | done].
Qed.

Lemma NoDup_itemCount_insert_all l :
  NoDup (dkeys (itemCount (insert_all l new_Tree))).
Proof.
  destruct (wf_insert_all l new_Tree _ wf_new_Tree) as [paths Hwf].
  rewrite (wf_count _ _ Hwf).
  rewrite (dkeys_fmap_snd
    (fun refs => Zsum ((fun id => count (node_at (heap (insert_all l new_Tree)) id))
                         <$> refs))).
  apply Hwf.
Qed.

(** What one partition emits: the frequent itemsets of at least two ranks
    whose highest rank the partition owns, each once, keyed by its ranks
    in descending order. *)
Lemma genAllFrequentPatterns_spec minSup numPartitions p l :
  numPartitions <> 0 ->
  Forall (fun txc : list nat * Z => StronglySorted lt (fst txc)) l ->
  Forall (fun txc : list nat * Z => 0 < snd txc) l ->
  exists d,
    genAllFrequentPatterns minSup numPartitions (p, insert_all l new_Tree) = Ok d
    /\ NoDup (dkeys d)
    /\ forall k v, (k, v) ∈ d <->
         exists r ext,
           ext <> [] /\ k = r :: ext /\ owner numPartitions r = p
           /\ mined minSup l r ext v.
Proof.
  intros Hnp Hl Hpos. set (T := insert_all l new_Tree).
  rewrite (genAllFrequentPatterns_mined_ranks minSup numPartitions p T Hnp).
  pose proof (mined_ranks_elem numPartitions p T) as Hmr.
  assert (Hspec : forall r, r ∈ mined_ranks numPartitions p T ->
            exists d,
              genFreqPatterns minSup (S r) r [r] T = Ok d
              /\ NoDup (dkeys d)
              /\ forall k v, (k, v) ∈ d <->
                   exists ext, ext <> [] /\ k = [r] ++ ext /\ mined minSup l r ext v).
  { intros r [Hr _]%Hmr. apply genFreqPatterns_spec; [done | done | | lia].
    apply nodeLink_keys_insert_all. by apply itemCount_keys_insert_all. }
  destruct (for_each_dupdate_blocks
              (fun it => genFreqPatterns minSup (S it) it [it] T)
              (fun k a => head k = Some a) (mined_ranks numPartitions p T) [])
    as (E & Hrun & HndE & HE).
  - intros k a a' H1 H2. congruence.
  - unfold mined_ranks. apply NoDup_filter.
    rewrite (sorted_by_perm snd (itemCount T)). apply NoDup_itemCount_insert_all.
  - intros r Hr. destruct (Hspec r Hr) as (d & Hd & Hnd & Hmem).
    exists d. split; [done|]. split; [done|].
    intros k ([k' v] & -> & Hin)%list_elem_of_fmap.
    apply Hmem in Hin as (ext & _ & -> & _). done.
  - exists E. split; [|split; [done|]].
    + etrans; [exact Hrun|]. f_equal. by apply dict_of_NoDup.
    + intros k v. rewrite HE. split.
      * intros (r & d & Hr & Hd & Hin).
        destruct (Hspec r Hr) as (d' & Hd' & _ & Hmem).
        assert (d' = d) as -> by congruence.
        apply Hmem in Hin as (ext & Hne & -> & Hm).
        exists r, ext. split; [done|]. split; [done|]. split; [|done].
        by apply Hmr in Hr as [_ ?].
      * intros (r & ext & Hne & -> & Hown & Hm).
        assert (Hr : r ∈ mined_ranks numPartitions p T).
        { apply Hmr. split; [|done]. apply itemCount_keys_insert_all.
          destruct Hm as (_ & Hv & Hv0 & _). rewrite Hv in Hv0.
          apply (wsupp_pos _ _ Hpos) in Hv0.
          eapply Exists_impl; [exact Hv0|]. simpl. intros txc Hsub.
          apply Hsub. left. }
        destruct (Hspec r Hr) as (d & Hd & _ & Hmem).
        exists r, d. split; [done|]. split; [done|].
        apply Hmem. by exists ext.
Qed.

(** * The driver *)

(** ** Counting the items *)

Lemma support_nil {A} `{EqDecision A} (S : list A) : support [] S = 0.
Proof. done. Qed.

Lemma support_cons {A} `{EqDecision A} (t : list A) rdd S :
  support (t :: rdd) S = (if decide (S ⊆ t) then 1 else 0) + support rdd S.
Proof. done. Qed.

Lemma support_positive {A} (rdd : list (list A)) :
  Forall (fun txc : list A * Z => 0 < snd txc) ((fun t => (t, 1)) <$> rdd).
Proof. apply Forall_fmap, Forall_forall. intros t _. simpl. lia. Qed.

Lemma singleton_subseteq {A} (a : A) (t : list A) : [a] ⊆ t <-> a ∈ t.
Proof.
  split; [intros H; apply H; left | by intros H x ->%list_elem_of_singleton].
Qed.

Lemma count_transaction (t : list string) (d : dict string Z) a :
  NoDup t ->
  dget a (foldl (fun d it => dset it (default 0 (dget it d) + 1) d) d t)
  = if decide (a ∈ t) then Some (default 0 (dget a d) + 1) else dget a d.
Proof.
  revert d. induction t as [|x t IH]; intros d Hnd; cbn [foldl].
  - rewrite decide_False; [done | apply not_elem_of_nil].
  - apply NoDup_cons in Hnd as [Hx Hnd]. rewrite (IH _ Hnd), dget_dset.
    destruct (decide (a = x)) as [->|Hne].
    + rewrite decide_False by done. rewrite decide_True by left. done.
    + destruct (decide (a ∈ t)) as [Hin|Hin].
      * rewrite decide_True by (by right). done.
      * rewrite decide_False; [done|]. by intros [?|?]%elem_of_cons.
Qed.

Lemma count_transaction_keys (t : list string) (d : dict string Z) :
  NoDup (dkeys d) ->
  NoDup (dkeys (foldl (fun d it => dset it (default 0 (dget it d) + 1) d) d t)).
Proof.
  revert d. induction t as [|x t IH]; intros d Hnd; cbn [foldl]; [done|].
  apply IH. by apply NoDup_dkeys_dset.
Qed.

Lemma count_transactions (rdd : list (list string)) (d : dict string Z) a :
  Forall NoDup rdd ->
  dget a (foldl (fun d it => dset it (default 0 (dget it d) + 1) d) d (concat rdd))
  = if decide (Exists (fun t => a ∈ t) rdd)
    then Some (default 0 (dget a d) + support rdd [a])
    else dget a d.
Proof.
  intros Hnd. revert d. induction Hnd as [|t rdd Ht Hrdd IH]; intros d.
  - cbn [concat foldl]. rewrite decide_False; [done|]. by intros ?%Exists_nil.
  - cbn [concat]. rewrite foldl_app, IH, (count_transaction _ _ _ Ht), support_cons.
    destruct (decide (a ∈ t)) as [Hin|Hin].
    + rewrite (decide_True (P := Exists _ (_ :: _))) by (by left).
      rewrite (decide_True (P := [a] ⊆ t)) by (by apply singleton_subseteq). simpl.
      case_decide; f_equal; [lia|].
      assert (support rdd [a] = 0) as ->; [|lia].
      clear IH Hrdd. induction rdd as [|t' rdd IHr]; [done|].
      rewrite support_cons, IHr.
      * rewrite decide_False; [done|]. intros Hs%singleton_subseteq.
        apply H. by left.
      * intros ?. apply H. by right.
    + rewrite (decide_False (P := [a] ⊆ t)) by (by rewrite singleton_subseteq).
      destruct (decide (Exists (fun t => a ∈ t) rdd)) as [Hex|Hex].
      * rewrite decide_True by (by right). f_equal.
      * rewrite decide_False; [done|]. by intros [?|?]%Exists_cons.
Qed.

(** [itemCounts] holds one entry per item of the input, with the number
    of transactions that contain it. *)
Lemma itemCounts_spec (rdd : list (list string)) :
  Forall NoDup rdd ->
  NoDup (dkeys (itemCounts rdd))
  /\ forall a c, (a, c) ∈ itemCounts rdd <->
       Exists (fun t => a ∈ t) rdd /\ c = support rdd [a].
Proof.
  intros Hnd.
  assert (Hk : NoDup (dkeys (itemCounts rdd))).
  { apply count_transaction_keys, NoDup_nil_2. }
  split; [done|]. intros a c.
  assert (Hget : (a, c) ∈ itemCounts rdd <-> dget a (itemCounts rdd) = Some c).
  { split; [by apply elem_dget | apply dget_Some_elem]. }
  rewrite Hget. unfold itemCounts. rewrite (count_transactions _ _ _ Hnd).
  case_decide; simpl.
  - split; [intros [= <-]; split; [done | lia] | intros [_ ->]; f_equal; lia].
  - split; [done | tauto].
Qed.

(** ** Frequent items and ranks *)

Lemma ge_pyval_numeric x v :
  numeric v -> ge_pyval x v = Ok (meets_minSup (as_Q v) x).
Proof. by destruct v as [z|[]|s|b|]. Qed.

Lemma filter_minSup_numeric v (d : dict string Z) :
  numeric v ->
  filter_minSup v d
  = Ok (filter (fun x => meets_minSup (as_Q v) (snd x) = true) d).
Proof.
  intros Hv. unfold filter_minSup.
  assert (Hgen : forall acc,
    for_each (fun acc x => let* b := ge_pyval (snd x) v in
                           Ok (if b : bool then acc ++ [x] else acc)) acc d
    = Ok (acc ++ filter (fun x => meets_minSup (as_Q v) (snd x) = true) d)).
  { induction d as [|x d IH]; intros acc; cbn [for_each].
    - by rewrite app_nil_r.
    - rewrite (ge_pyval_numeric _ _ Hv). cbn [bind]. rewrite IH, filter_cons.
      destruct (meets_minSup (as_Q v) (snd x)) eqn:E.
      + rewrite decide_True by done. by rewrite <- app_assoc.
      + rewrite decide_False by done. done. }
  apply (Hgen []).
Qed.

Section engine.
(** The order in which the engine delivers the sorted counts in the run
    under study. *)
Variable sortBy : dict string Z -> dict string Z.
Hypothesis sortBy_sorts : sorts_desc sortBy.

Lemma sortBy_perm (d : dict string Z) : sortBy d ≡ₚ d.
Proof. apply sortBy_sorts. Qed.

Lemma freqItems_spec thr (rdd : list (list string)) :
  Forall NoDup rdd ->
  NoDup (FPList_of sortBy thr rdd)
  /\ forall a c, (a, c) ∈ freqItems_of sortBy thr rdd <->
       Exists (fun t => a ∈ t) rdd /\ c = support rdd [a]
       /\ meets_minSup thr c = true.
Proof.
  intros Hnd. destruct (itemCounts_spec rdd Hnd) as [Hk Hmem].
  unfold FPList_of, freqItems_of. split.
  - rewrite sortBy_perm. by apply (NoDup_dkeys_filter _ _ Hk).
  - intros a c. rewrite sortBy_perm, list_elem_of_filter, Hmem. simpl. tauto.
Qed.

Lemma FPList_elem thr (rdd : list (list string)) a :
  Forall NoDup rdd ->
  a ∈ FPList_of sortBy thr rdd <->
  Exists (fun t => a ∈ t) rdd /\ meets_minSup thr (support rdd [a]) = true.
Proof.
  intros Hnd. destruct (freqItems_spec thr rdd Hnd) as [_ Hmem].
  unfold FPList_of. rewrite list_elem_of_fmap. split.
  - intros ([a' c] & -> & Hin). apply Hmem in Hin as (? & -> & ?). done.
  - intros [Hex Hm]. exists (a, support rdd [a]). split; [done|].
    by apply Hmem.
Qed.

Lemma fst_imap_swap {A} (l : list A) (n : nat) :
  fst <$> imap (fun index it => (it, (n + index)%nat)) l = l.
Proof.
  revert n. induction l as [|x l IH]; intros n; [done|].
  rewrite imap_cons. csimpl. f_equal.
  rewrite <- (IH (S n)) at 2. f_equal. apply imap_ext. intros; simpl.
  f_equal. lia.
Qed.

(** [rank[item]] is the position of [item] in [FPList]. *)
Lemma rank_of_spec (FPList : list string) a i :
  NoDup FPList ->
  dget a (rank_of FPList) = Some i <-> FPList !! i = Some a.
Proof.
  intros Hnd. unfold rank_of.
  assert (Hk : dkeys (imap (fun index it => (it, index)) FPList) = FPList).
  { apply (fst_imap_swap FPList 0). }
  rewrite dict_of_NoDup by (by rewrite Hk).
  assert (Hnd' : NoDup (dkeys (imap (fun index (it : string) => (it, index)) FPList)))
    by (by rewrite Hk).
  split.
  - intros Hg%dget_Some_elem.
    apply elem_of_lookup_imap in Hg as (j & y & [= -> ->] & Hy). done.
  - intros Hi. apply (elem_dget _ _ _ Hnd').
    apply elem_of_lookup_imap. by exists i, a.
Qed.

(** ** Ranked transactions *)

Lemma NoDup_omap {A B} (f : A -> option B) (l : list A) :
  (forall x y z, f x = Some z -> f y = Some z -> x = y) ->
  NoDup l -> NoDup (omap f l).
Proof.
  intros Hinj. induction 1 as [|x l Hx Hnd IH]; csimpl; [apply NoDup_nil_2|].
  destruct (f x) as [z|] eqn:Hfx; [|done].
  apply NoDup_cons. split; [|done].
  intros (y & Hy & Hfy)%list_elem_of_omap.
  assert (x = y) as -> by (by eapply Hinj). done.
Qed.

Lemma StronglySorted_le_lt (l : list nat) :
  StronglySorted le l -> NoDup l -> StronglySorted lt l.
Proof.
  induction 1 as [|x l Hs IH Hall]; intros Hnd; [constructor|].
  apply NoDup_cons in Hnd as [Hx Hnd]. constructor; [by apply IH|].
  rewrite Forall_forall in *. intros y Hy. specialize (Hall y Hy).
  assert (x <> y) by (by intros ->). lia.
Qed.

Lemma newTrans_of_spec (FPList t : list string) :
  NoDup FPList -> NoDup t ->
  StronglySorted lt (newTrans_of t (rank_of FPList))
  /\ forall i, i ∈ newTrans_of t (rank_of FPList) <->
               exists a, a ∈ t /\ FPList !! i = Some a.
Proof.
  intros HF Ht.
  assert (Hmem : forall i, i ∈ newTrans_of t (rank_of FPList) <->
                           exists a, a ∈ t /\ FPList !! i = Some a).
  { intros i. unfold newTrans_of. rewrite sorted_by_perm, list_elem_of_omap.
    by setoid_rewrite (rank_of_spec FPList _ i HF). }
  split; [|done].
  apply StronglySorted_le_lt; [apply newTrans_of_sorted|].
  unfold newTrans_of. rewrite sorted_by_perm. apply NoDup_omap; [|done].
  intros x y z Hx%(rank_of_spec _ _ _ HF) Hy%(rank_of_spec _ _ _ HF). congruence.
Qed.

(** ** Collecting and grouping *)

Lemma for_each_collect {A B} (g : A -> res (list B)) (l : list A) (acc : list B) :
  (forall a, a ∈ l -> exists b, g a = Ok b) ->
  for_each (fun acc x => let* ct := g x in Ok (acc ++ ct)) acc l
  = Ok (acc ++ concat ((fun a => unres [] (g a)) <$> l)).
Proof.
  revert acc. induction l as [|a l IH]; intros acc Hg; cbn [for_each].
  - csimpl. by rewrite app_nil_r.
  - destruct (Hg a) as [b Hb]; [left|]. rewrite Hb. cbn [bind].
    rewrite IH by (intros a' Ha'; apply Hg; by right).
    csimpl. rewrite Hb. simpl. by rewrite <- app_assoc.
Qed.

Lemma groupByKey_snoc (pairs : list (Z * list nat)) kv :
  groupByKey (pairs ++ [kv])
  = dset (fst kv) (default [] (dget (fst kv) (groupByKey pairs)) ++ [snd kv])
         (groupByKey pairs).
Proof. unfold groupByKey. by rewrite foldl_app. Qed.

(** [groupByKey]: one entry per key present, holding the values of that
    key in input order. *)
Lemma groupByKey_spec (pairs : list (Z * list nat)) :
  NoDup (dkeys (groupByKey pairs))
  /\ forall p,
       dget p (groupByKey pairs)
       = let g := snd <$> filter (fun kv => fst kv = p) pairs in
         if decide (g = []) then None else Some g.
Proof.
  induction pairs as [|kv pairs [IHk IH]] using rev_ind.
  - split; [apply NoDup_nil_2|]. intros p. cbn zeta.
    rewrite filter_nil. by rewrite decide_True.
  - rewrite groupByKey_snoc. split; [by apply NoDup_dkeys_dset|].
    intros p. cbn zeta. rewrite dget_dset, filter_app, fmap_app.
    destruct (decide (p = fst kv)) as [->|Hne].
    + assert (Hf : filter (fun kv0 : Z * list nat => fst kv0 = fst kv) [kv] = [kv]).
      { rewrite filter_cons. by rewrite decide_True. }
      rewrite Hf. csimpl.
      rewrite decide_False by (by intros [? ?]%app_eq_nil).
      f_equal. f_equal. rewrite IH. cbn zeta.
      case_decide as E; [by rewrite E | done].
    + assert (Hf : filter (fun kv0 : Z * list nat => fst kv0 = p) [kv] = []).
      { rewrite filter_cons. rewrite decide_False; [done|]. by intros <-. }
      rewrite Hf. csimpl. rewrite app_nil_r. apply IH.
Qed.

Lemma filter_key_NoDup {V} (d : dict Z V) p :
  NoDup (dkeys d) ->
  filter (fun kv => fst kv = p) d
  = match dget p d with Some v => [(p, v)] | None => [] end.
Proof.
  induction d as [|[k v] d IH]; csimpl; [done|].
  intros [Hk Hnd]%NoDup_cons. rewrite filter_cons. simpl.
  destruct (decide (k = p)) as [->|Hne].
  - rewrite decide_True by done. f_equal.
    rewrite (IH Hnd). apply dget_None in Hk. by rewrite Hk.
  - rewrite decide_False by done. by apply IH.
Qed.

(** ** What a partition receives *)

Lemma genCondTransaction_dget numPartitions t rank :
  numPartitions <> 0 ->
  exists ct,
    genCondTransaction numPartitions t rank = Ok ct
    /\ NoDup (dkeys ct)
    /\ forall p,
         dget p ct
         = (fun r => take (index r (newTrans_of t rank) + 1) (newTrans_of t rank))
             <$> first_owned numPartitions p (reverse (newTrans_of t rank)).
Proof.
  intros Hnp.
  destruct (project_loop numPartitions Hnp (newTrans_of t rank)
              (reverse (newTrans_of t rank)) []) as (ct & Hrun & Hnd & Hget).
  exists ct. split; [exact Hrun|]. split; [apply Hnd, NoDup_nil_2|].
  intros p. by rewrite Hget.
Qed.

(** For an itemset whose highest rank [r] is owned by [p], the projection
    sent to [p] holds the itemset exactly when the transaction does. *)
Lemma projection_support numPartitions t rank p r ext :
  numPartitions <> 0 ->
  StronglySorted lt (newTrans_of t rank) ->
  owner numPartitions r = p ->
  StronglySorted gt (r :: ext) ->
  wsupp ((fun tx => (tx, 1)) <$>
           (snd <$> filter (fun kv => fst kv = p)
                      (unres [] (genCondTransaction numPartitions t rank))))
        (r :: ext)
  = if decide (r :: ext ⊆ newTrans_of t rank) then 1 else 0.
Proof.
  intros Hnp Hs Hown Hdesc.
  destruct (genCondTransaction_dget numPartitions t rank Hnp)
    as (ct & -> & Hnd & Hget).
  cbn [unres]. rewrite (filter_key_NoDup _ _ Hnd), Hget.
  set (T := newTrans_of t rank) in *.
  assert (Hle : StronglySorted le T).
  { eapply StronglySorted_mono; [|exact Hs]. intros; lia. }
  destruct (first_owned numPartitions p (reverse T)) as [m|] eqn:Hf; csimpl.
  - destruct (first_owned_reverse_max _ _ _ _ Hle Hf) as (Hm & Hmown & Hmax).
    rewrite wsupp_cons, wsupp_nil, Z.add_0_r.
    assert (Hiff : r :: ext ⊆ take (index m T + 1) T <-> r :: ext ⊆ T).
    { split.
      - intros Hsub x Hx. apply Hsub in Hx.
        rewrite <- (take_drop (index m T + 1) T). apply elem_of_app. by left.
      - intros Hsub x Hx.
        assert (Hr : r ∈ T) by (apply Hsub; left).
        assert (Hxr : (x <= r)%nat).
        { apply elem_of_cons in Hx as [->|Hx]; [lia|].
          apply StronglySorted_cons in Hdesc as [Hall _].
          rewrite Forall_forall in Hall. apply Hall in Hx. lia. }
        pose proof (Hmax r Hr Hown) as Hrm.
        rewrite (take_index_snoc _ _ Hm). apply elem_of_app.
        destruct (decide (x = m)) as [->|Hne]; [right; left|].
        left. apply (sorted_before T m x Hs Hm); [by apply Hsub | lia]. }
    repeat case_decide; tauto || done.
  - rewrite wsupp_nil. rewrite decide_False; [done|].
    intros Hsub. apply (proj1 (first_owned_None _ _ _) Hf r); [|done].
    apply elem_of_reverse. apply Hsub. left.
Qed.

Lemma group_support numPartitions (rdd : list (list string)) rank p r ext :
  numPartitions <> 0 ->
  Forall (fun t => StronglySorted lt (newTrans_of t rank)) rdd ->
  owner numPartitions r = p ->
  StronglySorted gt (r :: ext) ->
  wsupp ((fun tx => (tx, 1)) <$>
           (snd <$> filter (fun kv => fst kv = p)
              (concat ((fun t => unres [] (genCondTransaction numPartitions t rank))
                         <$> rdd))))
        (r :: ext)
  = wsupp ((fun tx => (tx, 1)) <$> ((fun t => newTrans_of t rank) <$> rdd))
          (r :: ext).
Proof.
  intros Hnp Hs Hown Hdesc. induction Hs as [|t rdd Ht Hrdd IH]; [done|].
  csimpl. rewrite filter_app, !fmap_app, wsupp_app, IH, wsupp_cons.
  f_equal. by apply projection_support.
Qed.

Lemma elem_of_concat {A} (x : A) (ls : list (list A)) :
  x ∈ concat ls <-> exists l, x ∈ l /\ l ∈ ls.
Proof.
  induction ls as [|l ls IH]; simpl.
  - split; [by intros ?%elem_of_nil | by intros (l & _ & ?%elem_of_nil)].
  - rewrite elem_of_app, IH. split.
    + intros [?|(l' & ? & ?)]; [exists l; split; [done | left]|].
      exists l'. split; [done | by right].
    + intros (l' & Hx & [->|?]%elem_of_cons); [by left|]. right. by exists l'.
Qed.

Lemma NoDup_concat_blocks {A B K V} (f : A -> dict K V) (key : A -> B)
    (belongs : K -> B -> Prop) (l : list A) :
  (forall k b b', belongs k b -> belongs k b' -> b = b') ->
  NoDup (key <$> l) ->
  (forall a, a ∈ l ->
     NoDup (dkeys (f a)) /\ forall k, k ∈ dkeys (f a) -> belongs k (key a)) ->
  NoDup (dkeys (concat (f <$> l))).
Proof.
  intros Hfun. induction l as [|a l IH]; intros Hnd Hblk; csimpl.
  - apply NoDup_nil_2.
  - apply NoDup_cons in Hnd as [Ha Hnd].
    unfold dkeys. rewrite fmap_app. apply NoDup_app.
    destruct (Hblk a) as [Hnda Hbel]; [left|].
    split; [done|]. split.
    + intros k Hk1 Hk2. apply Hbel in Hk1.
      apply list_elem_of_fmap in Hk2 as (kv & -> & Hkv).
      apply elem_of_concat in Hkv as (d & Hkv & Hd).
      apply list_elem_of_fmap in Hd as (a' & -> & Ha').
      destruct (Hblk a') as [_ Hbel']; [by right|].
      apply Ha. replace (key a) with (key a').
      * apply list_elem_of_fmap. by exists a'.
      * apply (Hfun (fst kv)); [|done]. apply Hbel'.
        apply list_elem_of_fmap. by exists kv.
    + apply IH; [done|]. intros a' Ha'. apply Hblk. by right.
Qed.

Lemma buildTree_insert_all (g : list (list nat)) :
  buildTree new_Tree g = insert_all ((fun tx => (tx, 1)) <$> g) new_Tree.
Proof. unfold buildTree, insert_all. by rewrite foldl_fmap. Qed.

Lemma StronglySorted_take {A} (R : A -> A -> Prop) (l : list A) n :
  StronglySorted R l -> StronglySorted R (take n l).
Proof.
  intros Hs. rewrite <- (take_drop n l) in Hs.
  by apply StronglySorted_app in Hs as (_ & ? & _).
Qed.

Lemma projections_sorted numPartitions (rdd : list (list string)) rank kv :
  numPartitions <> 0 ->
  Forall (fun t => StronglySorted lt (newTrans_of t rank)) rdd ->
  kv ∈ concat ((fun t => unres [] (genCondTransaction numPartitions t rank)) <$> rdd) ->
  StronglySorted lt (snd kv).
Proof.
  intros Hnp Hs (d & Hkv & Hd)%elem_of_concat.
  apply list_elem_of_fmap in Hd as (t & -> & Ht).
  rewrite Forall_forall in Hs. specialize (Hs t Ht).
  destruct (genCondTransaction_dget numPartitions t rank Hnp)
    as (ct & Hct & Hnd & Hget).
  rewrite Hct in Hkv. cbn [unres] in Hkv. destruct kv as [p proj].
  apply (elem_dget _ _ _ Hnd) in Hkv. rewrite Hget in Hkv.
  destruct (first_owned numPartitions p _) as [m|]; [|done].
  injection Hkv as <-. by apply StronglySorted_take.
Qed.

Lemma groupByKey_elem (pairs : list (Z * list nat)) p g :
  (p, g) ∈ groupByKey pairs <->
  g = snd <$> filter (fun kv => fst kv = p) pairs /\ g <> [].
Proof.
  destruct (groupByKey_spec pairs) as [Hk Hget].
  assert (Hiff : (p, g) ∈ groupByKey pairs <-> dget p (groupByKey pairs) = Some g).
  { split; [by apply elem_dget | apply dget_Some_elem]. }
  rewrite Hiff, Hget. cbn zeta. case_decide as E.
  - split; [done|]. intros [-> Hne]. done.
  - split; [intros [= <-]; done | intros [-> _]; done].
Qed.

(** The patterns emitted by all the partitions together. *)
Lemma partitions_spec thr numPartitions (pairs : list (Z * list nat)) :
  numPartitions <> 0 ->
  (forall kv, kv ∈ pairs -> StronglySorted lt (snd kv)) ->
  exists fps,
    for_each (fun acc tree_tuple =>
                let* fp := genAllFrequentPatterns thr numPartitions tree_tuple in
                Ok (acc ++ fp))
             [] ((fun kv => (fst kv, buildTree new_Tree (snd kv))) <$> groupByKey pairs)
    = Ok fps
    /\ NoDup (dkeys fps)
    /\ forall k v, (k, v) ∈ fps <->
         exists r ext,
           ext <> [] /\ k = r :: ext
           /\ mined thr
                ((fun tx => (tx, 1)) <$>
                   (snd <$> filter (fun kv => fst kv = owner numPartitions r) pairs))
                r ext v.
Proof.
  intros Hnp Hsorted.
  set (trees := (fun kv => (fst kv, buildTree new_Tree (snd kv))) <$> groupByKey pairs).
  set (lp := fun p : Z =>
               (fun tx : list nat => (tx, 1)) <$>
                 (snd <$> filter (fun kv : Z * list nat => fst kv = p) pairs)).
  assert (Hlp_sorted : forall p,
            Forall (fun txc : list nat * Z => StronglySorted lt (fst txc)) (lp p)).
  { intros p. unfold lp. apply Forall_fmap, Forall_fmap, Forall_forall.
    intros kv [_ Hkv]%list_elem_of_filter. simpl. by apply Hsorted. }
  assert (Hlp_pos : forall p, Forall (fun txc : list nat * Z => 0 < snd txc) (lp p)).
  { intros p. apply support_positive. }
  assert (Htree : forall tt, tt ∈ trees ->
            snd tt = insert_all (lp (fst tt)) new_Tree /\ lp (fst tt) <> []).
  { intros tt ([p g] & -> & [-> Hne]%groupByKey_elem)%list_elem_of_fmap.
    cbn [fst snd]. rewrite buildTree_insert_all. split; [done|].
    unfold lp. intros Heq%fmap_nil_inv. done. }
  assert (Hgen : forall tt, tt ∈ trees ->
            exists d,
              genAllFrequentPatterns thr numPartitions tt = Ok d
              /\ NoDup (dkeys d)
              /\ forall k v, (k, v) ∈ d <->
                   exists r ext,
                     ext <> [] /\ k = r :: ext /\ owner numPartitions r = fst tt
                     /\ mined thr (lp (fst tt)) r ext v).
  { intros [p tree] Htt. destruct (Htree _ Htt) as [Heq _]. cbn [fst snd] in *.
    subst tree. by apply genAllFrequentPatterns_spec. }
  rewrite for_each_collect.
  2:{ intros tt Htt. destruct (Hgen tt Htt) as (d & -> & _). by eexists. }
  eexists. split; [reflexivity|]. rewrite app_nil_l. split.
  - apply (NoDup_concat_blocks _ fst
             (fun k p => exists r ext, k = r :: ext /\ owner numPartitions r = p)).
    + intros k b b' (r & ext & -> & <-) (r' & ext' & [= <- _] & <-). done.
    + unfold trees. rewrite <- list_fmap_compose.
      apply (proj1 (groupByKey_spec pairs)).
    + intros tt Htt. destruct (Hgen tt Htt) as (d & -> & Hnd & Hmem).
      cbn [unres]. split; [done|].
      intros k ([k' v] & -> & Hin)%list_elem_of_fmap.
      apply Hmem in Hin as (r & ext & _ & -> & Hown & _). by exists r, ext.
  - intros k v. rewrite elem_of_concat. split.
    + intros (d & Hkv & (tt & -> & Htt)%list_elem_of_fmap).
      destruct (Hgen tt Htt) as (d & Hd & _ & Hmem). rewrite Hd in Hkv.
      apply Hmem in Hkv as (r & ext & Hne & -> & Hown & Hm).
      exists r, ext. split; [done|]. split; [done|]. by rewrite Hown.
    + intros (r & ext & Hne & -> & Hm). fold (lp (owner numPartitions r)) in Hm.
      set (p := owner numPartitions r) in *.
      set (g := snd <$> filter (fun kv : Z * list nat => fst kv = p) pairs).
      assert (Htt : (p, buildTree new_Tree g) ∈ trees).
      { apply list_elem_of_fmap. exists (p, g). split; [done|].
        apply groupByKey_elem. split; [done|].
        intros Heq. destruct Hm as (_ & Hv & Hv0 & _).
        unfold lp in Hv. fold g in Hv. rewrite Heq in Hv. simpl in Hv.
        rewrite wsupp_nil in Hv. lia. }
      destruct (Hgen _ Htt) as (d & Hd & _ & Hmem).
      exists d. split.
      * apply Hmem. by exists r, ext.
      * apply list_elem_of_fmap. eexists. split; [|exact Htt].
        by rewrite Hd.
Qed.

(** ** Keys of the final dictionary *)

Lemma sapp_cons ch (a b : string) :
  (String ch a ++ b)%string = String ch (a ++ b)%string.
Proof. done. Qed.

Lemma sapp_nil_l (a : string) : (EmptyString ++ a)%string = a.
Proof. done. Qed.

Lemma sapp_assoc (a b c : string) :
  ((a ++ b) ++ c)%string = (a ++ (b ++ c))%string.
Proof.
  induction a as [|ch a IH]; [done|]. rewrite !sapp_cons. by rewrite IH.
Qed.

Lemma items_key_foldl (s : string) (l : list string) :
  foldl (fun s it => (s ++ (it ++ String tab EmptyString))%string) s l
  = (s ++ items_key l)%string.
Proof.
  revert s. induction l as [|x l IH] using rev_ind; intros s.
  - unfold items_key. simpl. induction s as [|ch s IHs]; [done|].
    rewrite sapp_cons. by rewrite <- IHs.
  - unfold items_key, key_of. rewrite !foldl_app. cbn [foldl].
    rewrite IH. fold (key_of (PatTuple l)). fold (items_key l).
    by rewrite sapp_assoc.
Qed.

Lemma items_key_cons x l :
  items_key (x :: l) = (x ++ String tab (items_key l))%string.
Proof.
  unfold items_key at 1. unfold key_of. cbn [foldl].
  rewrite items_key_foldl, sapp_nil_l, sapp_assoc. done.
Qed.

Lemma key_of_PatStr a : key_of (PatStr a) = items_key [a].
Proof. by rewrite items_key_cons. Qed.

Lemma tab_prefix_inj (a a' s s' : string) :
  contains tab a = false -> contains tab a' = false ->
  (a ++ String tab s)%string = (a' ++ String tab s')%string ->
  a = a' /\ s = s'.
Proof.
  revert a'. induction a as [|ch a IH]; intros a' Ha Ha' Heq.
  - destruct a' as [|ch' a'].
    + rewrite !sapp_nil_l in Heq. by injection Heq.
    + rewrite sapp_nil_l, sapp_cons in Heq. injection Heq as <- _.
      cbn [contains] in Ha'. by rewrite decide_True in Ha'.
  - destruct a' as [|ch' a'].
    + rewrite sapp_nil_l, sapp_cons in Heq. injection Heq as -> _.
      cbn [contains] in Ha. by rewrite decide_True in Ha.
    + rewrite !sapp_cons in Heq. injection Heq as -> Heq.
      cbn [contains] in Ha, Ha'. case_decide; [done|].
      destruct (IH a' Ha Ha' Heq) as [-> ->]. done.
Qed.

(** The key determines the items when no item holds a tab. *)
Lemma items_key_inj (l l' : list string) :
  Forall (fun a => contains tab a = false) l ->
  Forall (fun a => contains tab a = false) l' ->
  items_key l = items_key l' -> l = l'.
Proof.
  intros Hl. revert l'. induction Hl as [|x l Hx Hl IH]; intros l' Hl' Heq.
  - destruct Hl' as [|x' l' Hx' Hl']; [done|].
    rewrite items_key_cons in Heq. by destruct x'.
  - destruct Hl' as [|x' l' Hx' Hl'].
    + rewrite items_key_cons in Heq. by destruct x.
    + rewrite !items_key_cons in Heq.
      destruct (tab_prefix_inj _ _ _ _ Hx Hx' Heq) as [-> Hk].
      f_equal. by apply IH.
Qed.

Lemma split_tab_free sep s w : w ∈ split sep s -> contains sep w = false.
Proof.
  revert w. induction s as [|ch s IH]; intros w; cbn [split].
  - by intros ->%list_elem_of_singleton.
  - destruct (decide (ch = sep)) as [->|Hne].
    + intros [->|Hw]%elem_of_cons; [done | by apply IH].
    + destruct (split sep s) as [|w0 ws] eqn:E.
      * intros ->%list_elem_of_singleton. cbn [contains].
        rewrite decide_False; [done | by intros ->].
      * intros [->|Hw]%elem_of_cons.
        -- cbn [contains]. rewrite decide_False by (by intros ->). apply IH. left.
        -- apply IH. by right.
Qed.

(** ** From ranks back to labels *)

Lemma labels_of_valid (FPList : list string) k :
  Forall (fun i => (i < length FPList)%nat) k ->
  labels_of FPList k = Ok (lbls_of FPList k).
Proof.
  induction 1 as [|i k Hi Hk IH]; [done|].
  cbn [labels_of]. unfold lbls_of. csimpl.
  apply lookup_lt_is_Some in Hi as [a Ha]. rewrite Ha, IH. done.
Qed.

Lemma lbls_of_elem (FPList : list string) k a :
  a ∈ lbls_of FPList k <-> exists i, i ∈ k /\ FPList !! i = Some a.
Proof. unfold lbls_of. apply list_elem_of_omap. Qed.

Lemma lbls_of_NoDup (FPList : list string) k :
  NoDup FPList -> NoDup k -> NoDup (lbls_of FPList k).
Proof.
  intros HF Hk. apply NoDup_omap; [|done].
  intros i j a Hi Hj. exact (NoDup_lookup FPList i j a HF Hi Hj).
Qed.

Lemma lbls_of_inj (FPList : list string) k k' :
  NoDup FPList ->
  Forall (fun i => (i < length FPList)%nat) k ->
  Forall (fun i => (i < length FPList)%nat) k' ->
  lbls_of FPList k = lbls_of FPList k' -> k = k'.
Proof.
  intros HF Hk. revert k'. induction Hk as [|i k Hi Hk IH]; intros k' Hk' Heq.
  - destruct Hk' as [|i' k' Hi' Hk']; [done|].
    apply lookup_lt_is_Some in Hi' as [a' Ha'].
    unfold lbls_of in Heq. csimpl in Heq. by rewrite Ha' in Heq.
  - apply lookup_lt_is_Some in Hi as [a Ha].
    destruct Hk' as [|i' k' Hi' Hk'].
    + unfold lbls_of in Heq. csimpl in Heq. by rewrite Ha in Heq.
    + apply lookup_lt_is_Some in Hi' as [a' Ha'].
      unfold lbls_of in Heq. csimpl in Heq. rewrite Ha, Ha' in Heq.
      injection Heq as <- Heq.
      f_equal; [exact (NoDup_lookup FPList i i' a HF Ha Ha') | by apply IH].
Qed.

Lemma lbls_of_nonempty (FPList : list string) k :
  Forall (fun i => (i < length FPList)%nat) k -> k <> [] ->
  lbls_of FPList k <> [].
Proof.
  intros [|i k' Hi _] Hne; [done|].
  apply lookup_lt_is_Some in Hi as [a Ha]. unfold lbls_of. csimpl.
  by rewrite Ha.
Qed.

(** An itemset of valid ranks has in the ranked transactions the support
    its labels have in the input. *)
Lemma rank_label_support (FPList : list string) (rdd : list (list string)) k :
  NoDup FPList -> Forall NoDup rdd ->
  Forall (fun i => (i < length FPList)%nat) k ->
  wsupp ((fun tx => (tx, 1)) <$>
           ((fun t => newTrans_of t (rank_of FPList)) <$> rdd)) k
  = support rdd (lbls_of FPList k).
Proof.
  intros HF Hrdd Hk. unfold support, wsupp.
  rewrite <- !list_fmap_compose. apply Zsum_fmap_ext. intros t Ht. cbn.
  rewrite Forall_forall in Hrdd. specialize (Hrdd t Ht).
  destruct (newTrans_of_spec FPList t HF Hrdd) as [_ Hmem].
  assert (Hiff : k ⊆ newTrans_of t (rank_of FPList) <-> lbls_of FPList k ⊆ t).
  { split.
    - intros Hsub a (i & Hi & Ha)%lbls_of_elem.
      apply Hsub, Hmem in Hi as (a' & Ha' & Hia'). congruence.
    - intros Hsub i Hi. apply Hmem.
      rewrite Forall_forall in Hk.
      destruct (lookup_lt_is_Some_2 FPList i (Hk i Hi)) as [a Ha].
      exists a. split; [|done]. apply Hsub, lbls_of_elem. by exists i. }
  repeat case_decide; tauto || done.
Qed.

(** ** Assembling the result *)

Lemma result_loop (FPList : list string) (fps : dict (list nat) Z)
    (acc : dict pattern Z) :
  (forall rc, rc ∈ fps -> Forall (fun i => (i < length FPList)%nat) (fst rc)) ->
  for_each (fun acc ranks_count =>
              let* lbls := labels_of FPList (fst ranks_count) in
              Ok (acc ++ [(PatTuple lbls, snd ranks_count)])) acc fps
  = Ok (acc ++ ((fun rc => (PatTuple (lbls_of FPList (fst rc)), snd rc)) <$> fps)).
Proof.
  revert acc. induction fps as [|rc fps IH]; intros acc Hvalid; cbn [for_each].
  - csimpl. by rewrite app_nil_r.
  - rewrite (labels_of_valid _ _ (Hvalid rc ltac:(left))). cbn [bind].
    rewrite IH by (intros rc' Hrc'; apply Hvalid; by right).
    csimpl. by rewrite <- app_assoc.
Qed.

Lemma assemble (singles result : dict pattern Z) :
  NoDup (key_of <$> dkeys (singles ++ result)) ->
  foldl (fun temp pv => dset (key_of (fst pv)) (snd pv) temp) []
        (dupdate (dict_of singles) (dict_of result))
  = (fun pv => (key_of (fst pv), snd pv)) <$> (singles ++ result).
Proof.
  intros Hnd. pose proof (NoDup_fmap_1 _ _ Hnd) as Hnd'.
  assert (Hparts : NoDup (dkeys singles) /\ NoDup (dkeys result)).
  { unfold dkeys in Hnd'. rewrite fmap_app in Hnd'.
    apply NoDup_app in Hnd' as (? & _ & ?). done. }
  destruct Hparts as [Hs Hr].
  rewrite (dict_of_NoDup _ Hs), (dict_of_NoDup _ Hr), (dupdate_NoDup _ _ Hnd').
  rewrite <- (foldl_fmap (fun temp kv => dset (fst kv) (snd kv) temp) []
                (singles ++ result) (fun pv => (key_of (fst pv), snd pv))).
  apply (dict_of_NoDup ((fun pv => (key_of (fst pv), snd pv)) <$> (singles ++ result))).
  unfold dkeys in *. rewrite <- list_fmap_compose.
  rewrite <- list_fmap_compose in Hnd. exact Hnd.
Qed.

(** ** The run of [startMine] *)

Lemma ranked_sorted thr (rdd : list (list string)) :
  Forall NoDup rdd ->
  Forall (fun t => StronglySorted lt (newTrans_of t (rank_of (FPList_of sortBy thr rdd)))) rdd.
Proof.
  intros Hnd. destruct (freqItems_spec thr rdd Hnd) as [HF _].
  apply Forall_forall. intros t Ht. rewrite Forall_forall in Hnd.
  by apply newTrans_of_spec; [|apply Hnd].
Qed.

Lemma ranked_valid thr (rdd : list (list string)) k :
  Forall NoDup rdd ->
  Exists (fun txc : list nat * Z => k ⊆ fst txc)
         ((fun tx => (tx, 1)) <$> ranked sortBy thr rdd) ->
  Forall (fun i => (i < length (FPList_of sortBy thr rdd))%nat) k.
Proof.
  intros Hnd Hex. destruct (freqItems_spec thr rdd Hnd) as [HF _].
  apply Exists_exists in Hex as (txc & Hin & Hsub).
  apply list_elem_of_fmap in Hin as (T & -> & HT).
  apply list_elem_of_fmap in HT as (t & -> & Ht). cbn [fst] in Hsub.
  rewrite Forall_forall in Hnd.
  destruct (newTrans_of_spec _ t HF (Hnd t Ht)) as [_ Hmem].
  apply Forall_forall. intros i Hi. apply Hsub, Hmem in Hi as (a & _ & Ha).
  by eapply lookup_lt_Some.
Qed.

Lemma startMine_run i2z s2q lines minSup numPartitions sep v :
  fst (_convert i2z s2q (Z.of_nat (length (rdd_of lines))) minSup) = Ok v ->
  numeric v -> 0 < numPartitions -> Forall NoDup (rdd_of lines) ->
  exists fps,
    NoDup (dkeys fps)
    /\ (forall k c, (k, c) ∈ fps <->
          exists r ext,
            ext <> [] /\ k = r :: ext
            /\ mined (as_Q v)
                 ((fun tx => (tx, 1)) <$> ranked sortBy (as_Q v) (rdd_of lines)) r ext c)
    /\ startMine i2z s2q sortBy lines minSup numPartitions sep
       = Ok (foldl (fun temp pv => dset (key_of (fst pv)) (snd pv) temp) []
               (dupdate
                  (dict_of ((fun x => (PatStr (fst x), snd x))
                              <$> freqItems_of sortBy (as_Q v) (rdd_of lines)))
                  (dict_of
                     ((fun rc =>
                         (PatTuple (lbls_of (FPList_of sortBy (as_Q v) (rdd_of lines)) (fst rc)),
                          snd rc)) <$> fps)))).
Proof.
  intros Hconv Hnum Hpos Hnd.
  assert (Hnp : numPartitions <> 0) by lia.
  set (rdd := rdd_of lines) in *. set (thr := as_Q v).
  set (rank := rank_of (FPList_of sortBy thr rdd)).
  pose proof (ranked_sorted thr rdd Hnd) as Hsorted. fold rank in Hsorted.
  set (pairs := concat ((fun t => unres [] (genCondTransaction numPartitions t rank))
                          <$> rdd)).
  destruct (partitions_spec thr numPartitions pairs Hnp) as (fps & Hrun & Hndf & Hmem).
  { intros kv Hkv. by eapply projections_sorted. }
  assert (Hmem' : forall k c, (k, c) ∈ fps <->
            exists r ext, ext <> [] /\ k = r :: ext
              /\ mined thr ((fun tx => (tx, 1)) <$> ranked sortBy thr rdd) r ext c).
  { intros k c. rewrite Hmem. unfold mined.
    split; intros (r & ext & Hne & -> & Hs & Hv & Hrest); exists r, ext;
      (split; [done|]; split; [done|]; split; [done|]; split; [|done]).
    - rewrite Hv. unfold pairs. by apply group_support.
    - rewrite Hv. unfold pairs. symmetry. by apply group_support. }
  exists fps. split; [done|]. split; [done|].
  unfold startMine. fold rdd. rewrite decide_False by lia. cbn [bind].
  rewrite Hconv. cbn [bind].
  rewrite (filter_minSup_numeric _ _ Hnum). cbn [bind]. fold thr.
  fold (freqItems_of sortBy thr rdd). fold (FPList_of sortBy thr rdd). fold rank.
  rewrite (for_each_collect (fun x => genCondTransaction numPartitions x rank)).
  2:{ intros t _. destruct (genCondTransaction_dget numPartitions t rank Hnp)
        as (ct & -> & _). by eexists. }
  cbn [bind]. rewrite app_nil_l. fold pairs. rewrite Hrun. cbn [bind].
  rewrite result_loop.
  - cbn [bind]. by rewrite app_nil_l.
  - intros [k c] Hkc. cbn [fst]. apply Hmem' in Hkc as (r & ext & _ & -> & Hm).
    apply (ranked_valid thr rdd _ Hnd).
    destruct Hm as (_ & Hv & Hv0 & _). rewrite Hv in Hv0.
    by apply (wsupp_pos _ _ (support_positive _)) in Hv0.
Qed.

Lemma FPList_tab_free thr lines a :
  Forall NoDup (rdd_of lines) ->
  a ∈ FPList_of sortBy thr (rdd_of lines) -> contains tab a = false.
Proof.
  intros Hnd [Hex _]%(FPList_elem _ _ _ Hnd).
  apply Exists_exists in Hex as (t & Ht & Ha).
  unfold rdd_of in Ht. apply list_elem_of_fmap in Ht as (x & -> & _).
  by eapply split_tab_free.
Qed.

Lemma lbls_of_tab_free thr lines k :
  Forall NoDup (rdd_of lines) ->
  Forall (fun a => contains tab a = false)
         (lbls_of (FPList_of sortBy thr (rdd_of lines)) k).
Proof.
  intros Hnd. apply Forall_forall. intros a (i & _ & Ha)%lbls_of_elem.
  apply (FPList_tab_free thr lines a Hnd). by eapply list_elem_of_lookup_2.
Qed.

Lemma lbls_of_length (FPList : list string) k :
  Forall (fun i => (i < length FPList)%nat) k ->
  length (lbls_of FPList k) = length k.
Proof.
  induction 1 as [|i k Hi Hk IH]; [done|].
  apply lookup_lt_is_Some in Hi as [a Ha]. unfold lbls_of in *. csimpl.
  rewrite Ha. simpl. by rewrite IH.
Qed.

Lemma freqItems_frequent_ranks thr (rdd : list (list string)) a c :
  Forall NoDup rdd ->
  (a, c) ∈ freqItems_of sortBy thr rdd <->
  exists i, FPList_of sortBy thr rdd !! i = Some a /\ frequent_ranks sortBy thr rdd [i] c.
Proof.
  intros Hnd. destruct (freqItems_spec thr rdd Hnd) as [HF Hmem].
  assert (Hl : forall i, FPList_of sortBy thr rdd !! i = Some a ->
                         lbls_of (FPList_of sortBy thr rdd) [i] = [a]).
  { intros i Hi. unfold lbls_of. csimpl. by rewrite Hi. }
  rewrite Hmem. split.
  - intros (Hex & -> & Hm).
    assert (Hin : a ∈ FPList_of sortBy thr rdd) by (by apply FPList_elem).
    apply list_elem_of_lookup in Hin as [i Hi]. exists i. split; [done|].
    split; [done|]. split; [repeat constructor|].
    split; [constructor; [by eapply lookup_lt_Some | constructor]|].
    split; [by rewrite (Hl i Hi)|]. split; [|done].
    apply (wsupp_pos _ _ (support_positive rdd)).
    apply Exists_fmap. eapply Exists_impl; [exact Hex|].
    intros t Ht. simpl. by apply singleton_subseteq.
  - intros (i & Hi & _ & _ & _ & -> & _ & Hm). rewrite (Hl i Hi) in *.
    assert (Hin : a ∈ FPList_of sortBy thr rdd) by (by eapply list_elem_of_lookup_2).
    apply (FPList_elem _ _ _ Hnd) in Hin as [Hex _]. done.
Qed.

Lemma mined_frequent_ranks thr (rdd : list (list string)) r ext c :
  Forall NoDup rdd ->
  mined thr ((fun tx => (tx, 1)) <$> ranked sortBy thr rdd) r ext c
  <-> frequent_ranks sortBy thr rdd (r :: ext) c.
Proof.
  intros Hnd. destruct (freqItems_spec thr rdd Hnd) as [HF _].
  unfold mined, frequent_ranks. split.
  - intros (Hs & Hv & Hv0 & Hm).
    assert (Hvalid : Forall (fun i => (i < length (FPList_of sortBy thr rdd))%nat) (r :: ext)).
    { apply (ranked_valid thr rdd _ Hnd). rewrite Hv in Hv0.
      by apply (wsupp_pos _ _ (support_positive _)) in Hv0. }
    split; [done|]. split; [done|]. split; [done|]. split; [|done].
    rewrite Hv. by apply rank_label_support.
  - intros (_ & Hs & Hvalid & Hv & Hv0 & Hm).
    split; [done|]. split; [|done]. rewrite Hv. symmetry.
    by apply rank_label_support.
Qed.

(** The dictionary returned by [startMine]: one entry per non-empty
    descending list of valid ranks whose labels form a frequent itemset,
    keyed by the labels in that order. *)
Lemma startMine_entries i2z s2q lines minSup numPartitions sep v :
  fst (_convert i2z s2q (Z.of_nat (length (rdd_of lines))) minSup) = Ok v ->
  numeric v -> 0 < numPartitions -> Forall NoDup (rdd_of lines) ->
  exists final,
    startMine i2z s2q sortBy lines minSup numPartitions sep = Ok final
    /\ NoDup (dkeys final)
    /\ forall s c, (s, c) ∈ final <->
         exists k,
           s = items_key (lbls_of (FPList_of sortBy (as_Q v) (rdd_of lines)) k)
           /\ frequent_ranks sortBy (as_Q v) (rdd_of lines) k c.
Proof.
  intros Hconv Hnum Hnp Hnd.
  destruct (startMine_run i2z s2q lines minSup numPartitions sep v Hconv Hnum Hnp Hnd)
    as (fps & Hndf & Hfps & ->).
  set (rdd := rdd_of lines) in *. set (thr := as_Q v) in *.
  set (F := FPList_of sortBy thr rdd) in *.
  destruct (freqItems_spec thr rdd Hnd) as [HF _]. fold F in HF.
  set (singles := (fun x : string * Z => (PatStr (fst x), snd x)) <$> freqItems_of sortBy thr rdd).
  set (result := (fun rc : list nat * Z => (PatTuple (lbls_of F (fst rc)), snd rc)) <$> fps).
  assert (Hfps' : forall k c, (k, c) ∈ fps <->
            (exists r ext, ext <> [] /\ k = r :: ext) /\ frequent_ranks sortBy thr rdd k c).
  { intros k c. rewrite Hfps. split.
    - intros (r & ext & Hne & -> & Hm). split; [by exists r, ext|].
      by apply mined_frequent_ranks.
    - intros [(r & ext & Hne & ->) Hfr]. exists r, ext.
      split; [done|]. split; [done|]. by apply mined_frequent_ranks. }
  assert (Hkeys : key_of <$> dkeys (singles ++ result)
                  = items_key <$> (((fun a => [a]) <$> F) ++ (lbls_of F <$> dkeys fps))).
  { unfold dkeys, singles, result, F, FPList_of.
    rewrite !fmap_app, <- !list_fmap_compose. by f_equal. }
  assert (Hvalid : forall k, k ∈ dkeys fps ->
            Forall (fun i => (i < length F)%nat) k /\ (2 <= length k)%nat).
  { intros k ([k' c] & -> & Hin)%list_elem_of_fmap. cbn [fst].
    apply Hfps' in Hin as [(r & ext & Hne & ->) (_ & _ & Hv & _)].
    split; [done|]. destruct ext; [done | simpl; lia]. }
  assert (HndK : NoDup (key_of <$> dkeys (singles ++ result))).
  { rewrite Hkeys. apply NoDup_fmap_2_strong.
    - intros l l' Hl Hl' Heq. apply items_key_inj; [| |done].
      + apply elem_of_app in Hl as [(a & -> & Ha)%list_elem_of_fmap
                                   |(k & -> & _)%list_elem_of_fmap].
        * repeat constructor. by apply (FPList_tab_free thr lines).
        * by apply lbls_of_tab_free.
      + apply elem_of_app in Hl' as [(a & -> & Ha)%list_elem_of_fmap
                                    |(k & -> & _)%list_elem_of_fmap].
        * repeat constructor. by apply (FPList_tab_free thr lines).
        * by apply lbls_of_tab_free.
    - apply NoDup_app. split; [|split].
      + apply NoDup_fmap_2_strong; [|done]. by intros a a' _ _ [= ->].
      + intros l (a & -> & _)%list_elem_of_fmap (k & Heq & Hk)%list_elem_of_fmap.
        destruct (Hvalid k Hk) as [Hv Hlen].
        apply (f_equal length) in Heq. rewrite (lbls_of_length _ _ Hv) in Heq.
        simpl in Heq. lia.
      + apply NoDup_fmap_2_strong; [|done].
        intros k k' Hk Hk' Heq.
        apply (lbls_of_inj F); [done | by apply Hvalid | by apply Hvalid | done]. }
  rewrite (assemble _ _ HndK). eexists. split; [reflexivity|]. split.
  - unfold dkeys. rewrite <- list_fmap_compose.
    unfold dkeys in HndK. rewrite <- list_fmap_compose in HndK. exact HndK.
  - intros s c. rewrite list_elem_of_fmap. split.
    + intros ([pat c'] & [= -> ->] & Hin). cbn [fst snd].
      apply elem_of_app in Hin as [Hin|Hin].
      * apply list_elem_of_fmap in Hin as ([a c''] & [= -> ->] & Hin).
        apply (freqItems_frequent_ranks _ _ _ _ Hnd) in Hin as (i & Hi & Hfr).
        exists [i]. split; [|done]. rewrite key_of_PatStr. f_equal.
        unfold lbls_of, F. csimpl. by rewrite Hi.
      * apply list_elem_of_fmap in Hin as ([k c''] & [= -> ->] & Hin).
        apply Hfps' in Hin as [_ Hfr]. by exists k.
    + intros (k & -> & Hfr).
      destruct k as [|r [|r' ext]]; [by destruct Hfr | |].
      * pose proof Hfr as (_ & _ & Hv & _).
        apply Forall_cons in Hv as [Hr _].
        apply lookup_lt_is_Some in Hr as [a Ha].
        exists (PatStr a, c). split.
        -- cbn [fst snd]. rewrite key_of_PatStr. f_equal. f_equal.
           unfold lbls_of, F. csimpl. by rewrite Ha.
        -- apply elem_of_app. left. apply list_elem_of_fmap.
           exists (a, c). split; [done|].
           apply (freqItems_frequent_ranks _ _ _ _ Hnd). by exists r.
      * exists (PatTuple (lbls_of F (r :: r' :: ext)), c). split; [done|].
        apply elem_of_app. right. apply list_elem_of_fmap.
        exists (r :: r' :: ext, c). split; [done|].
        apply Hfps'. split; [|done]. by exists r, (r' :: ext).
Qed.

(** ** Itemsets of labels *)

Lemma support_ext {A} `{EqDecision A} (rdd : list (list A)) S S' :
  (forall a, a ∈ S <-> a ∈ S') -> support rdd S = support rdd S'.
Proof.
  intros Hiff. unfold support. apply wsupp_ext. intros txc _.
  split; intros Hsub a Ha; apply Hsub, Hiff, Ha.
Qed.

Lemma ranks_of_labels (FPList S : list string) :
  NoDup FPList -> NoDup S -> (forall a, a ∈ S -> a ∈ FPList) ->
  exists K,
    lbls_of FPList K = S /\ NoDup K
    /\ Forall (fun i => (i < length FPList)%nat) K.
Proof.
  intros HF HS Hin. induction HS as [|a S Ha HS IH].
  - exists []. split; [done|]. split; [apply NoDup_nil_2 | done].
  - destruct IH as (K & HK & HndK & Hvalid).
    { intros a' Ha'. apply Hin. by right. }
    destruct (proj1 (list_elem_of_lookup FPList a) (Hin a ltac:(left))) as [i Hi].
    exists (i :: K). split; [|split].
    + unfold lbls_of in *. csimpl. by rewrite Hi, HK.
    + apply NoDup_cons. split; [|done]. intros HiK. apply Ha.
      rewrite <- HK. apply lbls_of_elem. by exists i.
    + constructor; [by eapply lookup_lt_Some | done].
Qed.

Lemma sorted_desc (K : list nat) :
  NoDup K ->
  exists k, k ≡ₚ K /\ StronglySorted gt k.
Proof.
  intros HK. exists (sorted_by (fun x => - Z.of_nat x) K).
  split; [apply sorted_by_perm|].
  pose proof (sorted_by_sorted (fun x => - Z.of_nat x) K) as Hs.
  assert (Hnd : NoDup (sorted_by (fun x => - Z.of_nat x) K))
    by (by rewrite sorted_by_perm).
  induction Hs as [|x l Hs IH Hall]; [constructor|].
  apply NoDup_cons in Hnd as [Hx Hnd]. constructor; [by apply IH|].
  rewrite Forall_forall in *. intros y Hy. specialize (Hall y Hy).
  unfold key_le in Hall. assert (x <> y) by (by intros ->). lia.
Qed.

(** A frequent itemset of labels has a descending list of ranks. *)
Lemma frequent_ranks_of_itemset thr (rdd : list (list string)) S :
  Forall NoDup rdd -> S <> [] -> NoDup S ->
  0 < support rdd S -> meets_minSup thr (support rdd S) = true ->
  exists k,
    lbls_of (FPList_of sortBy thr rdd) k ≡ₚ S
    /\ frequent_ranks sortBy thr rdd k (support rdd S).
Proof.
  intros Hnd Hne HS Hpos Hm.
  destruct (freqItems_spec thr rdd Hnd) as [HF _].
  assert (Hin : forall a, a ∈ S -> a ∈ FPList_of sortBy thr rdd).
  { intros a Ha. apply (FPList_elem _ _ _ Hnd). split.
    - apply (wsupp_pos _ _ (support_positive rdd)) in Hpos.
      apply Exists_exists in Hpos as ([t c] & Hin & Hsub).
      apply list_elem_of_fmap in Hin as (t' & Heq & Ht'). simplify_eq.
      apply Exists_exists. exists t'. split; [done|]. by apply Hsub.
    - eapply meets_minSup_mono; [|exact Hm].
      apply (wsupp_anti _ _ _ (support_positive rdd)).
      by intros x ->%list_elem_of_singleton. }
  destruct (ranks_of_labels _ S HF HS Hin) as (K & HK & HndK & Hvalid).
  destruct (sorted_desc K HndK) as (k & Hperm & Hs).
  assert (Hl : lbls_of (FPList_of sortBy thr rdd) k ≡ₚ S).
  { rewrite <- HK. unfold lbls_of. by rewrite Hperm. }
  exists k. split; [done|].
  split; [|split; [done|split; [by rewrite Hperm|split; [|done]]]].
  - intros ->. symmetry in Hperm. apply Permutation_nil_r in Hperm. subst K.
    apply Hne. by rewrite <- HK.
  - apply support_ext. intros a. by rewrite Hl.
Qed.

Lemma frequent_ranks_unique thr (rdd : list (list string)) k k' c c' :
  Forall NoDup rdd ->
  frequent_ranks sortBy thr rdd k c -> frequent_ranks sortBy thr rdd k' c' ->
  lbls_of (FPList_of sortBy thr rdd) k ≡ₚ lbls_of (FPList_of sortBy thr rdd) k' ->
  k = k'.
Proof.
  intros Hnd (_ & Hs & Hv & _) (_ & Hs' & Hv' & _) Hperm.
  destruct (freqItems_spec thr rdd Hnd) as [HF _].
  assert (Hmem : forall k1 k2,
            Forall (fun i => (i < length (FPList_of sortBy thr rdd))%nat) k1 ->
            lbls_of (FPList_of sortBy thr rdd) k1 ≡ₚ lbls_of (FPList_of sortBy thr rdd) k2 ->
            forall i, i ∈ k1 -> i ∈ k2).
  { intros k1 k2 Hv1 Hp i Hi. rewrite Forall_forall in Hv1.
    destruct (lookup_lt_is_Some_2 _ i (Hv1 i Hi)) as [a Ha].
    assert (Ha' : a ∈ lbls_of (FPList_of sortBy thr rdd) k2).
    { rewrite <- Hp. apply lbls_of_elem. by exists i. }
    apply lbls_of_elem in Ha' as (j & Hj & Hja).
    by rewrite (NoDup_lookup _ i j a HF Ha Hja). }
  assert (HgtNoDup : forall l : list nat, StronglySorted gt l -> NoDup l).
  { induction 1 as [|x l Hl IH Hall]; [apply NoDup_nil_2|].
    apply NoDup_cons. split; [|done]. intros Hx.
    rewrite Forall_forall in Hall. apply Hall in Hx. lia. }
  apply (StronglySorted_unique_strong gt); [|done|done|].
  - intros x1 x2 _ _ ? ?. lia.
  - apply NoDup_Permutation; [by apply HgtNoDup | by apply HgtNoDup|].
    intros i. split; [by apply Hmem | apply Hmem; [done | by symmetry]].
Qed.

(** ** The pattern mapping of [startMine] *)

(** C1, the claim as stated fails on a line that repeats an item: the two
    occurrences of [a] in the single transaction are counted separately,
    so [a] is reported with count 2 and passes the threshold 2 although
    only one transaction holds it. *)
Lemma startMine_repeated_item :
  startMine (fun _ => None) (fun _ => None) sortBy_desc
            [String "a" (String tab (String "a" EmptyString))] (PInt 2) 1
            (String tab EmptyString)
  = Ok [(items_key ["a"%string], 2)]
  /\ support (rdd_of [String "a" (String tab (String "a" EmptyString))])
             ["a"%string] = 1.
Proof. split; vm_compute; reflexivity. Qed.

(** C1 (amended): when no line repeats an item, the resolved threshold is
    a finite number and [numPartitions] is positive, [startMine] returns,
    whatever order the engine gives items of equal count, a mapping with
    distinct keys such that
    - every non-empty itemset held by at least one transaction and with
      support at least the threshold is the key of one entry, in exactly
      one order of its items, mapped to its support;
    - every entry is the key of a non-empty itemset of distinct items,
      mapped to its support, which is strictly positive and at least the
      threshold;
    - with a positive threshold, an itemset meeting it is held by at least
      one transaction. *)
Theorem startMine_frequent_itemsets i2z s2q lines minSup numPartitions sep v :
  fst (_convert i2z s2q (Z.of_nat (length (rdd_of lines))) minSup) = Ok v ->
  numeric v -> 0 < numPartitions -> Forall NoDup (rdd_of lines) ->
  exists final,
    startMine i2z s2q sortBy lines minSup numPartitions sep = Ok final
    /\ NoDup (dkeys final)
    /\ (forall S, S <> [] -> NoDup S ->
          0 < support (rdd_of lines) S ->
          (as_Q v <= inject_Z (support (rdd_of lines) S))%Q ->
          exists p,
            p ≡ₚ S
            /\ dget (items_key p) final = Some (support (rdd_of lines) S)
            /\ forall p', p' ≡ₚ S -> items_key p' ∈ dkeys final -> p' = p)
    /\ (forall s c, (s, c) ∈ final ->
          exists p,
            s = items_key p /\ p <> [] /\ NoDup p
            /\ c = support (rdd_of lines) p
            /\ 0 < c /\ (as_Q v <= inject_Z c)%Q)
    /\ ((0 < as_Q v)%Q ->
        forall S, (as_Q v <= inject_Z (support (rdd_of lines) S))%Q ->
                  0 < support (rdd_of lines) S).
Proof.
  intros Hconv Hnum Hnp Hnd.
  destruct (startMine_entries i2z s2q lines minSup numPartitions sep v
              Hconv Hnum Hnp Hnd) as (final & Hrun & Hkeys & Hmem).
  destruct (freqItems_spec (as_Q v) (rdd_of lines) Hnd) as [HF _].
  exists final. split; [done|]. split; [done|]. split; [|split].
  - intros S Hne HS Hpos Hthr.
    destruct (frequent_ranks_of_itemset (as_Q v) (rdd_of lines) S
                Hnd Hne HS Hpos) as (k & Hl & Hfr).
    { unfold meets_minSup. by apply Qle_bool_iff. }
    exists (lbls_of (FPList_of sortBy (as_Q v) (rdd_of lines)) k).
    split; [done|]. split.
    + apply elem_dget; [done|]. apply Hmem. by exists k.
    + intros p' Hp' Hkey.
      apply dget_is_Some in Hkey as [c Hc]. apply dget_Some_elem in Hc.
      apply Hmem in Hc as (k' & Hk' & Hfr').
      apply items_key_inj in Hk'.
      * subst p'. f_equal.
        apply (frequent_ranks_unique (as_Q v) (rdd_of lines) k' k _ _ Hnd Hfr' Hfr).
        by rewrite Hp', Hl.
      * rewrite Hp', <- Hl. by apply lbls_of_tab_free.
      * by apply lbls_of_tab_free.
  - intros s c Hin. apply Hmem in Hin as (k & -> & Hfr).
    pose proof Hfr as (Hne & Hs & Hvalid & Hc & Hpos & Hm).
    exists (lbls_of (FPList_of sortBy (as_Q v) (rdd_of lines)) k).
    split; [done|]. split; [by apply lbls_of_nonempty|].
    split; [|split; [done|split; [done|]]].
    + apply lbls_of_NoDup; [done|].
      clear -Hs. induction Hs as [|x l Hl IH Hall]; [apply NoDup_nil_2|].
      apply NoDup_cons. split; [|done]. intros Hx.
      rewrite Forall_forall in Hall. apply Hall in Hx. lia.
    + unfold meets_minSup in Hm. by apply Qle_bool_iff in Hm.
  - intros Hthr S HS.
    assert (H0 : (0 < inject_Z (support (rdd_of lines) S))%Q)
      by (eapply Qlt_le_trans; [exact Hthr | exact HS]).
    change 0%Q with (inject_Z 0) in H0. by rewrite <- Zlt_Qlt in H0.
Qed.

(** ** The number of partitions *)

Lemma dict_ext {K V} `{EqDecision K} (d d' : dict K V) :
  NoDup (dkeys d) -> NoDup (dkeys d') ->
  (forall k v, (k, v) ∈ d <-> (k, v) ∈ d') ->
  d ≡ₚ d' /\ forall k, dget k d = dget k d'.
Proof.
  intros Hd Hd' Hiff. split.
  - apply NoDup_Permutation; [| |by intros [k v]].
    + by apply (NoDup_fmap_1 fst).
    + by apply (NoDup_fmap_1 fst).
  - intros k. destruct (dget k d) as [v|] eqn:E.
    + symmetry. apply elem_dget; [done|]. by apply Hiff, dget_Some_elem.
    + destruct (dget k d') as [v'|] eqn:E'; [|done].
      apply dget_Some_elem, Hiff, (elem_dget _ _ _ Hd) in E'. congruence.
Qed.

(** A threshold that counts cannot be compared with makes the first
    comparison raise. *)
Lemma filter_minSup_not_comparable v (l : dict string Z) :
  ~ comparable v ->
  filter_minSup v l = match l with [] => Ok [] | _ => Raise TypeError end.
Proof. intros Hv. destruct v; simpl in Hv; try tauto; by destruct l. Qed.

Lemma newTrans_of_no_rank (transaction : list string) :
  newTrans_of transaction [] = [].
Proof.
  unfold newTrans_of.
  replace (omap (fun it => dget it (@nil (string * nat))) transaction)
    with (@nil nat); [done|].
  induction transaction as [|a t IH]; [done|]. exact IH.
Qed.

(** * Further properties *)

(** ** The miner on one tree *)

(** X1: on a tree built from strictly ascending transactions with positive
    counts, [genFreqPatterns(r, pre, tree)], for a rank [r] held by some
    transaction, returns a dict with distinct keys whose entries are
    exactly the [pre ++ ext] with [ext] non-empty, [r :: ext] strictly
    descending and frequent, mapped to the weighted support of
    [r :: ext]. *)
Theorem genFreqPatterns_frequent_extensions minSup fuel
    (l : list (list nat * Z)) r pre :
  Forall (fun txc : list nat * Z => StronglySorted lt (fst txc)) l ->
  Forall (fun txc : list nat * Z => 0 < snd txc) l ->
  Exists (fun txc : list nat * Z => r ∈ fst txc) l ->
  (r < fuel)%nat ->
  exists d,
    genFreqPatterns minSup fuel r pre (insert_all l new_Tree) = Ok d
    /\ NoDup (dkeys d)
    /\ forall k v, (k, v) ∈ d <->
         exists ext, ext <> [] /\ k = pre ++ ext /\ mined minSup l r ext v.
Proof.
  intros Hs Hpos Hr Hfuel.
  apply genFreqPatterns_spec; [done..| |done].
  by apply nodeLink_keys_insert_all.
Qed.

Lemma genFreqPatterns_frequent_extensions_witness :
  let l := [([0; 1; 2]%nat, 1); ([0; 2]%nat, 1)] in
  exists d,
    genFreqPatterns 1 3 2 [2%nat] (insert_all l new_Tree) = Ok d
    /\ NoDup (dkeys d)
    /\ forall k v, (k, v) ∈ d <->
         exists ext, ext <> [] /\ k = [2%nat] ++ ext /\ mined 1 l 2 ext v.
Proof.
  intros l.
  apply (genFreqPatterns_frequent_extensions 1 3 l 2 [2%nat]).
  - repeat constructor; lia.
  - repeat constructor.
  - left. simpl. right. right. left.
  - lia.
Defined.

(** X2: on the tree of a partition, built from strictly ascending
    transactions with positive counts, [genAllFrequentPatterns] returns,
    under distinct keys, exactly the strictly descending frequent itemsets
    of at least two ranks whose highest rank is owned by the partition,
    each with its weighted support. *)
Theorem genAllFrequentPatterns_frequent_itemsets minSup numPartitions p
    (l : list (list nat * Z)) :
  numPartitions <> 0 ->
  Forall (fun txc : list nat * Z => StronglySorted lt (fst txc)) l ->
  Forall (fun txc : list nat * Z => 0 < snd txc) l ->
  exists d,
    genAllFrequentPatterns minSup numPartitions (p, insert_all l new_Tree) = Ok d
    /\ NoDup (dkeys d)
    /\ forall k v, (k, v) ∈ d <->
         exists r ext,
           ext <> [] /\ k = r :: ext /\ owner numPartitions r = p
           /\ mined minSup l r ext v.
Proof. apply genAllFrequentPatterns_spec. Qed.

Lemma genAllFrequentPatterns_frequent_itemsets_witness :
  let l := [([0; 1; 2]%nat, 1); ([0; 2]%nat, 1)] in
  exists d,
    genAllFrequentPatterns 1 2 (0, insert_all l new_Tree) = Ok d
    /\ NoDup (dkeys d)
    /\ forall k v, (k, v) ∈ d <->
         exists r ext,
           ext <> [] /\ k = r :: ext /\ owner 2 r = 0 /\ mined 1 l r ext v.
Proof.
  intros l.
  apply (genAllFrequentPatterns_frequent_itemsets 1 2 0 l).
  - lia.
  - repeat constructor; lia.
  - repeat constructor.
Defined.

(** ** Conditional trees *)

(** X3: on a tree built from strictly ascending transactions with positive
    counts, [generateConditionalTree(r)] raises [KeyError] when no
    transaction holds [r]; otherwise it returns a tree that holds only
    ranks below [r] and whose [itemCount] maps, under distinct keys,
    every rank [i < r] that occurs together with [r] to the weighted
    support of the pair. *)
Theorem generateConditionalTree_pattern_base (l : list (list nat * Z)) r :
  Forall (fun txc : list nat * Z => StronglySorted lt (fst txc)) l ->
  Forall (fun txc : list nat * Z => 0 < snd txc) l ->
  let t := insert_all l new_Tree in
  (~ Exists (fun txc : list nat * Z => r ∈ fst txc) l ->
   generateConditionalTree r t = Raise KeyError)
  /\ (Exists (fun txc : list nat * Z => r ∈ fst txc) l ->
      exists condTree,
        generateConditionalTree r t = Ok condTree
        /\ (forall i, i ∈ dkeys (nodeLink condTree) -> (i < r)%nat)
        /\ NoDup (dkeys (itemCount condTree))
        /\ forall i v, (i, v) ∈ itemCount condTree <->
             (i < r)%nat
             /\ Exists (fun txc : list nat * Z => r ∈ fst txc /\ i ∈ fst txc) l
             /\ v = wsupp l [r; i]).
Proof.
  intros Hs Hpos t. split.
  - intros Hr. unfold generateConditionalTree.
    replace (dget r (nodeLink t)) with (@None (list nat)); [done|].
    symmetry. apply dget_None. subst t. by rewrite nodeLink_keys_insert_all.
  - intros Hr. apply nodeLink_keys_insert_all in Hr.
    exists (insert_all (cond_base t r) new_Tree).
    split; [by apply generateConditionalTree_Ok|].
    split; [intros i; by apply cond_tree_keys_lt|].
    split; [apply NoDup_itemCount_insert_all|].
    assert (Hcs : Forall (fun txc : list nat * Z => StronglySorted lt (fst txc))
                         (cond_base t r)).
    { apply Forall_forall. intros [p c] Hin.
      by destruct (cond_base_sorted l r p c Hs Hin). }
    assert (Hcp := cond_base_positive l r Hpos). fold t in Hcp.
    destruct (wf_insert_all (cond_base t r) new_Tree _ wf_new_Tree) as [paths Hwf].
    rewrite <- (link_totals_itemCount _ _ Hwf).
    destruct (link_totals_insert_all (cond_base t r) Hcs) as [_ Hmem].
    intros i v. rewrite Hmem.
    assert (Hpair : forall txc : list nat * Z,
              [r; i] ⊆ fst txc <-> r ∈ fst txc /\ i ∈ fst txc).
    { intros txc. split.
      - intros Hsub. split; apply Hsub; [left | right; left].
      - intros [H1 H2] x Hx. apply elem_of_cons in Hx as [->|Hx]; [done|].
        by apply list_elem_of_singleton in Hx as ->. }
    split.
    + intros [Hex ->].
      assert (Hlt : (i < r)%nat).
      { apply Exists_exists in Hex as ([p c] & Hin & Hi).
        destruct (cond_base_sorted l r p c Hs Hin) as [_ Hall].
        rewrite Forall_forall in Hall. by apply Hall. }
      assert (Heq : wsupp (cond_base t r) [i] = wsupp l [r; i]).
      { apply wsupp_cond_base_insert_all; [done|]. by constructor. }
      split; [done|]. split; [|done].
      assert (H0 : 0 < wsupp l [r; i]).
      { rewrite <- Heq. apply (wsupp_pos _ _ Hcp).
        eapply Exists_impl; [exact Hex|]. intros txc Hi x.
        by intros ->%list_elem_of_singleton. }
      apply (wsupp_pos _ _ Hpos) in H0.
      eapply Exists_impl; [exact H0|]. intros txc. apply Hpair.
    + intros (Hlt & Hex & ->).
      assert (Heq : wsupp (cond_base t r) [i] = wsupp l [r; i]).
      { apply wsupp_cond_base_insert_all; [done|]. by constructor. }
      split; [|done].
      assert (H0 : 0 < wsupp (cond_base t r) [i]).
      { rewrite Heq. apply (wsupp_pos _ _ Hpos).
        eapply Exists_impl; [exact Hex|]. intros txc. apply Hpair. }
      apply (wsupp_pos _ _ Hcp) in H0.
      eapply Exists_impl; [exact H0|]. intros txc Hsub. apply Hsub. left.
Qed.

Lemma generateConditionalTree_pattern_base_witness :
  let l := [([0; 1; 2]%nat, 1); ([0; 2]%nat, 1)] in
  let t := insert_all l new_Tree in
  (~ Exists (fun txc : list nat * Z => 2%nat ∈ fst txc) l ->
   generateConditionalTree 2 t = Raise KeyError)
  /\ (Exists (fun txc : list nat * Z => 2%nat ∈ fst txc) l ->
      exists condTree,
        generateConditionalTree 2 t = Ok condTree
        /\ (forall i, i ∈ dkeys (nodeLink condTree) -> (i < 2)%nat)
        /\ NoDup (dkeys (itemCount condTree))
        /\ forall i v, (i, v) ∈ itemCount condTree <->
             (i < 2)%nat
             /\ Exists (fun txc : list nat * Z => 2%nat ∈ fst txc /\ i ∈ fst txc) l
             /\ v = wsupp l [2%nat; i]).
Proof.
  intros l.
  apply (generateConditionalTree_pattern_base l 2).
  - repeat constructor; lia.
  - repeat constructor.
Defined.

(** ** The projection *)

(** X4: when the ranked transaction has no repeated rank and
    [numPartitions] is not zero, a strictly descending itemset [r :: ext]
    is held by the ranked transaction exactly when it is held by the
    projection that [genCondTransaction] sends to the owner of [r]. *)
Theorem genCondTransaction_keeps_itemsets numPartitions
    (transaction : list string) (rank : dict string nat) :
  numPartitions <> 0 ->
  StronglySorted lt (newTrans_of transaction rank) ->
  exists ct,
    genCondTransaction numPartitions transaction rank = Ok ct
    /\ forall r ext,
         StronglySorted gt (r :: ext) ->
         r :: ext ⊆ newTrans_of transaction rank
         <-> exists proj,
               dget (owner numPartitions r) ct = Some proj /\ r :: ext ⊆ proj.
Proof.
  intros Hnp Hsorted.
  destruct (genCondTransaction_dget numPartitions transaction rank Hnp)
    as (ct & Hrun & Hnd & _).
  exists ct. split; [done|]. intros r ext Hs.
  pose proof (projection_support numPartitions transaction rank
                (owner numPartitions r) r ext Hnp Hsorted eq_refl Hs) as H.
  rewrite Hrun in H. cbn [unres] in H.
  rewrite (filter_key_NoDup _ _ Hnd) in H.
  destruct (dget (owner numPartitions r) ct) as [proj|].
  - change (wsupp [(proj, 1)] (r :: ext)
            = if decide (r :: ext ⊆ newTrans_of transaction rank) then 1 else 0)
      in H.
    rewrite wsupp_cons, wsupp_nil in H. cbn [fst snd] in H.
    split.
    + intros Hin. exists proj. split; [done|].
      rewrite (decide_True (P := r :: ext ⊆ newTrans_of transaction rank)) in H
        by done.
      case_decide; [done | lia].
    + intros (proj' & [= <-] & Hin).
      rewrite (decide_True (P := r :: ext ⊆ proj)) in H by done.
      case_decide; [done | lia].
  - change (wsupp (@nil (list nat * Z)) (r :: ext)
            = if decide (r :: ext ⊆ newTrans_of transaction rank) then 1 else 0)
      in H.
    rewrite wsupp_nil in H. split.
    + intros Hin.
      rewrite (decide_True (P := r :: ext ⊆ newTrans_of transaction rank)) in H
        by done.
      lia.
    + by intros (proj' & [=] & _).
Qed.

Lemma genCondTransaction_keeps_itemsets_witness :
  let transaction := ["a"%string; "b"%string; "c"%string] in
  let rank := [("a"%string, 0%nat); ("b"%string, 1%nat); ("c"%string, 2%nat)] in
  exists ct,
    genCondTransaction 2 transaction rank = Ok ct
    /\ forall r ext,
         StronglySorted gt (r :: ext) ->
         r :: ext ⊆ newTrans_of transaction rank
         <-> exists proj, dget (owner 2 r) ct = Some proj /\ r :: ext ⊆ proj.
Proof.
  intros transaction rank.
  apply (genCondTransaction_keeps_itemsets 2 transaction rank).
  - lia.
  - vm_compute. repeat constructor; lia.
Defined.

(** ** Counting and ranking the items *)

Lemma filter_none {A} (P : A -> Prop) `{forall x, Decision (P x)} (l : list A) :
  (forall x, x ∈ l -> ~ P x) -> filter P l = [].
Proof.
  induction l as [|x l IH]; intros Hl; [done|].
  rewrite filter_cons, decide_False by (apply Hl; left).
  apply IH. intros y Hy. apply Hl. by right.
Qed.

Lemma dget_foldl_count (d : dict string Z) (its : list string) a :
  dget a (foldl (fun d it => dset it (default 0 (dget it d) + 1) d) d its)
  = if decide (a ∈ its)
    then Some (default 0 (dget a d)
               + Z.of_nat (length (filter (fun x => x = a) its)))
    else dget a d.
Proof.
  revert d. induction its as [|it its IH]; intros d.
  - cbn [foldl]. destruct (decide (a ∈ [])) as [H|_]; [|done].
    by apply elem_of_nil in H.
  - cbn [foldl]. rewrite IH, dget_dset, filter_cons.
    destruct (decide (a ∈ it :: its)) as [Hin|Hin].
    + destruct (decide (a = it)) as [->|Hne].
      * rewrite (decide_True (P := it = it)) by done.
        cbn [default length].
        destruct (decide (it ∈ its)) as [Hi|Hi]; f_equal; [unfold id; lia|].
        assert (Hnil : filter (fun x => x = it) its = []).
        { apply filter_none. by intros x Hx ->. }
        rewrite Hnil. simpl. lia.
      * rewrite (decide_False (P := it = a)) by done.
        apply elem_of_cons in Hin as [?|Hin]; [done|].
        by rewrite decide_True.
    + apply not_elem_of_cons in Hin as [Hne Hin].
      by rewrite (decide_False (P := a ∈ its)), (decide_False (P := a = it)).
Qed.

Lemma NoDup_dkeys_itemCounts (rdd : list (list string)) :
  NoDup (dkeys (itemCounts rdd)).
Proof.
  unfold itemCounts. generalize (concat rdd). intros its.
  assert (H : forall d : dict string Z, NoDup (dkeys d) ->
            NoDup (dkeys (foldl (fun d it => dset it (default 0 (dget it d) + 1) d)
                                d its))).
  { induction its as [|it its IH]; intros d Hd; [done|].
    cbn [foldl]. apply IH. by apply NoDup_dkeys_dset. }
  apply H, NoDup_nil_2.
Qed.

(** X5: [itemCounts] (the [flatMap] and [reduceByKey(add)] of [startMine])
    has distinct keys, one for every item that occurs in some transaction,
    mapped to the number of occurrences of the item over all transactions;
    when no transaction repeats an item this number is the support of the
    item. *)
Theorem itemCounts_occurrences (rdd : list (list string)) :
  NoDup (dkeys (itemCounts rdd))
  /\ (forall a,
        dget a (itemCounts rdd)
        = if decide (Exists (fun t => a ∈ t) rdd)
          then Some (occurrences a rdd) else None)
  /\ (Forall NoDup rdd -> forall a, occurrences a rdd = support rdd [a]).
Proof.
  split; [apply NoDup_dkeys_itemCounts|].
  assert (Hex : forall a, Exists (fun t => a ∈ t) rdd <-> a ∈ concat rdd).
  { intros a. rewrite Exists_exists, elem_of_concat.
    split; intros (t & H1 & H2); by exists t. }
  assert (Hget : forall a,
            dget a (itemCounts rdd)
            = if decide (Exists (fun t => a ∈ t) rdd)
              then Some (occurrences a rdd) else None).
  { intros a. unfold itemCounts. rewrite dget_foldl_count.
    destruct (decide (a ∈ concat rdd)) as [Hin|Hin].
    - rewrite decide_True by (by apply Hex). done.
    - rewrite decide_False by (by rewrite Hex). done. }
  split; [done|].
  intros Hnd a. destruct (itemCounts_spec rdd Hnd) as [Hk Hmem].
  destruct (decide (Exists (fun t => a ∈ t) rdd)) as [He|He].
  - assert (Hin : (a, support rdd [a]) ∈ itemCounts rdd) by (by apply Hmem).
    apply (elem_dget _ _ _ Hk) in Hin. rewrite Hget, decide_True in Hin by done.
    congruence.
  - unfold occurrences, support.
    rewrite (proj2 (length_zero_iff_nil _)).
    + symmetry. apply Z.le_antisymm; [|apply wsupp_nonneg, support_positive].
      destruct (Z_lt_le_dec 0 (wsupp ((fun t => (t, 1)) <$> rdd) [a]))
        as [Hpos|Hle]; [|done].
      exfalso. apply He.
      apply (wsupp_pos _ _ (support_positive rdd)) in Hpos.
      apply Exists_exists in Hpos as ([t c] & Hin & Hsub).
      apply list_elem_of_fmap in Hin as (t' & Heq & Ht'). simplify_eq.
      apply Exists_exists. exists t'. split; [done|]. apply Hsub. left.
    + apply filter_none. intros x Hx ->. by apply He, Hex.
Qed.

(** ** Degenerate configurations *)

Lemma genCondTransaction_zero (transaction : list string) (rank : dict string nat) :
  genCondTransaction 0 transaction rank
  = match newTrans_of transaction rank with
    | [] => Ok []
    | _ => Raise ZeroDivisionError
    end.
Proof.
  unfold genCondTransaction.
  destruct (newTrans_of transaction rank) as [|x T]; [done|].
  destruct (reverse (x :: T)) as [|y l] eqn:E; [|done].
  apply (f_equal length) in E. by rewrite length_reverse in E.
Qed.

Lemma pairs_no_rank numPartitions (rdd : list (list string)) :
  for_each (fun acc x =>
              let* ct := genCondTransaction numPartitions x [] in Ok (acc ++ ct))
           [] rdd = Ok [].
Proof.
  induction rdd as [|t r IH]; [done|].
  cbn [for_each]. unfold genCondTransaction at 1.
  rewrite newTrans_of_no_rank. exact IH.
Qed.

Lemma sortBy_nil : sortBy [] = [].
Proof. apply Permutation_nil_r, sortBy_perm. Qed.

Lemma startMine_no_frequent i2z s2q lines minSup numPartitions sep v :
  fst (_convert i2z s2q (Z.of_nat (length (rdd_of lines))) minSup) = Ok v ->
  0 <= numPartitions ->
  filter_minSup v (itemCounts (rdd_of lines)) = Ok [] ->
  startMine i2z s2q sortBy lines minSup numPartitions sep = Ok [].
Proof.
  intros Hconv Hnp HF. unfold startMine.
  rewrite decide_False by lia. cbn [bind]. rewrite Hconv. cbn [bind].
  rewrite HF. cbn [bind]. rewrite sortBy_nil.
  cbn [fmap list_fmap rank_of imap dict_of dupdate foldl].
  by rewrite pairs_no_rank.
Qed.

Lemma NoDup_FPList_of thr (rdd : list (list string)) : NoDup (FPList_of sortBy thr rdd).
Proof.
  unfold FPList_of, freqItems_of. rewrite sortBy_perm.
  apply (NoDup_dkeys_filter _ _ (NoDup_dkeys_itemCounts rdd)).
Qed.

Lemma FPList_of_occurs thr (rdd : list (list string)) a :
  a ∈ FPList_of sortBy thr rdd -> Exists (fun t => a ∈ t) rdd.
Proof.
  unfold FPList_of, freqItems_of. rewrite sortBy_perm.
  intros ([a' c] & -> & Hin%list_elem_of_filter)%list_elem_of_fmap.
  destruct Hin as [_ Hin]. simpl.
  apply (elem_dget _ _ _ (NoDup_dkeys_itemCounts rdd)) in Hin.
  unfold itemCounts in Hin. rewrite dget_foldl_count in Hin.
  destruct (decide (a' ∈ concat rdd)) as [Hc|Hc]; [|done].
  apply elem_of_concat in Hc as (t & Ha & Ht).
  apply Exists_exists. by exists t.
Qed.

Lemma pairs_zero_raise (rank : dict string nat) (rdd : list (list string))
    (acc : dict Z (list nat)) :
  Exists (fun t => newTrans_of t rank <> []) rdd ->
  for_each (fun acc x =>
              let* ct := genCondTransaction 0 x rank in Ok (acc ++ ct))
           acc rdd = Raise ZeroDivisionError.
Proof.
  revert acc. induction rdd as [|t r IH]; intros acc Hex.
  - by apply Exists_nil in Hex.
  - cbn [for_each]. rewrite genCondTransaction_zero.
    destruct (newTrans_of t rank) as [|x T] eqn:E; [|done].
    cbn [bind]. apply IH. apply Exists_cons in Hex as [Hx|Hex]; [|done].
    by rewrite E in Hx.
Qed.

Lemma startMine_zero_raise i2z s2q lines minSup sep v :
  fst (_convert i2z s2q (Z.of_nat (length (rdd_of lines))) minSup) = Ok v ->
  numeric v ->
  FPList_of sortBy (as_Q v) (rdd_of lines) <> [] ->
  startMine i2z s2q sortBy lines minSup 0 sep = Raise ZeroDivisionError.
Proof.
  intros Hconv Hnum HF. unfold startMine.
  rewrite decide_False by lia. cbn [bind]. rewrite Hconv. cbn [bind].
  rewrite (filter_minSup_numeric _ _ Hnum). cbn [bind].
  change (sortBy _) with (freqItems_of sortBy (as_Q v) (rdd_of lines)).
  change (fst <$> freqItems_of sortBy (as_Q v) (rdd_of lines))
    with (FPList_of sortBy (as_Q v) (rdd_of lines)).
  rewrite pairs_zero_raise; [done|].
  destruct (FPList_of sortBy (as_Q v) (rdd_of lines)) as [|a F] eqn:E; [done|].
  assert (Ha : a ∈ FPList_of sortBy (as_Q v) (rdd_of lines)) by (rewrite E; left).
  pose proof (FPList_of_occurs _ _ _ Ha) as Hex.
  apply list_elem_of_lookup in Ha as [i Hi].
  apply (rank_of_spec _ _ _ (NoDup_FPList_of _ _)) in Hi. rewrite E in Hi.
  eapply Exists_impl; [exact Hex|]. intros t Hat Hnil.
  assert (Hin : i ∈ newTrans_of t (rank_of (a :: F))).
  { unfold newTrans_of. rewrite sorted_by_perm. apply list_elem_of_omap.
    by exists a. }
  rewrite Hnil in Hin. by apply elem_of_nil in Hin.
Qed.

Lemma FPList_of_nil thr (rdd : list (list string)) :
  FPList_of sortBy thr rdd = [] <->
  ~ Exists (fun kv : string * Z => meets_minSup thr (snd kv) = true) (itemCounts rdd).
Proof.
  unfold FPList_of, freqItems_of. split.
  - intros HF%fmap_nil_inv Hex.
    apply Exists_exists in Hex as (kv & Hin & Hm).
    assert (Hkv : kv ∈ sortBy
                    (filter (fun x : string * Z => meets_minSup thr (snd x) = true)
                            (itemCounts rdd))).
    { rewrite sortBy_perm. by apply list_elem_of_filter. }
    rewrite HF in Hkv. by apply elem_of_nil in Hkv.
  - intros Hex. rewrite filter_none; [by rewrite sortBy_nil|].
    intros kv Hin Hm. apply Hex, Exists_exists. by exists kv.
Qed.

(** X6: when the threshold resolves to a number that no item count
    meets, [startMine] returns the empty mapping, for every
    [numPartitions] the engine accepts (zero included) and whether or not
    lines repeat items. *)
Theorem startMine_nothing_frequent i2z s2q lines minSup numPartitions sep v :
  fst (_convert i2z s2q (Z.of_nat (length (rdd_of lines))) minSup) = Ok v ->
  numeric v -> 0 <= numPartitions ->
  (forall a c, dget a (itemCounts (rdd_of lines)) = Some c ->
               meets_minSup (as_Q v) c = false) ->
  startMine i2z s2q sortBy lines minSup numPartitions sep = Ok [].
Proof.
  intros Hconv Hnum Hnp Hlow.
  apply (startMine_no_frequent _ _ _ _ _ _ v Hconv Hnp).
  rewrite (filter_minSup_numeric _ _ Hnum). f_equal.
  apply filter_none. intros [a c] Hin Hm.
  apply (elem_dget _ _ _ (NoDup_dkeys_itemCounts _)) in Hin.
  apply Hlow in Hin. simpl in Hm. congruence.
Qed.

(** X7: with [numPartitions = 0] and a threshold that resolves to a
    number, [startMine] raises [ZeroDivisionError] as soon as one item
    count meets the threshold, and returns the empty mapping otherwise. *)
Theorem startMine_zero_partitions i2z s2q lines minSup sep v :
  fst (_convert i2z s2q (Z.of_nat (length (rdd_of lines))) minSup) = Ok v ->
  numeric v ->
  startMine i2z s2q sortBy lines minSup 0 sep
  = if decide (Exists (fun kv : string * Z => meets_minSup (as_Q v) (snd kv) = true)
                      (itemCounts (rdd_of lines)))
    then Raise ZeroDivisionError else Ok [].
Proof.
  intros Hconv Hnum. case_decide as Hex.
  - apply (startMine_zero_raise _ _ _ _ _ v Hconv Hnum).
    rewrite FPList_of_nil. tauto.
  - apply (startMine_no_frequent _ _ _ _ _ _ v Hconv); [lia|].
    rewrite (filter_minSup_numeric _ _ Hnum). f_equal.
    apply filter_none. intros kv Hin Hm. apply Hex, Exists_exists. by exists kv.
Qed.

(** X8: [genCondTransaction] never raises anything but
    [ZeroDivisionError], and raises it exactly when [numPartitions] is
    zero and the transaction holds at least one ranked item. *)
Theorem genCondTransaction_raises numPartitions
    (transaction : list string) (rank : dict string nat) :
  genCondTransaction numPartitions transaction rank <> OutOfFuel
  /\ forall e,
       genCondTransaction numPartitions transaction rank = Raise e
       <-> e = ZeroDivisionError /\ numPartitions = 0
           /\ newTrans_of transaction rank <> [].
Proof.
  destruct (decide (numPartitions = 0)) as [->|Hnp].
  - rewrite genCondTransaction_zero.
    destruct (newTrans_of transaction rank) as [|x T].
    + split; [done|]. intros e. split; [done | by intros (_ & _ & ?)].
    + split; [done|]. intros e. split; [by intros [= <-] | by intros [-> _]].
  - destruct (genCondTransaction_dget numPartitions transaction rank Hnp)
      as (ct & -> & _).
    split; [done|]. intros e. split; [done | by intros (_ & ? & _)].
Qed.

Lemma split_nonempty sep s : split sep s <> [].
Proof.
  destruct s as [|c s]; [done|]. cbn [split].
  case_decide; [done|]. by destruct (split sep s).
Qed.

Lemma itemCounts_nonempty (t : list string) (rdd : list (list string)) :
  t <> [] -> itemCounts (t :: rdd) <> [].
Proof.
  intros Ht E. destruct t as [|w ws]; [done|].
  assert (Hget : dget w (itemCounts ((w :: ws) :: rdd)) = None) by (by rewrite E).
  unfold itemCounts in Hget. rewrite dget_foldl_count in Hget.
  rewrite decide_True in Hget; [done|]. simpl. left.
Qed.

Lemma startMine_not_comparable i2z s2q lines minSup numPartitions sep v :
  fst (_convert i2z s2q (Z.of_nat (length (rdd_of lines))) minSup) = Ok v ->
  ~ comparable v -> 0 <= numPartitions ->
  startMine i2z s2q sortBy lines minSup numPartitions sep
  = match lines with [] => Ok [] | _ => Raise TypeError end.
Proof.
  intros Hconv Hv Hnp.
  destruct lines as [|x lines].
  - apply (startMine_no_frequent _ _ _ _ _ _ v Hconv Hnp).
    by rewrite (filter_minSup_not_comparable _ _ Hv).
  - unfold startMine. rewrite decide_False by lia. cbn [bind].
    rewrite Hconv. cbn [bind]. rewrite (filter_minSup_not_comparable _ _ Hv).
    destruct (itemCounts (rdd_of (x :: lines))) eqn:E; [|done].
    exfalso. revert E. apply itemCounts_nonempty, split_nonempty.
Qed.

(** X9: for every [numPartitions] the engine accepts, an exception raised
    while resolving [minSup] leaves [startMine]; with [minSup = None] the
    run raises [TypeError] at the first count comparison, unless the input
    has no line at all, in which case the empty mapping is returned. *)
Theorem startMine_invalid_minSup i2z s2q lines numPartitions sep :
  0 <= numPartitions ->
  (forall minSup e,
     fst (_convert i2z s2q (Z.of_nat (length (rdd_of lines))) minSup) = Raise e ->
     startMine i2z s2q sortBy lines minSup numPartitions sep = Raise e)
  /\ startMine i2z s2q sortBy lines PNone numPartitions sep
     = match lines with [] => Ok [] | _ => Raise TypeError end.
Proof.
  intros Hnp. split.
  - intros minSup e Hconv. unfold startMine.
    rewrite decide_False by lia. cbn [bind]. by rewrite Hconv.
  - apply (startMine_not_comparable _ _ _ _ _ _ PNone); [done | | done].
    simpl. tauto.
Qed.

Lemma StronglySorted_lookup {A} (R : A -> A -> Prop) (l : list A) i j x y :
  StronglySorted R l -> (i < j)%nat ->
  l !! i = Some x -> l !! j = Some y -> R x y.
Proof.
  intros Hs. revert i j. induction Hs as [|a l Hs IH Hall]; intros i j Hij Hi Hj.
  - done.
  - destruct j as [|j]; [lia|]. destruct i as [|i].
    + simpl in Hi, Hj. injection Hi as <-.
      rewrite Forall_forall in Hall. apply Hall.
      by eapply list_elem_of_lookup_2.
    + simpl in Hi, Hj. apply (IH i j); [lia | done | done].
Qed.

Lemma freqItems_of_elem thr (rdd : list (list string)) a c :
  (a, c) ∈ freqItems_of sortBy thr rdd <->
  dget a (itemCounts rdd) = Some c /\ meets_minSup thr c = true.
Proof.
  unfold freqItems_of. rewrite sortBy_perm, list_elem_of_filter.
  simpl. split.
  - intros [Hm Hin]. split; [|done].
    by apply (elem_dget _ _ _ (NoDup_dkeys_itemCounts rdd)).
  - intros [Hget Hm]. split; [done|]. by apply dget_Some_elem.
Qed.

(** X10: the frequent-item list [self._FPList] of [startMine] has no
    duplicates, holds exactly the items whose count meets the threshold,
    lists them by non-increasing count, and the [rank] dictionary built
    from it is its inverse: [rank[a] = i] exactly when [FPList[i] = a]. *)
Theorem FPList_ranking thr (rdd : list (list string)) :
  let FPList := FPList_of sortBy thr rdd in
  NoDup FPList
  /\ (forall a, a ∈ FPList <->
        exists c, dget a (itemCounts rdd) = Some c /\ meets_minSup thr c = true)
  /\ (forall i j a b ca cb,
        (i < j)%nat -> FPList !! i = Some a -> FPList !! j = Some b ->
        dget a (itemCounts rdd) = Some ca -> dget b (itemCounts rdd) = Some cb ->
        cb <= ca)
  /\ (forall a i, dget a (rank_of FPList) = Some i <-> FPList !! i = Some a).
Proof.
  intros FPList. split; [apply NoDup_FPList_of|]. split; [|split].
  - intros a. unfold FPList, FPList_of. rewrite list_elem_of_fmap. split.
    + intros ([a' c] & -> & Hin). exists c. by apply freqItems_of_elem.
    + intros (c & Hc). exists (a, c). split; [done|]. by apply freqItems_of_elem.
  - intros i j a b ca cb Hij Hi Hj Ha Hb.
    unfold FPList, FPList_of in Hi, Hj. rewrite list_lookup_fmap in Hi, Hj.
    destruct (freqItems_of sortBy thr rdd !! i) as [[a' ca']|] eqn:Ei; [|done].
    destruct (freqItems_of sortBy thr rdd !! j) as [[b' cb']|] eqn:Ej; [|done].
    simpl in Hi, Hj. simplify_eq.
    pose proof (proj1 (freqItems_of_elem thr rdd a ca')
                  (list_elem_of_lookup_2 _ _ _ Ei)) as [Ha' _].
    pose proof (proj1 (freqItems_of_elem thr rdd b cb')
                  (list_elem_of_lookup_2 _ _ _ Ej)) as [Hb' _].
    simplify_eq.
    pose proof (StronglySorted_lookup _ _ i j _ _
                  (proj2 (sortBy_sorts _))
                  Hij Ei Ej) as Hle.
    simpl in Hle. lia.
  - intros a i. apply rank_of_spec, NoDup_FPList_of.
Qed.

(** ** Ranks and labels *)

(** X11: [labels_of] (the tuple comprehension over [self._FPList] in
    [startMine]) raises [IndexError] exactly when some rank is out of
    range; on a duplicate-free list it is inverse to [rank]: ranks map to
    labels that map back to the same ranks, and labels of the list map
    to ranks that map back to the same labels. *)
Theorem labels_of_ranks (FPList : list string) :
  (forall k,
     labels_of FPList k
     = if decide (Forall (fun i => (i < length FPList)%nat) k)
       then Ok (lbls_of FPList k) else Raise IndexError)
  /\ (NoDup FPList ->
      (forall k, Forall (fun i => (i < length FPList)%nat) k ->
                 omap (fun a => dget a (rank_of FPList)) (lbls_of FPList k) = k)
      /\ (forall S, Forall (fun a => a ∈ FPList) S ->
                    labels_of FPList (omap (fun a => dget a (rank_of FPList)) S)
                    = Ok S)).
Proof.
  split.
  - intros k. case_decide as Hk; [by apply labels_of_valid|].
    induction k as [|z k IH]; [by destruct Hk|].
    cbn [labels_of]. destruct (FPList !! z) as [lbl|] eqn:E; [|done].
    rewrite IH; [done|]. intros Hall. apply Hk. constructor; [|done].
    by eapply lookup_lt_Some.
  - intros HF. split.
    + intros k Hk. induction Hk as [|i k Hi Hk IH]; [done|].
      apply lookup_lt_is_Some in Hi as [a Ha].
      unfold lbls_of in *. csimpl. rewrite Ha. csimpl.
      rewrite (proj2 (rank_of_spec FPList a i HF) Ha). csimpl. by rewrite IH.
    + intros S HS. induction HS as [|a S Ha HS IH]; [done|].
      apply list_elem_of_lookup in Ha as [i Hi].
      csimpl. rewrite (proj2 (rank_of_spec FPList a i HF) Hi). csimpl.
      cbn [labels_of]. rewrite Hi, IH. done.
Qed.

(** ** Reading lines and writing keys *)

Lemma split_sapp_tab (x s : string) :
  contains tab x = false ->
  split tab (x ++ String tab s)%string = x :: split tab s.
Proof.
  induction x as [|c x IH]; intros Hx.
  - rewrite sapp_nil_l. cbn [split]. by rewrite decide_True.
  - rewrite sapp_cons. cbn [contains] in Hx. cbn [split].
    destruct (decide (tab = c)) as [|Hne]; [done|].
    rewrite decide_False by congruence. by rewrite IH.
Qed.

Lemma items_key_split (s : string) :
  items_key (split tab s) = (s ++ String tab EmptyString)%string.
Proof.
  induction s as [|c s IH]; [done|].
  cbn [split]. case_decide as Hc.
  - subst c. by rewrite items_key_cons, IH, sapp_nil_l, sapp_cons.
  - destruct (split tab s) as [|w ws] eqn:E; [by apply split_nonempty in E|].
    rewrite items_key_cons, sapp_cons, <- items_key_cons, IH. done.
Qed.

(** X12: the key written for a pattern decodes: splitting the key of
    tab-free items at tabs gives the items back, followed by one empty
    string; conversely the items read from a string re-encode to that
    string followed by a tab, so every line is read as a non-empty list of
    tab-free items whose key is the line without its trailing whitespace
    (what [rstrip()] leaves) plus a tab.  A one-item tuple and the item
    itself get the same key. *)
Theorem key_of_round_trip :
  (forall p, Forall (fun a => contains tab a = false) p ->
             split tab (items_key p) = p ++ [EmptyString])
  /\ (forall s, items_key (split tab s) = (s ++ String tab EmptyString)%string)
  /\ (forall lines i x,
        lines !! i = Some x ->
        exists t,
          rdd_of lines !! i = Some t /\ t <> []
          /\ Forall (fun a => contains tab a = false) t
          /\ items_key t = (rstrip x ++ String tab EmptyString)%string)
  /\ (forall a, key_of (PatStr a) = key_of (PatTuple [a])).
Proof.
  split; [|split; [|split]].
  - intros p Hp. induction Hp as [|x p Hx Hp IH]; [done|].
    by rewrite items_key_cons, split_sapp_tab, IH.
  - apply items_key_split.
  - intros lines i x Hi. exists (split tab (rstrip x)). split; [|split; [|split]].
    + unfold rdd_of. by rewrite list_lookup_fmap, Hi.
    + apply split_nonempty.
    + apply Forall_forall. intros a. apply split_tab_free.
    + apply items_key_split.
  - intros a. apply key_of_PatStr.
Qed.

(** ** Shape of the pattern mapping *)


Lemma support_le_length {A} `{EqDecision A} (rdd : list (list A)) S :
  support rdd S <= Z.of_nat (length rdd).
Proof.
  induction rdd as [|t rdd IH]; [done|].
  rewrite support_cons. cbn [length]. case_decide; lia.
Qed.

(** X14: when no line repeats an item and [numPartitions] is positive,
    every count in the mapping returned by [startMine] is positive, at
    least the resolved threshold (the rounded product, for a fraction) and
    at most the number of lines; hence a resolved threshold above the
    number of lines gives the empty mapping. *)
Theorem startMine_counts_bounded i2z s2q lines minSup numPartitions sep v :
  fst (_convert i2z s2q (Z.of_nat (length (rdd_of lines))) minSup) = Ok v ->
  numeric v -> 0 < numPartitions -> Forall NoDup (rdd_of lines) ->
  exists final,
    startMine i2z s2q sortBy lines minSup numPartitions sep = Ok final
    /\ (forall s c, (s, c) ∈ final ->
          0 < c <= Z.of_nat (length lines) /\ (as_Q v <= inject_Z c)%Q)
    /\ ((inject_Z (Z.of_nat (length lines)) < as_Q v)%Q -> final = []).
Proof.
  intros Hconv Hnum Hnp Hnd.
  destruct (startMine_entries i2z s2q lines minSup numPartitions sep v
              Hconv Hnum Hnp Hnd) as (final & Hrun & Hkeys & Hmem).
  assert (Hb : forall s c, (s, c) ∈ final ->
            0 < c <= Z.of_nat (length lines) /\ (as_Q v <= inject_Z c)%Q).
  { intros s c Hin. apply Hmem in Hin as (k & -> & Hfr).
    destruct Hfr as (_ & _ & _ & Hc & Hpos & Hm).
    split; [split; [done|] | by apply Qle_bool_iff in Hm].
    rewrite Hc. etrans; [apply support_le_length|].
    unfold rdd_of. by rewrite length_fmap. }
  exists final. split; [done|]. split; [done|].
  intros Hhigh. destruct final as [|[s c] final]; [done|].
  destruct (Hb s c) as [[_ Hle] Hthr]; [left|].
  exfalso. apply (Qlt_irrefl (as_Q v)).
  eapply Qle_lt_trans; [exact Hthr|].
  eapply Qle_lt_trans; [|exact Hhigh]. by rewrite <- Zle_Qle.
Qed.

Lemma FPList_of_descending thr (rdd : list (list string)) i j a b ca cb :
  (i < j)%nat ->
  FPList_of sortBy thr rdd !! i = Some a -> FPList_of sortBy thr rdd !! j = Some b ->
  dget a (itemCounts rdd) = Some ca -> dget b (itemCounts rdd) = Some cb ->
  cb <= ca.
Proof.
  intros Hij Hi Hj Ha Hb.
  unfold FPList_of in Hi, Hj. rewrite list_lookup_fmap in Hi, Hj.
  destruct (freqItems_of sortBy thr rdd !! i) as [[a' ca']|] eqn:Ei; [|done].
  destruct (freqItems_of sortBy thr rdd !! j) as [[b' cb']|] eqn:Ej; [|done].
  simpl in Hi, Hj. simplify_eq.
  pose proof (proj1 (freqItems_of_elem thr rdd a ca')
                (list_elem_of_lookup_2 _ _ _ Ei)) as [Ha' _].
  pose proof (proj1 (freqItems_of_elem thr rdd b cb')
                (list_elem_of_lookup_2 _ _ _ Ej)) as [Hb' _].
  simplify_eq.
  pose proof (StronglySorted_lookup _ _ i j _ _
                (proj2 (sortBy_sorts _))
                Hij Ei Ej) as Hle.
  simpl in Hle. lia.
Qed.

Lemma FPList_of_support thr (rdd : list (list string)) i a :
  Forall NoDup rdd ->
  FPList_of sortBy thr rdd !! i = Some a ->
  dget a (itemCounts rdd) = Some (support rdd [a]).
Proof.
  intros Hnd Hi. destruct (itemCounts_spec rdd Hnd) as [Hk Hmem].
  apply elem_dget; [done|]. apply Hmem. split; [|done].
  apply (FPList_of_occurs thr). by eapply list_elem_of_lookup_2.
Qed.

(** X15: when no line repeats an item and [numPartitions] is positive,
    every key of the mapping returned by [startMine] lists the items of
    its pattern from the least to the most frequent: along the key the
    supports of the single items never decrease, and none is below the
    count of the pattern. *)
Theorem startMine_key_order i2z s2q lines minSup numPartitions sep v :
  fst (_convert i2z s2q (Z.of_nat (length (rdd_of lines))) minSup) = Ok v ->
  numeric v -> 0 < numPartitions -> Forall NoDup (rdd_of lines) ->
  exists final,
    startMine i2z s2q sortBy lines minSup numPartitions sep = Ok final
    /\ forall s c, (s, c) ∈ final ->
         exists p,
           s = items_key p
           /\ StronglySorted
                (fun a b => support (rdd_of lines) [a] <= support (rdd_of lines) [b]) p
           /\ Forall (fun a => c <= support (rdd_of lines) [a]) p.
Proof.
  intros Hconv Hnum Hnp Hnd.
  destruct (startMine_entries i2z s2q lines minSup numPartitions sep v
              Hconv Hnum Hnp Hnd) as (final & Hrun & Hkeys & Hmem).
  exists final. split; [done|]. intros s c Hin.
  apply Hmem in Hin as (k & -> & Hfr).
  destruct Hfr as (_ & Hs & Hvalid & Hc & _ & _).
  exists (lbls_of (FPList_of sortBy (as_Q v) (rdd_of lines)) k).
  split; [done|]. split.
  - clear Hc. induction Hs as [|i k Hs IH Hall]; [constructor|].
    apply Forall_cons in Hvalid as [Hi Hvalid].
    apply lookup_lt_is_Some in Hi as [a Ha].
    unfold lbls_of in *. csimpl. rewrite Ha. csimpl.
    constructor; [by apply IH|].
    apply Forall_forall. intros b (j & Hj & Hb)%list_elem_of_omap.
    rewrite Forall_forall in Hall. specialize (Hall j Hj).
    apply (FPList_of_descending (as_Q v) (rdd_of lines) j i b a); [lia|done..| |].
    + by eapply FPList_of_support.
    + by eapply FPList_of_support.
  - apply Forall_forall. intros a Ha. rewrite Hc.
    apply (wsupp_anti _ _ _ (support_positive (rdd_of lines))).
    by intros x ->%list_elem_of_singleton.
Qed.

(** ** Shape of a built tree *)

Lemma path_count_ones (data : list (list nat)) p :
  path_count ((fun tx => (tx, 1)) <$> data) p
  = Z.of_nat (length (filter (fun tx => on_path tx p) data)).
Proof.
  unfold path_count. induction data as [|tx data IH]; [done|].
  csimpl. rewrite filter_cons. cbn [fst snd] in *.
  case_decide; cbn [length]; rewrite IH; lia.
Qed.

(** X16: the trie built by a sequence of [addTransaction] calls on a
    fresh tree has a node at a non-empty path exactly when some inserted
    transaction starts with that path; the node carries the last rank of
    the path and the total count of the transactions that start with it.
    For [buildTree] this count is the number of such transactions. *)
Theorem tree_paths_counts :
  (forall (l : list (list nat * Z)) p,
     p <> [] ->
     node_view (insert_all l new_Tree) p
     = if decide (Exists (fun txc : list nat * Z => on_path (fst txc) p) l)
       then Some (last p, path_count l p, stored_prefix p) else None)
  /\ (forall (data : list (list nat)) p,
        p <> [] ->
        node_view (buildTree new_Tree data) p
        = if decide (Exists (fun tx => on_path tx p) data)
          then Some (last p,
                     Z.of_nat (length (filter (fun tx => on_path tx p) data)),
                     stored_prefix p)
          else None)
  /\ (forall (l : list (list nat * Z)),
        node_view (insert_all l new_Tree) [] = Some (None, 0, [])).
Proof.
  split; [|split].
  - intros l p Hp. rewrite node_view_insert_all. by rewrite decide_False.
  - intros data p Hp.
    rewrite buildTree_insert_all, node_view_insert_all, decide_False by done.
    rewrite path_count_ones.
    destruct (decide (Exists (fun tx => on_path tx p) data)) as [He|He].
    + rewrite decide_True; [done|].
      apply Exists_exists in He as (tx & Hin & Hon).
      apply Exists_exists. exists (tx, 1). split; [|done].
      apply list_elem_of_fmap. by exists tx.
    + rewrite decide_False; [done|]. intros He'. apply He.
      apply Exists_exists in He' as ([tx c] & Hin & Hon).
      apply list_elem_of_fmap in Hin as (tx' & Heq & Hin). simplify_eq.
      apply Exists_exists. by exists tx'.
  - intros l. by rewrite node_view_insert_all.
Qed.

(** X17: in a tree built by [addTransaction] calls on a fresh tree, every
    node is reached from the root by exactly one path through [children]
    (no node is shared), the node at the end of a path carries the last
    rank of the path, and [nodeLink[r]] lists, once each, exactly the
    nodes that carry rank [r]. *)
Theorem tree_structure (l : list (list nat * Z)) :
  let t := insert_all l new_Tree in
  (forall id, (id < length (heap t))%nat ->
     exists p, walk (heap t) 0 p = Some id
               /\ forall p', walk (heap t) 0 p' = Some id -> p' = p)
  /\ (forall q r id, walk (heap t) 0 (q ++ [r]) = Some id ->
        item (node_at (heap t) id) = Some r
        /\ prefix (node_at (heap t) id) = stored_prefix (q ++ [r]))
  /\ item (node_at (heap t) 0) = None
  /\ (forall r refs, dget r (nodeLink t) = Some refs ->
        NoDup refs
        /\ forall id, id ∈ refs <->
             (id < length (heap t))%nat /\ item (node_at (heap t) id) = Some r).
Proof.
  intros t. destruct (wf_insert_all l new_Tree _ wf_new_Tree) as [paths Hwf].
  fold t in Hwf. split; [|split; [|split]].
  - intros id Hid. rewrite <- (wf_len _ _ Hwf) in Hid.
    apply lookup_lt_is_Some in Hid as [p Hp]. exists p. split.
    + by apply (walk_paths _ _ _ _ Hwf).
    + intros p' Hp'. apply (walk_paths _ _ _ _ Hwf) in Hp'. congruence.
  - intros q r id Hw. apply (walk_paths _ _ _ _ Hwf) in Hw.
    by apply (wf_item _ _ Hwf id q r).
  - destruct (insert_all_paths l new_Tree _ wf_new_Tree)
      as (paths' & _ & _ & _ & _ & Hroot).
    destruct (Hroot 0%nat) as [Hit _]; [simpl; lia|]. exact Hit.
  - intros r refs Hr. by apply (wf_link _ _ Hwf).
Qed.

(** ** Partition ids *)

(** X18: [getPartitionId] raises [ZeroDivisionError] for zero partitions;
    otherwise it returns the partition id congruent to the rank modulo
    [numPartitions], in [0, numPartitions) for a positive and in
    (numPartitions, 0] for a negative number of partitions. *)
Theorem getPartitionId_range numPartitions value :
  (numPartitions = 0 -> getPartitionId numPartitions value = Raise ZeroDivisionError)
  /\ (numPartitions <> 0 ->
      exists p q,
        getPartitionId numPartitions value = Ok p
        /\ Z.of_nat value = numPartitions * q + p
        /\ (0 < numPartitions -> 0 <= p < numPartitions)
        /\ (numPartitions < 0 -> numPartitions < p <= 0)).
Proof.
  split.
  - intros ->. done.
  - intros Hnp. exists (Z.of_nat value mod numPartitions),
                  (Z.of_nat value / numPartitions).
    split; [apply getPartitionId_owner, Hnp|].
    split; [by apply Z.div_mod|]. split.
    + intros Hpos. by apply Z.mod_pos_bound.
    + intros Hneg. by apply Z.mod_neg_bound.
Qed.

Lemma single_partition_loop (T l : list nat) (v : list nat) :
  for_each
    (fun condTrans i =>
       let* partition := getPartitionId 1 i in
       if dmem partition condTrans then Ok condTrans
       else Ok (dset partition (take (index i T + 1) T) condTrans))
    [(0, v)] l = Ok [(0, v)].
Proof.
  induction l as [|i l IH]; [done|].
  cbn [for_each]. rewrite getPartitionId_owner by done.
  unfold owner. rewrite Z.mod_1_r. exact IH.
Qed.

(** X19: with a single partition nothing is cut: when the ranked
    transaction has no repeated rank, [genCondTransaction] returns the
    whole ranked transaction for partition 0, and nothing when the
    transaction holds no ranked item. *)
Theorem genCondTransaction_single_partition
    (transaction : list string) (rank : dict string nat) :
  StronglySorted lt (newTrans_of transaction rank) ->
  genCondTransaction 1 transaction rank
  = match newTrans_of transaction rank with
    | [] => Ok []
    | _ :: _ => Ok [(0, newTrans_of transaction rank)]
    end.
Proof.
  intros Hs. unfold genCondTransaction.
  set (T := newTrans_of transaction rank) in *.
  destruct (decide (T = [])) as [->|Hne]; [done|].
  destruct (exists_last Hne) as (q & r & HT).
  assert (Hr : r ∉ q).
  { apply StronglySorted_lt_NoDup in Hs. rewrite HT in Hs.
    apply NoDup_app in Hs as (_ & Hdisj & _). intros Hin.
    apply (Hdisj r Hin). left. }
  assert (Hcut : take (index r T + 1) T = T).
  { rewrite HT, index_snoc_fresh by done.
    apply take_ge. rewrite length_app. simpl. lia. }
  replace (reverse T) with (r :: reverse q)
    by (by rewrite HT, reverse_app).
  cbn [for_each]. rewrite getPartitionId_owner by done.
  unfold owner. rewrite Z.mod_1_r. cbn [bind dmem dget dset].
  rewrite Hcut, single_partition_loop.
  destruct T; [done | done].
Qed.

Lemma genCondTransaction_single_partition_witness :
  let transaction := ["a"%string; "b"%string; "c"%string] in
  let rank := [("a"%string, 0%nat); ("c"%string, 1%nat)] in
  genCondTransaction 1 transaction rank
  = match newTrans_of transaction rank with
    | [] => Ok []
    | _ :: _ => Ok [(0, newTrans_of transaction rank)]
    end.
Proof.
  intros transaction rank.
  apply (genCondTransaction_single_partition transaction rank).
  vm_compute. repeat constructor; lia.
Defined.

(** ** Reporting *)

Lemma dataframe_loop (finalPatterns : dict string Z) (df : frame)
    (data : list (string * Z)) :
  foldl (fun (st : frame * list (string * Z)) (ab : string * Z) =>
           let data := snd st ++ [(replace tab " " (fst ab), snd ab)] in
           (DataFrame data ["Patterns"%string; "Support"%string], data))
        (df, data) finalPatterns
  = let rows := data ++ ((fun ab : string * Z => (replace tab " " (fst ab), snd ab))
                           <$> finalPatterns) in
    (match finalPatterns with
     | [] => df
     | _ :: _ => DataFrame rows ["Patterns"%string; "Support"%string]
     end, rows).
Proof.
  revert df data. induction finalPatterns as [|ab fp IH]; intros df data.
  - simpl. by rewrite app_nil_r.
  - cbn [foldl]. rewrite IH. cbn [fst snd]. csimpl.
    rewrite <- app_assoc. by destruct fp.
Qed.

Lemma split_sapp_sep sep (x s : string) :
  contains sep x = false ->
  split sep (x ++ String sep s)%string = x :: split sep s.
Proof.
  induction x as [|c x IH]; intros Hx.
  - rewrite sapp_nil_l. cbn [split]. by rewrite decide_True.
  - rewrite sapp_cons. cbn [contains] in Hx. cbn [split].
    destruct (decide (sep = c)) as [|Hne]; [done|].
    rewrite decide_False by congruence. by rewrite IH.
Qed.

Lemma replace_sapp old new (a b : string) :
  replace old new (a ++ b)%string = (replace old new a ++ replace old new b)%string.
Proof. induction a as [|c a IH]; [done|]. rewrite !sapp_cons. simpl. by rewrite IH. Qed.

Lemma replace_absent old new (a : string) :
  contains old a = false -> replace old new a = a.
Proof.
  induction a as [|c a IH]; [done|]. cbn [contains replace].
  destruct (decide (old = c)) as [|Hne]; [done|]. intros Ha.
  rewrite decide_False by congruence. by rewrite IH.
Qed.

Lemma contains_replace old new (s : string) :
  old <> new -> contains old (replace old new s) = false.
Proof.
  intros Hne. induction s as [|c s IH]; [done|]. cbn [replace].
  destruct (decide (c = old)) as [->|Hc]; cbn [contains];
    rewrite decide_False by congruence; exact IH.
Qed.

(** X20: [getPatternsAsDataFrame] returns the empty dict [{}], not a data
    frame, when there is no pattern; otherwise a frame with the columns
    [Patterns] and [Support] and one row per pattern, in order, holding the
    key with every tab turned into a space (no tab is left) and the
    count.  When the items hold neither tab nor space, splitting a
    [Patterns] cell at spaces gives the items back, followed by one
    empty string. *)
Theorem getPatternsAsDataFrame_rows :
  (forall finalPatterns,
     getPatternsAsDataFrame finalPatterns
     = match finalPatterns with
       | [] => EmptyDict
       | _ :: _ =>
           DataFrame ((fun ab : string * Z => (replace tab " " (fst ab), snd ab))
                        <$> finalPatterns)
                     ["Patterns"%string; "Support"%string]
       end)
  /\ (forall s, contains tab (replace tab " " s) = false
                /\ String.length (replace tab " " s) = String.length s)
  /\ (forall p,
        Forall (fun a => contains tab a = false /\ contains " " a = false) p ->
        split " " (replace tab " " (items_key p)) = p ++ [EmptyString]).
Proof.
  split; [|split].
  - intros fp. unfold getPatternsAsDataFrame. rewrite dataframe_loop.
    by destruct fp.
  - intros s. split; [by apply contains_replace|].
    induction s as [|c s IH]; [done|]. simpl. by rewrite IH.
  - intros p Hp. induction Hp as [|x p [Hx1 Hx2] Hp IH]; [done|].
    rewrite items_key_cons, replace_sapp, (replace_absent _ _ _ Hx1).
    cbn [replace]. rewrite decide_True by done.
    by rewrite split_sapp_sep, IH.
Qed.

Lemma rstrip_sapp_tab (s : string) :
  rstrip (s ++ String tab EmptyString)%string = rstrip s.
Proof.
  induction s as [|c s IH]; [done|].
  rewrite sapp_cons. cbn [rstrip]. by rewrite IH.
Qed.

Lemma rstrip_fixed (s : string) :
  s <> EmptyString -> ends_with_space s = false -> rstrip s = s.
Proof.
  induction s as [|c s IH]; [done|]. intros _ He.
  destruct s as [|c' s'].
  - simpl in *. by rewrite He.
  - cbn [ends_with_space] in He. cbn [rstrip]. cbn [rstrip] in IH.
    by rewrite IH.
Qed.

Lemma ends_with_space_sapp (k b : string) :
  b <> EmptyString -> ends_with_space (k ++ b)%string = ends_with_space b.
Proof.
  intros Hb. induction k as [|c k IH]; [done|].
  rewrite sapp_cons. cbn [ends_with_space].
  destruct (k ++ b)%string as [|c' s'] eqn:E; [|done].
  destruct k; [by rewrite sapp_nil_l in E | by rewrite sapp_cons in E].
Qed.

Lemma lstrip_fixed (s : string) : begins_with_space s = false -> lstrip s = s.
Proof. destruct s as [|c s]; [done|]. simpl. by intros ->. Qed.

Lemma items_key_app (l1 l2 : list string) :
  items_key (l1 ++ l2) = (items_key l1 ++ items_key l2)%string.
Proof.
  induction l1 as [|x l1 IH]; [done|].
  rewrite <- app_comm_cons, !items_key_cons, IH.
  by rewrite sapp_assoc, sapp_cons.
Qed.

Lemma str_decodes (y : Z) :
  NilZero.int_of_string (str y) = Some (Z.to_int y).
Proof.
  unfold str. apply NilZero.isi.
  - destruct y as [|p|p]; simpl; [done | | done].
    intros [= H]. by apply Unsigned.to_uint_nonnil in H.
  - destruct y as [|p|p]; simpl; [done | done |].
    intros [= H]. by apply Unsigned.to_uint_nonnil in H.
Qed.

Lemma save_snoc (fp : dict string Z) x y :
  save (fp ++ [(x, y)])
  = (save fp ++ ((strip x ++ ":" ++ str y)
                 ++ String " " (String (ascii_of_nat 10) EmptyString)))%string.
Proof. unfold save. by rewrite foldl_app. Qed.

(** X21: [save] writes nothing for an empty pattern set and otherwise
    one line per pattern, in order: the stripped key, a colon, the count
    in decimal, a space and a newline.  For the key of a pattern whose
    first item is non-empty and does not start with a whitespace character
    of [str.isspace] and whose last item is non-empty and does not end
    with one, stripping removes exactly the final tab; the decimal
    rendering of the count determines the count. *)
Theorem save_lines :
  save [] = EmptyString
  /\ (forall fp fp', save (fp ++ fp') = (save fp ++ save fp')%string)
  /\ (forall x y,
        save [(x, y)]
        = ((strip x ++ ":" ++ str y)
           ++ String " " (String (ascii_of_nat 10) EmptyString))%string)
  /\ (forall a q b,
        last (a :: q) = Some b ->
        a <> EmptyString -> begins_with_space a = false ->
        b <> EmptyString -> ends_with_space b = false ->
        (strip (items_key (a :: q)) ++ String tab EmptyString)%string
        = items_key (a :: q))
  /\ (forall y y', str y = str y' -> y = y').
Proof.
  split; [done|]. split; [|split; [done|split]].
  - intros fp fp'. induction fp' as [|[x y] fp' IH] using rev_ind.
    + rewrite app_nil_r. generalize (save fp). intros s.
      induction s as [|c s IHs]; [done|]. rewrite sapp_cons. by f_equal.
    + by rewrite app_assoc, !save_snoc, IH, sapp_assoc.
  - intros a q b Hlast Ha Hab Hb Hbe.
    destruct (exists_last (l := a :: q) ltac:(done)) as (q' & b' & Hq).
    rewrite Hq in Hlast. rewrite last_snoc in Hlast. injection Hlast as ->.
    assert (Hkey : items_key (a :: q)
                   = ((items_key q' ++ b) ++ String tab EmptyString)%string).
    { rewrite Hq, items_key_app, items_key_cons.
      by rewrite <- sapp_assoc. }
    assert (Hbegin : begins_with_space (items_key q' ++ b)%string = false).
    { destruct a as [|c a']; [done|].
      rewrite items_key_cons, sapp_cons in Hkey.
      destruct (items_key q' ++ b)%string as [|c' X] eqn:E.
      - destruct (items_key q'); [by rewrite sapp_nil_l in E
                                 | by rewrite sapp_cons in E].
      - rewrite sapp_cons in Hkey. injection Hkey as <- _. exact Hab. }
    rewrite Hkey at 1. unfold strip.
    rewrite rstrip_sapp_tab, rstrip_fixed, lstrip_fixed, <- Hkey; [done..| |].
    + intros E. destruct (items_key q'); [by rewrite sapp_nil_l in E
                                        | by rewrite sapp_cons in E].
    + by rewrite ends_with_space_sapp.
  - intros y y' Heq. apply to_int_inj.
    pose proof (str_decodes y) as H. rewrite Heq, str_decodes in H. congruence.
Qed.

(** ** Item counts of a tree *)

(** X22: [addTransaction] counts occurrences: after any sequence of
    insertions (repeated ranks allowed) into any tree, [itemCount[r]] is
    its former value (0 when absent) plus the sum over the insertions of
    count times the number of occurrences of [r]; it is untouched when no
    inserted transaction holds [r].  For transactions without repeated
    ranks inserted into a fresh tree this is the weighted support of
    [r]. *)
Theorem itemCount_totals (l : list (list nat * Z)) :
  (forall t r,
     dget r (itemCount (insert_all l t))
     = if decide (Exists (fun txc : list nat * Z => r ∈ fst txc) l)
       then Some (default 0 (dget r (itemCount t)) + item_total l r)
       else dget r (itemCount t))
  /\ (Forall (fun txc : list nat * Z => NoDup (fst txc)) l ->
      forall r, Exists (fun txc : list nat * Z => r ∈ fst txc) l ->
                dget r (itemCount (insert_all l new_Tree)) = Some (wsupp l [r])).
Proof.
  split; [intros t r; apply dget_itemCount_insert_all|].
  intros Hnd r Hex. rewrite dget_itemCount_insert_all, decide_True by done.
  cbn [new_Tree itemCount dget default]. f_equal. rewrite Z.add_0_l.
  unfold item_total, wsupp. apply Zsum_fmap_ext.
  intros [tx c] Hin. cbn [fst snd].
  rewrite Forall_forall in Hnd. specialize (Hnd _ Hin). cbn [fst] in Hnd.
  destruct (decide (r ∈ tx)) as [Hr|Hr].
  - rewrite (occ_NoDup _ _ Hnd Hr), decide_True; [lia|].
    by intros x ->%list_elem_of_singleton.
  - rewrite (occ_not_elem _ _ Hr), decide_False; [lia|].
    intros Hsub. apply Hr, Hsub. left.
Qed.

(** ** Order of the entries *)

Lemma startMine_shape i2z s2q lines minSup numPartitions sep v :
  fst (_convert i2z s2q (Z.of_nat (length (rdd_of lines))) minSup) = Ok v ->
  numeric v -> 0 < numPartitions -> Forall NoDup (rdd_of lines) ->
  exists fps : dict (list nat) Z,
    (forall k c, (k, c) ∈ fps ->
       Forall (fun i => (i < length (FPList_of sortBy (as_Q v) (rdd_of lines)))%nat) k
       /\ (2 <= length k)%nat)
    /\ startMine i2z s2q sortBy lines minSup numPartitions sep
       = Ok ((fun pv : pattern * Z => (key_of (fst pv), snd pv))
               <$> (((fun x : string * Z => (PatStr (fst x), snd x))
                       <$> freqItems_of sortBy (as_Q v) (rdd_of lines))
                    ++ ((fun rc : list nat * Z =>
                           (PatTuple (lbls_of (FPList_of sortBy (as_Q v) (rdd_of lines)) (fst rc)),
                            snd rc)) <$> fps))).
Proof.
  intros Hconv Hnum Hnp Hnd.
  destruct (startMine_run i2z s2q lines minSup numPartitions sep v Hconv Hnum Hnp Hnd)
    as (fps & Hndf & Hfps & ->).
  set (rdd := rdd_of lines) in *. set (thr := as_Q v) in *.
  set (F := FPList_of sortBy thr rdd) in *.
  destruct (freqItems_spec thr rdd Hnd) as [HF _]. fold F in HF.
  set (singles := (fun x : string * Z => (PatStr (fst x), snd x)) <$> freqItems_of sortBy thr rdd).
  set (result := (fun rc : list nat * Z => (PatTuple (lbls_of F (fst rc)), snd rc)) <$> fps).
  assert (Hfps' : forall k c, (k, c) ∈ fps <->
            (exists r ext, ext <> [] /\ k = r :: ext) /\ frequent_ranks sortBy thr rdd k c).
  { intros k c. rewrite Hfps. split.
    - intros (r & ext & Hne & -> & Hm). split; [by exists r, ext|].
      by apply mined_frequent_ranks.
    - intros [(r & ext & Hne & ->) Hfr]. exists r, ext.
      split; [done|]. split; [done|]. by apply mined_frequent_ranks. }
  assert (Hkeys : key_of <$> dkeys (singles ++ result)
                  = items_key <$> (((fun a => [a]) <$> F) ++ (lbls_of F <$> dkeys fps))).
  { unfold dkeys, singles, result, F, FPList_of.
    rewrite !fmap_app, <- !list_fmap_compose. by f_equal. }
  assert (Hvalid : forall k, k ∈ dkeys fps ->
            Forall (fun i => (i < length F)%nat) k /\ (2 <= length k)%nat).
  { intros k ([k' c] & -> & Hin)%list_elem_of_fmap. cbn [fst].
    apply Hfps' in Hin as [(r & ext & Hne & ->) (_ & _ & Hv & _)].
    split; [done|]. destruct ext; [done | simpl; lia]. }
  assert (HndK : NoDup (key_of <$> dkeys (singles ++ result))).
  { rewrite Hkeys. apply NoDup_fmap_2_strong.
    - intros l l' Hl Hl' Heq. apply items_key_inj; [| |done].
      + apply elem_of_app in Hl as [(a & -> & Ha)%list_elem_of_fmap
                                   |(k & -> & _)%list_elem_of_fmap].
        * repeat constructor. by apply (FPList_tab_free thr lines).
        * by apply lbls_of_tab_free.
      + apply elem_of_app in Hl' as [(a & -> & Ha)%list_elem_of_fmap
                                    |(k & -> & _)%list_elem_of_fmap].
        * repeat constructor. by apply (FPList_tab_free thr lines).
        * by apply lbls_of_tab_free.
    - apply NoDup_app. split; [|split].
      + apply NoDup_fmap_2_strong; [|done]. by intros a a' _ _ [= ->].
      + intros l (a & -> & _)%list_elem_of_fmap (k & Heq & Hk)%list_elem_of_fmap.
        destruct (Hvalid k Hk) as [Hv Hlen].
        apply (f_equal length) in Heq. rewrite (lbls_of_length _ _ Hv) in Heq.
        simpl in Heq. lia.
      + apply NoDup_fmap_2_strong; [|done].
        intros k k' Hk Hk' Heq.
        apply (lbls_of_inj F); [done | by apply Hvalid | by apply Hvalid | done]. }
  rewrite (assemble _ _ HndK). exists fps. split; [|done].
  intros k c Hin. apply Hvalid. apply list_elem_of_fmap. by exists (k, c).
Qed.

(** X24: when no line repeats an item and [numPartitions] is positive,
    the mapping returned by [startMine] starts with the frequent items in
    the order of [self._FPList] (most frequent first, items of equal count
    as the engine delivered them), each under the key made of the item and
    a tab and mapped to its count; the patterns of two or more items
    follow. *)
Theorem startMine_order i2z s2q lines minSup numPartitions sep v :
  fst (_convert i2z s2q (Z.of_nat (length (rdd_of lines))) minSup) = Ok v ->
  numeric v -> 0 < numPartitions -> Forall NoDup (rdd_of lines) ->
  exists multi,
    startMine i2z s2q sortBy lines minSup numPartitions sep
    = Ok (((fun x : string * Z => (key_of (PatStr (fst x)), snd x))
             <$> freqItems_of sortBy (as_Q v) (rdd_of lines))
          ++ multi)
    /\ Forall (fun kv : string * Z =>
                 exists p, fst kv = items_key p /\ (2 <= length p)%nat) multi.
Proof.
  intros Hconv Hnum Hnp Hnd.
  destruct (startMine_shape i2z s2q lines minSup numPartitions sep v
              Hconv Hnum Hnp Hnd) as (fps & Hvalid & ->).
  rewrite fmap_app, <- !list_fmap_compose. eexists. split; [reflexivity|].
  apply Forall_fmap, Forall_forall. intros [k c] Hin. cbn.
  destruct (Hvalid k c Hin) as [Hv Hlen].
  exists (lbls_of (FPList_of sortBy (as_Q v) (rdd_of lines)) k). split; [done|].
  by rewrite lbls_of_length.
Qed.

(** ** Partitions *)

(** X25: two partitions never report the same itemset: on trees built
    from strictly ascending transactions with positive counts, the keys
    returned by [genAllFrequentPatterns] for two different partition ids
    are disjoint. *)
Theorem genAllFrequentPatterns_disjoint minSup numPartitions p p'
    (l l' : list (list nat * Z)) :
  numPartitions <> 0 -> p <> p' ->
  Forall (fun txc : list nat * Z => StronglySorted lt (fst txc)) l ->
  Forall (fun txc : list nat * Z => 0 < snd txc) l ->
  Forall (fun txc : list nat * Z => StronglySorted lt (fst txc)) l' ->
  Forall (fun txc : list nat * Z => 0 < snd txc) l' ->
  exists d d',
    genAllFrequentPatterns minSup numPartitions (p, insert_all l new_Tree) = Ok d
    /\ genAllFrequentPatterns minSup numPartitions (p', insert_all l' new_Tree) = Ok d'
    /\ forall k, k ∈ dkeys d -> k ∉ dkeys d'.
Proof.
  intros Hnp Hpp Hs Hpos Hs' Hpos'.
  destruct (genAllFrequentPatterns_spec minSup numPartitions p l Hnp Hs Hpos)
    as (d & Hd & _ & Hmem).
  destruct (genAllFrequentPatterns_spec minSup numPartitions p' l' Hnp Hs' Hpos')
    as (d' & Hd' & _ & Hmem').
  exists d, d'. split; [done|]. split; [done|].
  intros k ([k1 c] & -> & Hin)%list_elem_of_fmap
           ([k2 c'] & Heq & Hin')%list_elem_of_fmap.
  cbn [fst] in Heq. subst k2.
  apply Hmem in Hin as (r & ext & _ & -> & Ho & _).
  apply Hmem' in Hin' as (r' & ext' & _ & [= <- _] & Ho' & _).
  congruence.
Qed.

Lemma genAllFrequentPatterns_disjoint_witness :
  let l := [([0; 1; 2]%nat, 1); ([0; 2]%nat, 1)] in
  let l' := [([0; 1]%nat, 1)] in
  exists d d',
    genAllFrequentPatterns 1 2 (0, insert_all l new_Tree) = Ok d
    /\ genAllFrequentPatterns 1 2 (1, insert_all l' new_Tree) = Ok d'
    /\ forall k, k ∈ dkeys d -> k ∉ dkeys d'.
Proof.
  intros l l'.
  apply (genAllFrequentPatterns_disjoint 1 2 0 1 l l'); [lia | lia | ..].
  - repeat constructor; lia.
  - repeat constructor.
  - repeat constructor; lia.
  - repeat constructor.
Defined.

End engine.

(** ** Instances *)

Lemma itemCounts_occurrences_witness :
  let rdd := [["a"%string; "b"%string]; ["a"%string]] in
  Forall NoDup rdd /\ occurrences "a"%string rdd = support rdd ["a"%string].
Proof.
  intros rdd.
  assert (Hnd : Forall NoDup rdd) by (apply (bool_decide_unpack _); vm_compute; exact I).
  split; [exact Hnd|].
  apply (proj2 (proj2 (itemCounts_occurrences rdd)) Hnd).
Defined.

Lemma labels_of_ranks_witness :
  let FPList := ["a"%string; "b"%string] in
  omap (fun a => dget a (rank_of FPList)) (lbls_of FPList [1%nat; 0%nat])
  = [1%nat; 0%nat]
  /\ labels_of FPList (omap (fun a => dget a (rank_of FPList)) ["b"%string])
     = Ok ["b"%string].
Proof.
  intros FPList.
  assert (HF : NoDup FPList) by (apply (bool_decide_unpack _); vm_compute; exact I).
  destruct (proj2 (labels_of_ranks FPList) HF) as [H1 H2]. split.
  - apply H1. apply (bool_decide_unpack _); vm_compute; exact I.
  - apply H2. repeat constructor.
Defined.

Lemma key_of_round_trip_witness :
  split tab (items_key ["b"%string; "a"%string])
  = ["b"%string; "a"%string] ++ [EmptyString].
Proof.
  apply (proj1 key_of_round_trip). repeat constructor.
Defined.

Lemma tree_paths_counts_witness :
  let data := [[0; 1]%nat; [0; 2]%nat] in
  node_view (buildTree new_Tree data) [0%nat]
  = if decide (Exists (fun tx => on_path tx [0%nat]) data)
    then Some (last [0%nat],
               Z.of_nat (length (filter (fun tx => on_path tx [0%nat]) data)),
               stored_prefix [0%nat])
    else None.
Proof.
  intros data.
  apply (proj1 (proj2 tree_paths_counts) data [0%nat]). done.
Defined.

Lemma tree_structure_witness :
  let t := insert_all [([0; 1]%nat, 1)] new_Tree in
  exists p, walk (heap t) 0 p = Some 1%nat
            /\ forall p', walk (heap t) 0 p' = Some 1%nat -> p' = p.
Proof.
  intros t.
  apply (proj1 (tree_structure [([0; 1]%nat, 1)]) 1%nat).
  vm_compute. lia.
Defined.

Lemma getPartitionId_range_witness :
  exists p q,
    getPartitionId 3 5 = Ok p
    /\ Z.of_nat 5 = 3 * q + p
    /\ (0 < 3 -> 0 <= p < 3)
    /\ (3 < 0 -> 3 < p <= 0).
Proof.
  apply (proj2 (getPartitionId_range 3 5)). lia.
Defined.

Lemma getPatternsAsDataFrame_rows_witness :
  split " " (replace tab " " (items_key ["b"%string; "a"%string]))
  = ["b"%string; "a"%string] ++ [EmptyString].
Proof.
  apply (proj2 (proj2 getPatternsAsDataFrame_rows)).
  repeat constructor.
Defined.

Lemma save_lines_witness :
  (strip (items_key ["b"%string; "a"%string]) ++ String tab EmptyString)%string
  = items_key ["b"%string; "a"%string].
Proof.
  apply (proj1 (proj2 (proj2 (proj2 save_lines))) "b"%string ["a"%string] "a"%string);
    [reflexivity | done | reflexivity | done | reflexivity].
Defined.

Lemma itemCount_totals_witness :
  let l := [([0; 1]%nat, 2); ([0]%nat, 1)] in
  dget 0%nat (itemCount (insert_all l new_Tree)) = Some (wsupp l [0%nat]).
Proof.
  intros l.
  apply (proj2 (itemCount_totals l)).
  - apply (bool_decide_unpack _); vm_compute; exact I.
  - left. simpl. left.
Defined.

(** ** Instances of the run *)

Lemma sortBy_desc_sorts : sorts_desc sortBy_desc.
Proof.
  intros d. split; [apply sorted_by_perm|].
  eapply StronglySorted_mono; [|apply sorted_by_sorted].
  intros a b. unfold key_le. lia.
Qed.

Lemma startMine_frequent_itemsets_witness :
  let lines := [String "a" (String tab (String "b" EmptyString)); "a"%string] in
  let rdd := rdd_of lines in
  Forall NoDup rdd
  /\ exists final,
       startMine (fun _ => None) (fun _ => None) sortBy_desc lines (PInt 1) 2
                 (String tab EmptyString) = Ok final
       /\ NoDup (dkeys final)
       /\ (forall S, S <> [] -> NoDup S ->
             0 < support rdd S ->
             (as_Q (PInt 1) <= inject_Z (support rdd S))%Q ->
             exists p,
               p ≡ₚ S
               /\ dget (items_key p) final = Some (support rdd S)
               /\ forall p', p' ≡ₚ S -> items_key p' ∈ dkeys final -> p' = p)
       /\ (forall s c, (s, c) ∈ final ->
             exists p,
               s = items_key p /\ p <> [] /\ NoDup p
               /\ c = support rdd p
               /\ 0 < c /\ (as_Q (PInt 1) <= inject_Z c)%Q)
       /\ ((0 < as_Q (PInt 1))%Q ->
           forall S, (as_Q (PInt 1) <= inject_Z (support rdd S))%Q ->
                     0 < support rdd S).
Proof.
  intros lines rdd.
  assert (Hnd : Forall NoDup rdd) by (apply (bool_decide_unpack _); vm_compute; exact I).
  split; [exact Hnd|].
  apply (startMine_frequent_itemsets sortBy_desc sortBy_desc_sorts
           (fun _ => None) (fun _ => None) lines
           (PInt 1) 2 (String tab EmptyString) (PInt 1));
    [reflexivity | exact I | lia | exact Hnd].
Defined.

Lemma startMine_nothing_frequent_witness :
  startMine (fun _ => None) (fun _ => None) sortBy_desc
            ["a"%string; "b"%string] (PInt 2) 0 (String tab EmptyString)
  = Ok [].
Proof.
  apply (startMine_nothing_frequent sortBy_desc sortBy_desc_sorts
           (fun _ => None) (fun _ => None)
           ["a"%string; "b"%string] (PInt 2) 0 (String tab EmptyString) (PInt 2));
    [reflexivity | exact I | lia |].
  intros a c Hget.
  assert (E : itemCounts (rdd_of ["a"%string; "b"%string])
              = [("a"%string, 1); ("b"%string, 1)]) by reflexivity.
  rewrite E in Hget. cbn [dget] in Hget.
  repeat case_decide; simplify_eq; reflexivity.
Defined.

Lemma startMine_zero_partitions_witness :
  startMine (fun _ => None) (fun _ => None) sortBy_desc
            ["a"%string; "a"%string] (PInt 2) 0 (String tab EmptyString)
  = Raise ZeroDivisionError.
Proof.
  rewrite (startMine_zero_partitions sortBy_desc sortBy_desc_sorts
           (fun _ => None) (fun _ => None)
             ["a"%string; "a"%string] (PInt 2) (String tab EmptyString) (PInt 2));
    [reflexivity | reflexivity | exact I].
Defined.

Lemma startMine_invalid_minSup_witness :
  startMine (fun _ => None) (fun _ => None) sortBy_desc ["a"%string] (PStr "x") 1
            (String tab EmptyString)
  = Raise ValueError.
Proof.
  assert (Hnp : 0 <= 1) by lia.
  apply (proj1 (startMine_invalid_minSup sortBy_desc sortBy_desc_sorts
                  (fun _ => None) (fun _ => None)
                  ["a"%string] 1 (String tab EmptyString) Hnp)).
  reflexivity.
Defined.


Lemma startMine_counts_bounded_witness :
  let lines := [String "a" (String tab (String "b" EmptyString)); "a"%string] in
  exists final,
    startMine (fun _ => None) (fun _ => None) sortBy_desc lines (PInt 1) 2
              (String tab EmptyString) = Ok final
    /\ (forall s c, (s, c) ∈ final ->
          0 < c <= Z.of_nat (length lines) /\ (as_Q (PInt 1) <= inject_Z c)%Q)
    /\ ((inject_Z (Z.of_nat (length lines)) < as_Q (PInt 1))%Q -> final = []).
Proof.
  intros lines.
  apply (startMine_counts_bounded sortBy_desc sortBy_desc_sorts
           (fun _ => None) (fun _ => None) lines
           (PInt 1) 2 (String tab EmptyString) (PInt 1));
    [reflexivity | exact I | lia |].
  apply (bool_decide_unpack _); vm_compute; exact I.
Defined.

Lemma startMine_key_order_witness :
  let lines := [String "a" (String tab (String "b" EmptyString)); "a"%string] in
  exists final,
    startMine (fun _ => None) (fun _ => None) sortBy_desc lines (PInt 1) 2
              (String tab EmptyString) = Ok final
    /\ forall s c, (s, c) ∈ final ->
         exists p,
           s = items_key p
           /\ StronglySorted
                (fun a b => support (rdd_of lines) [a] <= support (rdd_of lines) [b]) p
           /\ Forall (fun a => c <= support (rdd_of lines) [a]) p.
Proof.
  intros lines.
  apply (startMine_key_order sortBy_desc sortBy_desc_sorts
           (fun _ => None) (fun _ => None) lines
           (PInt 1) 2 (String tab EmptyString) (PInt 1));
    [reflexivity | exact I | lia |].
  apply (bool_decide_unpack _); vm_compute; exact I.
Defined.

Lemma startMine_order_witness :
  let lines := [String "a" (String tab (String "b" EmptyString)); "a"%string] in
  exists multi,
    startMine (fun _ => None) (fun _ => None) sortBy_desc lines (PInt 1) 2
              (String tab EmptyString)
    = Ok (((fun x : string * Z => (key_of (PatStr (fst x)), snd x))
             <$> freqItems_of sortBy_desc (as_Q (PInt 1)) (rdd_of lines))
          ++ multi)
    /\ Forall (fun kv : string * Z =>
                 exists p, fst kv = items_key p /\ (2 <= length p)%nat) multi.
Proof.
  intros lines.
  apply (startMine_order sortBy_desc sortBy_desc_sorts
           (fun _ => None) (fun _ => None) lines
           (PInt 1) 2 (String tab EmptyString) (PInt 1));
    [reflexivity | exact I | lia |].
  apply (bool_decide_unpack _); vm_compute; exact I.
Defined.


Lemma FPList_ranking_witness :
  let FPList := FPList_of sortBy_desc 1 [["a"%string; "b"%string]; ["a"%string]] in
  NoDup FPList
  /\ (forall a, a ∈ FPList <->
        exists c, dget a (itemCounts [["a"%string; "b"%string]; ["a"%string]]) = Some c
                  /\ meets_minSup 1 c = true)
  /\ (forall i j a b ca cb,
        (i < j)%nat -> FPList !! i = Some a -> FPList !! j = Some b ->
        dget a (itemCounts [["a"%string; "b"%string]; ["a"%string]]) = Some ca ->
        dget b (itemCounts [["a"%string; "b"%string]; ["a"%string]]) = Some cb ->
        cb <= ca)
  /\ (forall a i, dget a (rank_of FPList) = Some i <-> FPList !! i = Some a).
Proof.
  apply (FPList_ranking sortBy_desc sortBy_desc_sorts 1
           [["a"%string; "b"%string]; ["a"%string]]).
Defined.

(** ** The number of partitions, the order of equal counts *)

Lemma filter_all {A} (P : A -> Prop) `{forall x, Decision (P x)} (l : list A) :
  (forall x, x ∈ l -> P x) -> filter P l = l.
Proof.
  induction l as [|x l IH]; intros Hl; [done|].
  rewrite filter_cons, decide_True by (apply Hl; left).
  f_equal. apply IH. intros y Hy. apply Hl. by right.
Qed.

Lemma filter_minSup_float f (d : dict string Z) :
  filter_minSup (PFloat f) d
  = Ok (filter (fun x => int_ge_float (snd x) f = true) d).
Proof.
  unfold filter_minSup.
  assert (Hgen : forall acc,
    for_each (fun acc x => let* b := ge_pyval (snd x) (PFloat f) in
                           Ok (if b : bool then acc ++ [x] else acc)) acc d
    = Ok (acc ++ filter (fun x => int_ge_float (snd x) f = true) d)).
  { induction d as [|x d IH]; intros acc; cbn [for_each].
    - by rewrite app_nil_r.
    - cbn [ge_pyval bind]. rewrite IH, filter_cons.
      destruct (int_ge_float (snd x) f) eqn:E.
      + rewrite decide_True by done. by rewrite <- app_assoc.
      + rewrite decide_False by done. done. }
  apply Hgen.
Qed.

Lemma itemCounts_positive (rdd : list (list string)) a c :
  (a, c) ∈ itemCounts rdd -> 0 <= c.
Proof.
  intros Hin. apply (elem_dget _ _ _ (NoDup_dkeys_itemCounts rdd)) in Hin.
  unfold itemCounts in Hin. rewrite dget_foldl_count in Hin.
  case_decide; [|done]. injection Hin as <-. simpl. lia.
Qed.

(** The threshold [-inf] admits what the threshold 0 admits. *)
Lemma startMine_minus_inf i2z s2q sortBy lines minSup numPartitions sep :
  fst (_convert i2z s2q (Z.of_nat (length (rdd_of lines))) minSup)
  = Ok (PFloat (S754_infinity true)) ->
  startMine i2z s2q sortBy lines minSup numPartitions sep
  = startMine i2z s2q sortBy lines (PInt 0) numPartitions sep.
Proof.
  intros Hconv. unfold startMine.
  destruct (decide (numPartitions < 0)); [done|]. cbn [bind].
  rewrite Hconv. cbn [_convert fst bind].
  rewrite filter_minSup_float, (filter_minSup_numeric (PInt 0)) by done.
  rewrite !filter_all; [done| |].
  - intros [a c] Hin%itemCounts_positive. unfold meets_minSup. cbn [snd as_Q].
    apply Qle_bool_iff. by rewrite <- Zle_Qle.
  - by intros x _.
Qed.

Lemma StronglySorted_gt_NoDup (l : list nat) : StronglySorted gt l -> NoDup l.
Proof.
  induction 1 as [|x l Hl IH Hall]; [apply NoDup_nil_2|].
  apply NoDup_cons. split; [|done]. intros Hx.
  rewrite Forall_forall in Hall. apply Hall in Hx. lia.
Qed.

(** What one run reports for a threshold, a run with another order of
    equal counts and the same or a lower threshold reports too. *)
Lemma run_covers sortBy sortBy' thr thr' (rdd : list (list string)) k c :
  sorts_desc sortBy -> sorts_desc sortBy' -> Forall NoDup rdd ->
  (thr' <= thr)%Q ->
  frequent_ranks sortBy thr rdd k c ->
  exists k',
    lbls_of (FPList_of sortBy' thr' rdd) k' ≡ₚ lbls_of (FPList_of sortBy thr rdd) k
    /\ frequent_ranks sortBy' thr' rdd k' c.
Proof.
  intros Hs Hs' Hnd Hle (Hne & Hk & Hvalid & Hc & Hpos & Hm).
  destruct (frequent_ranks_of_itemset sortBy' Hs' thr' rdd
              (lbls_of (FPList_of sortBy thr rdd) k) Hnd)
    as (k' & Hl & Hfr).
  - by apply lbls_of_nonempty.
  - apply lbls_of_NoDup; [by apply NoDup_FPList_of|].
    by apply StronglySorted_gt_NoDup.
  - by rewrite <- Hc.
  - rewrite <- Hc. unfold meets_minSup in *.
    apply Qle_bool_iff. apply Qle_bool_iff in Hm. by eapply Qle_trans.
  - exists k'. split; [done|]. by rewrite <- Hc in Hfr.
Qed.

Lemma entries_cover i2z s2q sortBy sortBy' lines minSup minSup'
    numPartitions numPartitions' sep v v' final final' :
  sorts_desc sortBy -> sorts_desc sortBy' -> Forall NoDup (rdd_of lines) ->
  fst (_convert i2z s2q (Z.of_nat (length (rdd_of lines))) minSup) = Ok v ->
  fst (_convert i2z s2q (Z.of_nat (length (rdd_of lines))) minSup') = Ok v' ->
  numeric v -> numeric v' -> (as_Q v' <= as_Q v)%Q ->
  0 < numPartitions -> 0 < numPartitions' ->
  startMine i2z s2q sortBy lines minSup numPartitions sep = Ok final ->
  startMine i2z s2q sortBy' lines minSup' numPartitions' sep = Ok final' ->
  covers final final'.
Proof.
  intros Hs Hs' Hnd Hconv Hconv' Hnum Hnum' Hle Hnp Hnp' Hrun Hrun'.
  destruct (startMine_entries sortBy Hs i2z s2q lines minSup numPartitions sep v
              Hconv Hnum Hnp Hnd) as (d & Hd & _ & Hmem).
  destruct (startMine_entries sortBy' Hs' i2z s2q lines minSup' numPartitions' sep v'
              Hconv' Hnum' Hnp' Hnd) as (d' & Hd' & _ & Hmem').
  rewrite Hrun in Hd. rewrite Hrun' in Hd'. simplify_eq.
  intros s c Hin. apply Hmem in Hin as (k & -> & Hfr).
  destruct (run_covers sortBy sortBy' _ _ _ k c Hs Hs' Hnd Hle Hfr) as (k' & Hl & Hfr').
  eexists _, _. split; [reflexivity|]. split; [exact Hl|].
  apply Hmem'. by exists k'.
Qed.

(** C3, the claim as stated fails on a line that repeats an item: the
    part of a transaction sent to a partition is cut at the first
    occurrence of the owned rank.  On the single line [a a a b b c]
    (counts 3, 2 and 1, so that the ranks do not depend on the engine)
    the pattern [(b, a)] gets the count 6 when one partition owns every
    rank and the count 3 with two partitions. *)
Lemma startMine_numPartitions_repeated_item :
  let lines :=
    [String "a" (String tab (String "a" (String tab (String "a" (String tab
       (String "b" (String tab (String "b" (String tab
          (String "c" EmptyString))))))))))] in
  let run n :=
    let* final := startMine (fun _ => None) (fun _ => None) sortBy_desc
                            lines (PInt 1) n (String tab EmptyString) in
    Ok (dget (items_key ["b"%string; "a"%string]) final) in
  run 1 = Ok (Some 6) /\ run 2 = Ok (Some 3).
Proof. split; vm_compute; reflexivity. Qed.

Lemma covers_nil (d : dict string Z) : covers [] d.
Proof. by intros s c ?%elem_of_nil. Qed.

(** C3 (amended): when no line repeats an item, two runs of [startMine]
    that differ in a positive [numPartitions], and with it in the order
    in which the engine delivers items of equal count, end alike: both
    raise the same exception, or both return mappings under distinct keys
    that report the same itemsets with the same counts; a key may list the
    items of its itemset in another order in the other run. *)
Theorem startMine_numPartitions_invariant i2z s2q sortBy1 sortBy2 lines minSup
    n1 n2 sep :
  sorts_desc sortBy1 -> sorts_desc sortBy2 ->
  Forall NoDup (rdd_of lines) -> 0 < n1 -> 0 < n2 ->
  same_result (startMine i2z s2q sortBy1 lines minSup n1 sep)
              (startMine i2z s2q sortBy2 lines minSup n2 sep).
Proof.
  intros Hs1 Hs2 Hnd Hn1 Hn2.
  assert (Hmain : forall m v,
            fst (_convert i2z s2q (Z.of_nat (length (rdd_of lines))) m) = Ok v ->
            numeric v ->
            same_result (startMine i2z s2q sortBy1 lines m n1 sep)
                        (startMine i2z s2q sortBy2 lines m n2 sep)).
  { intros m v Hconv Hnum.
    destruct (startMine_entries sortBy1 Hs1 i2z s2q lines m n1 sep v
                Hconv Hnum Hn1 Hnd) as (d1 & Hd1 & Hk1 & _).
    destruct (startMine_entries sortBy2 Hs2 i2z s2q lines m n2 sep v
                Hconv Hnum Hn2 Hnd) as (d2 & Hd2 & Hk2 & _).
    rewrite Hd1, Hd2. cbn [same_result].
    split; [done|]. split; [done|]. split.
    - apply (entries_cover i2z s2q sortBy1 sortBy2 lines m m n1 n2 sep v v);
        try done; apply Qle_refl.
    - apply (entries_cover i2z s2q sortBy2 sortBy1 lines m m n2 n1 sep v v);
        try done; apply Qle_refl. }
  assert (Hnone : forall v,
            fst (_convert i2z s2q (Z.of_nat (length (rdd_of lines))) minSup) = Ok v ->
            filter_minSup v (itemCounts (rdd_of lines)) = Ok [] ->
            same_result (startMine i2z s2q sortBy1 lines minSup n1 sep)
                        (startMine i2z s2q sortBy2 lines minSup n2 sep)).
  { intros v Hconv HF.
    rewrite (startMine_no_frequent sortBy1 Hs1 i2z s2q lines minSup n1 sep v)
      by (done || lia).
    rewrite (startMine_no_frequent sortBy2 Hs2 i2z s2q lines minSup n2 sep v)
      by (done || lia).
    cbn [same_result]. split; [apply NoDup_nil_2|].
    split; [apply NoDup_nil_2|]. split; apply covers_nil. }
  assert (Hnot : forall v,
            fst (_convert i2z s2q (Z.of_nat (length (rdd_of lines))) minSup) = Ok v ->
            ~ comparable v ->
            same_result (startMine i2z s2q sortBy1 lines minSup n1 sep)
                        (startMine i2z s2q sortBy2 lines minSup n2 sep)).
  { intros v Hconv Hv.
    rewrite (startMine_not_comparable sortBy1 Hs1 i2z s2q lines minSup n1 sep v)
      by (done || lia).
    rewrite (startMine_not_comparable sortBy2 Hs2 i2z s2q lines minSup n2 sep v)
      by (done || lia).
    destruct lines; cbn [same_result]; [|done].
    split; [apply NoDup_nil_2|]. split; [apply NoDup_nil_2|].
    split; apply covers_nil. }
  destruct (fst (_convert i2z s2q (Z.of_nat (length (rdd_of lines))) minSup))
    as [v|e|] eqn:Hconv.
  - destruct v as [z|f|s|b|].
    + by apply (Hmain minSup (PInt z)).
    + destruct f as [sg|sg| |sg m e].
      * by apply (Hmain minSup (PFloat (S754_zero sg))).
      * destruct sg.
        -- rewrite !(startMine_minus_inf _ _ _ _ _ _ _ Hconv).
           by apply (Hmain (PInt 0) (PInt 0)).
        -- apply (Hnone _ eq_refl).
           rewrite filter_minSup_float. f_equal. by apply filter_none.
      * apply (Hnone _ eq_refl).
        rewrite filter_minSup_float. f_equal. by apply filter_none.
      * by apply (Hmain minSup (PFloat (S754_finite sg m e))).
    + apply (Hnot _ eq_refl). tauto.
    + by apply (Hmain minSup (PBool b)).
    + apply (Hnot _ eq_refl). tauto.
  - unfold startMine. rewrite !decide_False by lia. cbn [bind].
    rewrite Hconv. by cbn.
  - exfalso. unfold _convert, int_mul_float, float_of_int in Hconv.
    repeat case_match; simplify_eq/=.
Qed.

Lemma startMine_numPartitions_invariant_witness :
  let lines := [String "a" (String tab (String "b" EmptyString)); "a"%string] in
  Forall NoDup (rdd_of lines)
  /\ same_result
       (startMine (fun _ => None) (fun _ => None) sortBy_desc lines (PInt 1) 1
                  (String tab EmptyString))
       (startMine (fun _ => None) (fun _ => None) sortBy_desc lines (PInt 1) 2
                  (String tab EmptyString)).
Proof.
  intros lines.
  assert (Hnd : Forall NoDup (rdd_of lines))
    by (apply (bool_decide_unpack _); vm_compute; exact I).
  split; [exact Hnd|].
  apply (startMine_numPartitions_invariant (fun _ => None) (fun _ => None)
           sortBy_desc sortBy_desc lines (PInt 1) 1 2 (String tab EmptyString));
    [exact sortBy_desc_sorts | exact sortBy_desc_sorts | exact Hnd | lia | lia].
Defined.

(** Where the counts are pairwise distinct the engine has no choice: every
    admissible order is the one of [sortBy_desc]. *)
Lemma sorts_desc_distinct sortBy (d : dict string Z) :
  sorts_desc sortBy -> NoDup (snd <$> d) -> sortBy d = sortBy_desc d.
Proof.
  intros Hs Hnd.
  destruct (Hs d) as [Hp Hsorted].
  destruct (sortBy_desc_sorts d) as [Hp' Hsorted'].
  apply (StronglySorted_unique_strong (fun x y : string * Z => snd y <= snd x));
    [|done|done|by rewrite Hp, Hp'].
  intros x1 x2 H1 H2 Hle Hge.
  rewrite Hp in H1. rewrite Hp' in H2.
  assert (E : snd x1 = snd x2) by lia.
  apply list_elem_of_lookup in H1 as [i Hi].
  apply list_elem_of_lookup in H2 as [j Hj].
  assert (i = j) as ->.
  { apply (NoDup_lookup (snd <$> d) i j (snd x1) Hnd).
    - by rewrite list_lookup_fmap, Hi.
    - by rewrite list_lookup_fmap, Hj, E. }
  congruence.
Qed.

(** The run depends on [sortBy] only through the order it gives the
    frequent items of the input. *)
Lemma startMine_sortBy_ext i2z s2q sortBy sortBy' lines minSup numPartitions sep :
  (forall v d,
     fst (_convert i2z s2q (Z.of_nat (length (rdd_of lines))) minSup) = Ok v ->
     filter_minSup v (itemCounts (rdd_of lines)) = Ok d ->
     sortBy d = sortBy' d) ->
  startMine i2z s2q sortBy lines minSup numPartitions sep
  = startMine i2z s2q sortBy' lines minSup numPartitions sep.
Proof.
  intros H. unfold startMine.
  destruct (decide (numPartitions < 0)); [done|]. cbn [bind].
  destruct (fst (_convert i2z s2q _ minSup)) as [v| |] eqn:Hconv; [|done..].
  cbn [bind].
  destruct (filter_minSup v _) as [d| |] eqn:HF; [|done..].
  cbn [bind]. by rewrite (H v d eq_refl HF).
Qed.

(** On the line [a a a b b c] the three counts differ, so every
    admissible order of the engine gives the same two runs: the count of
    [(b, a)] is 6 on one partition and 3 on two. *)
Lemma repeated_item_any_order sortBy :
  sorts_desc sortBy ->
  let lines :=
    [String "a" (String tab (String "a" (String tab (String "a" (String tab
       (String "b" (String tab (String "b" (String tab (String "c" EmptyString))))))))))] in
  let run n :=
    let* final := startMine (fun _ => None) (fun _ => None) sortBy
                            lines (PInt 1) n (String tab EmptyString) in
    Ok (dget (items_key ["b"%string; "a"%string]) final) in
  run 1 = Ok (Some 6) /\ run 2 = Ok (Some 3).
Proof.
  intros Hs lines run.
  assert (E : forall n,
            startMine (fun _ => None) (fun _ => None) sortBy
                      lines (PInt 1) n (String tab EmptyString)
            = startMine (fun _ => None) (fun _ => None) sortBy_desc
                        lines (PInt 1) n (String tab EmptyString)).
  { intros n. apply startMine_sortBy_ext. intros v d Hv Hd.
    apply sorts_desc_distinct; [done|].
    vm_compute in Hv. injection Hv as <-.
    vm_compute in Hd. injection Hd as <-.
    apply (bool_decide_unpack _). vm_compute. exact I. }
  unfold run. rewrite !E. split; vm_compute; reflexivity.
Qed.

(** ** Raising the threshold *)

(** X23: raising the threshold only removes itemsets: when no line
    repeats an item, every entry of the mapping returned for the higher
    threshold stands for an itemset that the mapping returned for the
    lower one reports with the same count; the two runs may differ in the
    positive number of partitions and in the order the engine gives items
    of equal count, so the key of the itemset may list its items in
    another order. *)
Theorem startMine_threshold_monotone i2z s2q sortBy sortBy' lines minSup minSup'
    numPartitions numPartitions' sep v v' :
  sorts_desc sortBy -> sorts_desc sortBy' ->
  fst (_convert i2z s2q (Z.of_nat (length (rdd_of lines))) minSup) = Ok v ->
  fst (_convert i2z s2q (Z.of_nat (length (rdd_of lines))) minSup') = Ok v' ->
  numeric v -> numeric v' -> (as_Q v <= as_Q v')%Q ->
  0 < numPartitions -> 0 < numPartitions' ->
  Forall NoDup (rdd_of lines) ->
  exists final final',
    startMine i2z s2q sortBy lines minSup numPartitions sep = Ok final
    /\ startMine i2z s2q sortBy' lines minSup' numPartitions' sep = Ok final'
    /\ NoDup (dkeys final)
    /\ forall s c, (s, c) ∈ final' ->
         exists p p',
           s = items_key p /\ p' ≡ₚ p /\ dget (items_key p') final = Some c.
Proof.
  intros Hs Hs' Hconv Hconv' Hnum Hnum' Hle Hnp Hnp' Hnd.
  destruct (startMine_entries sortBy Hs i2z s2q lines minSup numPartitions sep v
              Hconv Hnum Hnp Hnd) as (final & Hrun & Hkeys & _).
  destruct (startMine_entries sortBy' Hs' i2z s2q lines minSup' numPartitions' sep v'
              Hconv' Hnum' Hnp' Hnd) as (final' & Hrun' & _ & _).
  exists final, final'. split; [done|]. split; [done|]. split; [done|].
  intros s c Hin.
  destruct (entries_cover i2z s2q sortBy' sortBy lines minSup' minSup
              numPartitions' numPartitions sep v' v final' final
              Hs' Hs Hnd Hconv' Hconv Hnum' Hnum Hle Hnp' Hnp Hrun' Hrun s c Hin)
    as (p & p' & -> & Hp & Hin').
  exists p, p'. split; [done|]. split; [done|].
  by apply elem_dget.
Qed.

Lemma startMine_threshold_monotone_witness :
  let lines := [String "a" (String tab (String "b" EmptyString)); "a"%string] in
  exists final final',
    startMine (fun _ => None) (fun _ => None) sortBy_desc lines (PInt 1) 2
              (String tab EmptyString) = Ok final
    /\ startMine (fun _ => None) (fun _ => None) sortBy_desc lines (PInt 2) 1
                 (String tab EmptyString) = Ok final'
    /\ NoDup (dkeys final)
    /\ forall s c, (s, c) ∈ final' ->
         exists p p',
           s = items_key p /\ p' ≡ₚ p /\ dget (items_key p') final = Some c.
Proof.
  intros lines.
  apply (startMine_threshold_monotone (fun _ => None) (fun _ => None)
           sortBy_desc sortBy_desc lines
           (PInt 1) (PInt 2) 2 1 (String tab EmptyString) (PInt 1) (PInt 2));
    [exact sortBy_desc_sorts | exact sortBy_desc_sorts
    | reflexivity | reflexivity | exact I | exact I | | lia | lia |].
  - vm_compute. discriminate.
  - apply (bool_decide_unpack _); vm_compute; exact I.
Defined.

(** ** The order of equal counts *)

(** The keys of the result follow the order the engine gives items of
    equal count: on the line [a<TAB>b] with threshold 1, the itemset of [a]
    and [b] is written under [b<TAB>a<TAB>] when the engine delivers [a]
    first and under [a<TAB>b<TAB>] when it delivers [b] first.  Both
    orders are admissible. *)
Lemma startMine_tie_order :
  let lines := [String "a" (String tab (String "b" EmptyString))] in
  let sortBy' := fun d : dict string Z => sortBy_desc (reverse d) in
  sorts_desc sortBy'
  /\ startMine (fun _ => None) (fun _ => None) sortBy_desc lines (PInt 1) 1
               (String tab EmptyString)
     = Ok [(items_key ["a"%string], 1); (items_key ["b"%string], 1);
           (items_key ["b"%string; "a"%string], 1)]
  /\ startMine (fun _ => None) (fun _ => None) sortBy' lines (PInt 1) 1
               (String tab EmptyString)
     = Ok [(items_key ["b"%string], 1); (items_key ["a"%string], 1);
           (items_key ["a"%string; "b"%string], 1)].
Proof.
  intros lines sortBy'. split; [|split; vm_compute; reflexivity].
  intros d. destruct (sortBy_desc_sorts (reverse d)) as [Hp Hs].
  split; [|exact Hs]. unfold sortBy'. by rewrite Hp, reverse_Permutation.
Qed.
